(** * ts-path (alias-it): discovery, alias derivation, conflict resolution,
      validation and tsconfig merging

    A shallow embedding of [src/types.ts], [src/utils/fileUtils.ts],
    [src/PathMapper.ts] and [src/index.ts].

    Conventions of the embedding.
    - A JavaScript string is a [string]; one [ascii] stands for one UTF-16
      code unit, so [String.length] is [.length].  The code only tells apart
      the ASCII classes [a-z], [A-Z], [0-9], [_] and white space.
    - A JavaScript object used as a dictionary ([PathMapping], the nodes of a
      parsed [tsconfig.json]) is a [gmap string _]: the own enumerable
      properties, compared as JSON documents are (key order ignored).
    - An ES [Map] keeps its insertion order, which the code iterates over: it
      is an association list.
    - A call that may throw returns an [outcome]; the payload of [Throw] is
      the text that a template literal [`${error}`] renders for the thrown
      value (the texts of the engine's own [TypeError]s are abridged).
    - The sources are ES modules, hence strict mode: assigning a property to
      a primitive value throws.
    - Node's [path] module, the collation behind [localeCompare], the glob and
      directory listers and the file system are the environment: they are the
      [Variable]s of the section.  The class is first studied for arbitrary
      listers; the listers of [FileUtils] have a section of their own, over
      [glob], [fs.readdir] and [fs.stat], and the last section puts them
      under the class, as the constructor and [src/index.ts] do.
    - Depths are integers. *)

From Stdlib Require Import ZArith Lia Ascii String Sorted.
From stdpp Require Import base option list gmap strings pretty fin_maps.

Local Open Scope Z_scope.
Local Set Warnings "-clear-no-such-hyp".

(** ** Exceptions *)

Inductive outcome (A : Type) : Type :=
| Ok (a : A)
| Throw (e : string).
Arguments Ok {A} a.
Arguments Throw {A} e.

(** Sequencing: a statement that throws ends the block. *)
Global Instance outcome_bind : MBind outcome := λ A B k m,
  match m with
  | Ok a => k a
  | Throw e => Throw e
  end.

(** [try { body } catch (error) { handler(`${error}`) }] *)
Definition try_catch {A : Type} (body : outcome A) (handler : string → outcome A) : outcome A :=
  match body with
  | Ok a => Ok a
  | Throw e => handler e
  end.

(** [new Error(message)] rendered by a template literal. *)
Definition Error (message : string) : string := "Error: " +:+ message.

(** ** src/types.ts *)

Inductive PathType : Type := directory | file.

Global Instance PathType_eq_dec : EqDecision PathType.
Proof. solve_decision. Defined.

Module DiscoveredPath.
Record t : Type := mk {
  alias : string;
  path : string;
  relativePath : string;
  type : PathType;
  depth : Z
}.
End DiscoveredPath.

Abbreviation PathMapping := (gmap string string).

(** The return type of [resolveAliasConflict]. *)
Module Resolved.
Record t : Type := mk {
  alias : string;
  path : string
}.
End Resolved.

Module PathMapperResult.
Record t : Type := mk {
  mappings : PathMapping;
  discovered : list DiscoveredPath.t;
  suggestions : list string;
  warnings : list string;
  errors : list string
}.
End PathMapperResult.

Inductive Severity : Type := error | warning | info.

Global Instance Severity_eq_dec : EqDecision Severity.
Proof. solve_decision. Defined.

Module ValidationIssue.
Record t : Type := mk {
  type : Severity;
  message : string;
  path : option string;
  suggestion : option string
}.
End ValidationIssue.

Module ValidationResult.
Record t : Type := mk {
  isValid : bool;
  issues : list ValidationIssue.t
}.
End ValidationResult.

(** ** Characters and the three regular-expression replacements *)

Definition code (c : ascii) : N := N_of_ascii c.

Definition between (lo hi : N) (c : ascii) : bool :=
  ((lo <=? code c) && (code c <=? hi))%N.

Definition is_lower : ascii → bool := between 97 122.
Definition is_upper : ascii → bool := between 65 90.
Definition is_digit : ascii → bool := between 48 57.

(** [[a-zA-Z]] *)
Definition is_letter (c : ascii) : bool := is_lower c || is_upper c.

(** [[a-zA-Z0-9]] *)
Definition is_alnum (c : ascii) : bool := is_letter c || is_digit c.

(** [\w], that is [[A-Za-z0-9_]] *)
Definition is_word (c : ascii) : bool := is_alnum c || (code c =? 95)%N.

(** [\s] on the code units below 256: TAB, LF, VT, FF, CR, space, NBSP. *)
Definition is_space (c : ascii) : bool :=
  between 9 13 c || (code c =? 32)%N || (code c =? 160)%N.

(** [char.toUpperCase()] and [char.toLowerCase()] for a [char] matched by
    [(\w)]: only the ASCII letters change. *)
Definition toUpperCase (c : ascii) : ascii :=
  if is_lower c then ascii_of_N (code c - 32) else c.

Definition toLowerCase (c : ascii) : ascii :=
  if is_upper c then ascii_of_N (code c + 32) else c.

(** [.replace(/[^a-zA-Z0-9]/g, ' ')] *)
Fixpoint replace_non_alnum (s : string) : string :=
  match s with
  | EmptyString => EmptyString
  | String c rest =>
      String (if is_alnum c then c else " "%char) (replace_non_alnum rest)
  end.

(** [.replace(/\s+(\w)/g, (_, char) => char.toUpperCase())].
    [pending] is the run of white space read since the last other character:
    a word character that ends the run replaces run and character by its
    upper case; any other end of the run leaves the run in place. *)
Fixpoint replace_space_word (pending s : string) : string :=
  match s with
  | EmptyString => pending
  | String c rest =>
      if is_space c then replace_space_word (pending +:+ String c EmptyString) rest
      else if is_word c then
        String (if decide (pending = EmptyString) then c else toUpperCase c)
               (replace_space_word EmptyString rest)
      else pending +:+ String c (replace_space_word EmptyString rest)
  end.

(** [.replace(/^(\w)/, (_, char) => char.toLowerCase())] *)
Definition replace_first_word (s : string) : string :=
  match s with
  | EmptyString => EmptyString
  | String c rest => if is_word c then String (toLowerCase c) rest else s
  end.

(** [/^[a-zA-Z]/.test(s)] *)
Definition starts_with_letter (s : string) : bool :=
  match s with
  | EmptyString => false
  | String c _ => is_letter c
  end.

(** [s.split(sep)] for a separator of one character. *)
Fixpoint split (sep : ascii) (s : string) : list string :=
  match s with
  | EmptyString => [EmptyString]
  | String c rest =>
      if decide (c = sep) then EmptyString :: split sep rest
      else match split sep rest with
           | hd :: tl => String c hd :: tl
           | [] => [String c EmptyString]
           end
  end.

(** ** Arrays and Maps *)

(** [l.reduce(f)] without an initial value. *)
Definition reduce {A : Type} (f : A → A → A) (l : list A) : outcome A :=
  match l with
  | [] => Throw "TypeError: Reduce of empty array with no initial value"
  | x :: xs => Ok (fold_left f xs x)
  end.

(** [l.sort(comparefn)]: the sort is stable, and for a consistent [comparefn]
    every stable sort returns the same array; it is written here as the
    insertion of each element in front of the sorted rest. *)
Fixpoint sort_insert {A : Type} (comparefn : A → A → Z) (x : A) (l : list A) : list A :=
  match l with
  | [] => [x]
  | y :: l' =>
      if comparefn x y <=? 0 then x :: y :: l'
      else y :: sort_insert comparefn x l'
  end.

Definition sort {A : Type} (comparefn : A → A → Z) (l : list A) : list A :=
  foldr (sort_insert comparefn) [] l.

Definition Map (V : Type) : Type := list (string * V).

Definition Map_has {V : Type} (m : Map V) (k : string) : bool :=
  bool_decide (k ∈ m.*1).

Fixpoint Map_get {V : Type} (m : Map V) (k : string) : option V :=
  match m with
  | [] => None
  | (k', v) :: m' => if decide (k' = k) then Some v else Map_get m' k
  end.

(** [m.set(k, v)]: the value of an old key is replaced where the key stands,
    a new key goes last. *)
Fixpoint Map_set {V : Type} (m : Map V) (k : string) (v : V) : Map V :=
  match m with
  | [] => [(k, v)]
  | (k', v') :: m' =>
      if decide (k' = k) then (k', v) :: m' else (k', v') :: Map_set m' k v
  end.

(** [for (const x of l) { body }] over the variables [s] that the body
    assigns. *)
Fixpoint for_of {A S : Type} (l : list A) (body : A → S → outcome S) (s : S) : outcome S :=
  match l with
  | [] => Ok s
  | x :: l' => s' ← body x s; for_of l' body s'
  end.

(** [m.get(k)!.push(x)]: the array held by the map is extended in place. *)
Definition Map_push {V : Type} (m : Map (list V)) (k : string) (x : V) : outcome (Map (list V)) :=
  match Map_get m k with
  | Some l => Ok (Map_set m k (l ++ [x]))
  | None => Throw "TypeError: Cannot read properties of undefined (reading 'push')"
  end.

(** ** The environment *)

(** What [path.parse] returns. *)
Module ParsedPath.
Record t : Type := mk {
  root : string;
  dir : string;
  base : string;
  ext : string;
  name : string
}.
End ParsedPath.

Section PathMapper.

Set Default Proof Using "Type".

(** Node's [path] module. *)
Variable path_sep : ascii.
Variable path_relative : string → string → string.
Variable path_parse : string → ParsedPath.t.
Variable path_basename : string → string.

(** [String.prototype.localeCompare]. *)
Variable localeCompare : string → string → Z.

(** The fields of the [PathMapper] instance. *)
Variable rootDir : string.
Variable includePatterns excludePatterns : list string.
Variable maxDepth : Z.

(** What [glob] and [fs.readdir]/[fs.stat] answer behind
    [FileUtils.getTypeScriptFiles] and [FileUtils.getDirectoryStructure]. *)
Variable getTypeScriptFiles : string → list string → list string → outcome (list string).
Variable getDirectoryStructure : string → Z → outcome (list string).

(** *** src/utils/fileUtils.ts *)

Definition generateAlias (filePath rootDir : string) : string :=
  let relativePath := path_relative rootDir filePath in
  let withoutExt := path_parse relativePath in
  let alias :=
    replace_first_word
      (replace_space_word EmptyString
         (replace_non_alnum (ParsedPath.name withoutExt))) in
  let alias :=
    if decide (ParsedPath.ext withoutExt = EmptyString)
    then path_basename filePath
    else alias in
  let alias :=
    if negb (starts_with_letter alias) then "p" +:+ alias else alias in
  alias.

(** *** src/PathMapper.ts *)

Definition calculateDepth (relativePath : string) : Z :=
  Z.of_nat (length (split path_sep relativePath)) - 1.

Definition discovered_entry (type : PathType) (entry : string) : DiscoveredPath.t :=
  let relativePath := path_relative rootDir entry in
  let alias := generateAlias entry rootDir in
  {| DiscoveredPath.alias := alias;
     DiscoveredPath.path := entry;
     DiscoveredPath.relativePath := relativePath;
     DiscoveredPath.type := type;
     DiscoveredPath.depth := calculateDepth relativePath |}.

(** The comparator handed to [discovered.sort]. *)
Definition by_depth_then_alias (a b : DiscoveredPath.t) : Z :=
  if negb (DiscoveredPath.depth a =? DiscoveredPath.depth b)
  then DiscoveredPath.depth a - DiscoveredPath.depth b
  else localeCompare (DiscoveredPath.alias a) (DiscoveredPath.alias b).

Definition discoverPaths : outcome (list DiscoveredPath.t) :=
  try_catch
    (tsFiles ← getTypeScriptFiles rootDir includePatterns excludePatterns;
     directories ← getDirectoryStructure rootDir maxDepth;
     let discovered :=
       (discovered_entry file <$> tsFiles)
         ++ (discovered_entry directory <$> directories) in
     Ok (sort by_depth_then_alias discovered))
    (λ error, Throw (Error ("Failed to discover paths: " +:+ error))).

Definition shorter (shortest current : DiscoveredPath.t) : DiscoveredPath.t :=
  if bool_decide (String.length (DiscoveredPath.relativePath current)
                  < String.length (DiscoveredPath.relativePath shortest))%nat
  then current
  else shortest.

Definition resolveAliasConflict (alias : string) (items : list DiscoveredPath.t)
  : outcome Resolved.t :=
  let files := filter (λ item, DiscoveredPath.type item = file) items in
  let directories := filter (λ item, DiscoveredPath.type item = directory) items in
  if bool_decide (0 < length files)%nat then
    shortestFile ← reduce shorter files;
    Ok {| Resolved.alias := DiscoveredPath.alias shortestFile;
          Resolved.path := DiscoveredPath.relativePath shortestFile |}
  else if bool_decide (0 < length directories)%nat then
    shortestDir ← reduce shorter directories;
    Ok {| Resolved.alias := DiscoveredPath.alias shortestDir;
          Resolved.path := DiscoveredPath.relativePath shortestDir |}
  else
    match items with
    | item0 :: _ =>
        Ok {| Resolved.alias := DiscoveredPath.alias item0;
              Resolved.path := DiscoveredPath.relativePath item0 |}
    | [] => Throw "TypeError: Cannot read properties of undefined (reading 'alias')"
    end.

(** The first loop of [generateMappings]: group by alias. *)
Definition group_item (item : DiscoveredPath.t) (aliasGroups : Map (list DiscoveredPath.t))
  : outcome (Map (list DiscoveredPath.t)) :=
  let aliasGroups :=
    if negb (Map_has aliasGroups (DiscoveredPath.alias item))
    then Map_set aliasGroups (DiscoveredPath.alias item) []
    else aliasGroups in
  Map_push aliasGroups (DiscoveredPath.alias item) item.

(** The second loop of [generateMappings]; its state is [mappings],
    [suggestions] and [warnings]. *)
Definition process_group (entry : string * list DiscoveredPath.t)
    (state : PathMapping * list string * list string)
  : outcome (PathMapping * list string * list string) :=
  let '(alias, items) := entry in
  let '(mappings, suggestions, warnings) := state in
  match items with
  | [item] =>
      let mappings := <["@" +:+ alias := DiscoveredPath.relativePath item]> mappings in
      let suggestions :=
        if bool_decide (2 < DiscoveredPath.depth item)
        then suggestions ++
               ["Consider using a shorter alias for deep path: "
                  +:+ DiscoveredPath.relativePath item]
        else suggestions in
      Ok (mappings, suggestions, warnings)
  | _ =>
      resolved ← resolveAliasConflict alias items;
      let mappings :=
        <["@" +:+ Resolved.alias resolved := Resolved.path resolved]> mappings in
      let warnings :=
        warnings ++
          ["Alias conflict resolved: " +:+ alias +:+ " -> " +:+ Resolved.alias resolved
             +:+ " for " +:+ Resolved.path resolved] in
      Ok (mappings, suggestions, warnings)
  end.

(** [generateMappings] from its second statement on, for the array
    [discovered] that [await this.discoverPaths()] gave (the tests replace
    [discoverPaths] to give arrays of their own). *)
Definition generateMappings_from (discovered : list DiscoveredPath.t)
  : outcome PathMapperResult.t :=
  let errors : list string := [] in
  aliasGroups ← for_of discovered group_item [];
  '(mappings, suggestions, warnings) ← for_of aliasGroups process_group (∅, [], []);
  Ok {| PathMapperResult.mappings := mappings;
        PathMapperResult.discovered := discovered;
        PathMapperResult.suggestions := suggestions;
        PathMapperResult.warnings := warnings;
        PathMapperResult.errors := errors |}.

Definition generateMappings : outcome PathMapperResult.t :=
  discovered ← discoverPaths;
  generateMappings_from discovered.

(** *** Parsed JSON documents *)

(** JSON numbers: only their truthiness is looked at ([0] and [-0] are
    falsy). *)
Variable number : Type.
Variable number_truthy : number → bool.

(** A JavaScript value as [JSON.parse] builds it.  An array is an object
    whose keys are its indices ([isArray] tells them apart); the code may
    add a named property to it. *)
#[warnings="-register-all"]
Inductive value : Type :=
| VUndefined
| VNull
| VBool (b : bool)
| VNum (n : number)
| VStr (s : string)
| VObj (isArray : bool) (props : gmap string value).

Definition ToBoolean (v : value) : bool :=
  match v with
  | VUndefined | VNull => false
  | VBool b => b
  | VNum n => number_truthy n
  | VStr s => negb (bool_decide (s = EmptyString))
  | VObj _ _ => true
  end.

(** [v.k] for a name [k] that no built-in prototype defines (the code reads
    [compilerOptions] and [paths]). *)
Definition get_member (v : value) (k : string) : outcome value :=
  match v with
  | VUndefined => Throw ("TypeError: Cannot read properties of undefined (reading '" +:+ k +:+ "')")
  | VNull => Throw ("TypeError: Cannot read properties of null (reading '" +:+ k +:+ "')")
  | VObj _ props => Ok (default VUndefined (props !! k))
  | VBool _ | VNum _ | VStr _ => Ok VUndefined
  end.

(** [v.k = x] in strict mode (the sources are ES modules): the updated
    [v]. *)
Definition set_member (v : value) (k : string) (x : value) : outcome value :=
  match v with
  | VUndefined => Throw ("TypeError: Cannot set properties of undefined (setting '" +:+ k +:+ "')")
  | VNull => Throw ("TypeError: Cannot set properties of null (setting '" +:+ k +:+ "')")
  | VObj isArray props => Ok (VObj isArray (<[k := x]> props))
  | VBool _ | VNum _ | VStr _ => Throw ("TypeError: Cannot create property '" +:+ k +:+ "'")
  end.

(** The own enumerable properties of a string: its characters by index. *)
Fixpoint string_props (i : nat) (s : string) : gmap string value :=
  match s with
  | EmptyString => ∅
  | String c rest => <[pretty i := VStr (String c EmptyString)]> (string_props (S i) rest)
  end.

(** The own enumerable properties that a spread or [Object.entries]
    copies. *)
Definition own_props (v : value) : gmap string value :=
  match v with
  | VObj _ props => props
  | VStr s => string_props 0 s
  | VUndefined | VNull | VBool _ | VNum _ => ∅
  end.

(** [{ ...a, ...b }] *)
Definition spread (a b : value) : value :=
  VObj false (own_props b ∪ own_props a).

(** [Object.entries(v)]; the order of enumeration is that of
    [map_to_list]. *)
Definition Object_entries (v : value) : outcome (list (string * value)) :=
  match v with
  | VUndefined | VNull => Throw "TypeError: Cannot convert undefined or null to object"
  | _ => Ok (map_to_list (own_props v))
  end.

(** A [PathMapping] as a value. *)
Definition of_mapping (m : PathMapping) : value := VObj false (VStr <$> m).

(** *** The file system *)

Variable path_join : string → string → string.
Variable path_resolve : string → string → string.
Variable fs_access : string → outcome ().
Variable existsSync : string → bool.
(** [JSON.parse(await fs.readFile(configPath, 'utf-8'))] *)
Variable read_json : string → outcome value.
(** [await fs.writeFile(configPath, JSON.stringify(config, null, 2))] *)
Variable write_json : string → value → outcome ().

Definition pathExists (filePath : string) : bool :=
  match fs_access filePath with
  | Ok _ => true
  | Throw _ => false
  end.

Definition validatePathMapping (mapping rootDir : string) : bool :=
  let fullPath := path_resolve rootDir mapping in
  existsSync fullPath.

Definition readTsConfig (configPath : string) : outcome value :=
  try_catch (read_json configPath)
    (λ error, Throw (Error ("Failed to read tsconfig.json: " +:+ error))).

Definition writeTsConfig (configPath : string) (config : value) : outcome () :=
  try_catch (write_json configPath config)
    (λ error, Throw (Error ("Failed to write tsconfig.json: " +:+ error))).

(** [tsConfigPath || path.join(this.rootDir, "tsconfig.json")] *)
Definition config_path (tsConfigPath : option string) : string :=
  match tsConfigPath with
  | Some p => if decide (p = EmptyString) then path_join rootDir "tsconfig.json" else p
  | None => path_join rootDir "tsconfig.json"
  end.

Definition findBetterMapping (alias currentPath : string)
    (discovered : list DiscoveredPath.t) : option string :=
  let targetPath := path_resolve rootDir currentPath in
  (fix loop (items : list DiscoveredPath.t) : option string :=
     match items with
     | [] => None
     | item :: rest =>
         let itemFullPath := path_resolve rootDir (DiscoveredPath.relativePath item) in
         if bool_decide (itemFullPath = targetPath)
            && bool_decide (String.length (DiscoveredPath.relativePath item)
                            < String.length currentPath)%nat
         then Some (DiscoveredPath.relativePath item)
         else loop rest
     end) discovered.

(** [config.compilerOptions?.paths || {}] *)
Definition existing_paths (config : value) : outcome value :=
  compilerOptions ← get_member config "compilerOptions";
  paths ← match compilerOptions with
          | VUndefined | VNull => Ok VUndefined
          | _ => get_member compilerOptions "paths"
          end;
  Ok (if ToBoolean paths then paths else VObj false ∅).

(** One turn of the loop of [validateExistingMappings]: the issues it
    pushes, or what it throws before pushing. *)
Definition validate_entry (entry : string * value) : outcome (list ValidationIssue.t) :=
  let '(alias, mapping) := entry in
  let mappingPath :=
    match mapping with
    | VObj true props => default VUndefined (props !! "0")
    | _ => mapping
    end in
  match mappingPath with
  | VStr mappingPath =>
      if negb (validatePathMapping mappingPath rootDir) then
        Ok [ {| ValidationIssue.type := error;
                ValidationIssue.message :=
                  "Invalid path mapping: " +:+ alias +:+ " -> " +:+ mappingPath;
                ValidationIssue.path := Some mappingPath;
                ValidationIssue.suggestion := Some "Remove or fix this mapping" |} ]
      else
        discovered ← discoverPaths;
        match findBetterMapping alias mappingPath discovered with
        | Some betterMapping =>
            (* [if (betterMapping)]: the empty string is falsy *)
            if decide (betterMapping = EmptyString) then Ok []
            else
              Ok [ {| ValidationIssue.type := info;
                      ValidationIssue.message :=
                        "Consider using shorter path: " +:+ betterMapping;
                      ValidationIssue.path := Some mappingPath;
                      ValidationIssue.suggestion := Some betterMapping |} ]
        | None => Ok []
        end
  | _ =>
      (* [path.resolve] rejects an argument that is not a string *)
      Throw "TypeError [ERR_INVALID_ARG_TYPE]: The paths[1] argument must be of type string"
  end.

(** The loop: [issues] keeps what was pushed before a throw. *)
Fixpoint validate_entries (entries : list (string * value))
    (issues : list ValidationIssue.t) : list ValidationIssue.t * outcome () :=
  match entries with
  | [] => (issues, Ok ())
  | entry :: rest =>
      match validate_entry entry with
      | Ok pushed => validate_entries rest (issues ++ pushed)
      | Throw e => (issues, Throw e)
      end
  end.

Definition validation_failed (configPath : string) (issues : list ValidationIssue.t)
    (thrown : string) : ValidationResult.t :=
  {| ValidationResult.isValid := false;
     ValidationResult.issues :=
       issues ++
         [ {| ValidationIssue.type := error;
              ValidationIssue.message := "Failed to validate mappings: " +:+ thrown;
              ValidationIssue.path := Some configPath;
              ValidationIssue.suggestion := None |} ] |}.

Definition validateExistingMappings (tsConfigPath : option string) : ValidationResult.t :=
  let configPath := config_path tsConfigPath in
  if negb (pathExists configPath) then
    {| ValidationResult.isValid := false;
       ValidationResult.issues :=
         [ {| ValidationIssue.type := error;
              ValidationIssue.message := "tsconfig.json not found";
              ValidationIssue.path := Some configPath;
              ValidationIssue.suggestion := None |} ] |}
  else
    match (config ← readTsConfig configPath;
           pathMappings ← existing_paths config;
           Object_entries pathMappings) with
    | Throw e => validation_failed configPath [] e
    | Ok entries =>
        match validate_entries entries [] with
        | (issues, Ok _) =>
            {| ValidationResult.isValid :=
                 bool_decide
                   (length (filter (λ issue, ValidationIssue.type issue = error) issues)
                    = 0%nat);
               ValidationResult.issues := issues |}
        | (issues, Throw e) => validation_failed configPath issues e
        end
    end.

(** The configuration written when there is no file yet. *)
Definition default_config : value :=
  VObj false
    {[ "compilerOptions" :=
         VObj false
           (list_to_map
              [ ("target", VStr "ES2020");
                ("module", VStr "commonjs");
                ("strict", VBool true);
                ("esModuleInterop", VBool true);
                ("skipLibCheck", VBool true);
                ("forceConsistentCasingInFileNames", VBool true) ]) ]}.

(** Lines 244 to 254 of [updateTsConfig]: the change made to the document.
    The object held by [config.compilerOptions] is changed in place, which
    is written here as storing it back. *)
Definition apply_mappings (config : value) (newMappings : PathMapping) (merge : bool)
  : outcome value :=
  compilerOptions ← get_member config "compilerOptions";
  config ← (if negb (ToBoolean compilerOptions)
            then set_member config "compilerOptions" (VObj false ∅)
            else Ok config);
  compilerOptions ← get_member config "compilerOptions";
  (* [merge && config.compilerOptions.paths] *)
  condition ← (if merge then get_member compilerOptions "paths" else Ok (VBool false));
  compilerOptions ←
    (if ToBoolean condition
     then
       paths ← get_member compilerOptions "paths";
       set_member compilerOptions "paths" (spread paths (of_mapping newMappings))
     else set_member compilerOptions "paths" (of_mapping newMappings));
  set_member config "compilerOptions" compilerOptions.

(** [updateTsConfig] returns nothing; the embedding returns the arguments
    of the call of [writeTsConfig] it completed. *)
Definition updateTsConfig (newMappings : PathMapping) (tsConfigPath : option string)
    (merge : bool) : outcome (string * value) :=
  let configPath := config_path tsConfigPath in
  try_catch
    (config ← (if pathExists configPath
               then readTsConfig configPath
               else Ok default_config);
     config ← apply_mappings config newMappings merge;
     _ ← writeTsConfig configPath config;
     Ok (configPath, config))
    (λ error, Throw (Error ("Failed to update tsconfig.json: " +:+ error))).

(** [path.join] with three arguments. *)
Variable path_join3 : string → string → string → string.

(** This method has no statement but [return []]. *)
Definition analyzeImportPatterns : outcome (list (string * Z)) := Ok [].

Definition commonDirs : list string :=
  ["components"; "utils"; "types"; "services"; "hooks"; "pages"].

(** The result of [discoverPaths] is awaited and not used. *)
Definition getSuggestions : outcome (list string) :=
  discovered ← discoverPaths;
  let suggestions : list string := [] in
  importPatterns ← analyzeImportPatterns;
  suggestions ←
    for_of importPatterns
      (λ pattern suggestions,
         Ok (if bool_decide (5 < pattern.2)
             then suggestions ++
                    ["Consider creating alias for: " +:+ pattern.1 +:+ " (used "
                       +:+ pretty pattern.2 +:+ " times)"]
             else suggestions))
      suggestions;
  for_of commonDirs
    (λ dir suggestions,
       let dirPath := path_join3 rootDir "src" dir in
       Ok (if pathExists dirPath
           then suggestions ++
                  ["Consider adding alias for common directory: @" +:+ dir
                     +:+ " -> src/" +:+ dir]
           else suggestions))
    suggestions.

(** *** What the properties speak of *)

Definition is_object (v : value) : bool :=
  match v with
  | VObj _ _ => true
  | _ => false
  end.

(** A configuration document: a JSON object whose [compilerOptions], when it
    has one that is not falsy, is an object again.  (On any other value
    [apply_mappings] throws a [TypeError], see [apply_mappings_throws].) *)
Definition config_document (config : value) : bool :=
  match config with
  | VObj _ props =>
      match props !! "compilerOptions" with
      | Some compilerOptions => negb (ToBoolean compilerOptions) || is_object compilerOptions
      | None => true
      end
  | _ => false
  end.

(** The number of occurrences of a character in a string. *)
Fixpoint count_char (c : ascii) (s : string) : nat :=
  match s with
  | EmptyString => 0%nat
  | String c' rest => ((if decide (c' = c) then 1 else 0) + count_char c rest)%nat
  end.

(** Every character of a string satisfies a test. *)
Fixpoint all_chars (test : ascii → bool) (s : string) : bool :=
  match s with
  | EmptyString => true
  | String c rest => test c && all_chars test rest
  end.

(** A word with its first character in upper case, in lower case. *)
Definition capitalize (word : string) : string :=
  match word with
  | EmptyString => EmptyString
  | String c rest => String (toUpperCase c) rest
  end.

Definition uncapitalize (word : string) : string :=
  match word with
  | EmptyString => EmptyString
  | String c rest => String (toLowerCase c) rest
  end.

(** A name made of words and of the separators between them:
    [w0 s1 w1 s2 w2 ...]. *)
Fixpoint separated (word : string) (more : list (string * string)) : string :=
  match more with
  | [] => word
  | (separator, next) :: more' => word +:+ separator +:+ separated next more'
  end.

(** The camel case of these words: [w0 W1 W2 ...]. *)
Definition camelCase (word : string) (more : list (string * string)) : string :=
  uncapitalize word +:+ foldr String.append EmptyString (capitalize <$> more.*2).

(** A word: letters and digits, at least one. *)
Definition is_name_word (word : string) : bool :=
  negb (bool_decide (word = EmptyString)) && all_chars is_alnum word.

(** A separator: characters that are neither letters nor digits, at least
    one. *)
Definition is_name_separator (separator : string) : bool :=
  negb (bool_decide (separator = EmptyString))
  && all_chars (λ c, negb (is_alnum c)) separator.

(** The elements of a list without repetition, each where it first occurs:
    [[...new Set(l)]], and the order of the keys of a [Map] filled from
    [l]. *)
Definition unique (l : list string) : list string :=
  fold_left (λ seen x, if bool_decide (x ∈ seen) then seen else seen ++ [x]) l [].

(** [Array.isArray(mapping) ? mapping[0] : mapping] *)
Definition mapping_path (mapping : value) : value :=
  match mapping with
  | VObj true props => default VUndefined (props !! "0")
  | _ => mapping
  end.

(** The alias groups of a discovered set: the aliases where they first
    occur, each with the records that have it, in the order of discovery. *)
Definition groups_of (discovered : list DiscoveredPath.t) : Map (list DiscoveredPath.t) :=
  (λ k, (k, filter (λ d, DiscoveredPath.alias d = k) discovered))
    <$> unique (DiscoveredPath.alias <$> discovered).

(** The texts that [generateMappings] pushes. *)
Definition conflict_warning (alias : string) (resolved : Resolved.t) : string :=
  "Alias conflict resolved: " +:+ alias +:+ " -> " +:+ Resolved.alias resolved
    +:+ " for " +:+ Resolved.path resolved.

Definition deep_path_suggestion (item : DiscoveredPath.t) : string :=
  "Consider using a shorter alias for deep path: " +:+ DiscoveredPath.relativePath item.

(** The lexicographic order of strings: decided by the code units at the first
    position where the strings differ (the order of [<=] on JavaScript
    strings). *)
Definition lexicographic_le (a b : string) : Prop :=
  String.compare a b ≠ Gt.

(** A conflict warning whose winning alias is the original alias. *)
Definition same_alias_warning (warning : string) : Prop :=
  ∃ alias target,
    warning = "Alias conflict resolved: " +:+ alias +:+ " -> " +:+ alias
                +:+ " for " +:+ target.

(** [config.compilerOptions.paths] *)
Definition paths_node (config : value) : outcome value :=
  compilerOptions ← get_member config "compilerOptions";
  get_member compilerOptions "paths".

(** The document that [apply_mappings] builds from a configuration document,
    in one expression. *)
Definition updated_document (isArray : bool) (props : gmap string value)
    (newMappings : PathMapping) (merge : bool) : value :=
  let compilerOptions := default VUndefined (props !! "compilerOptions") in
  match compilerOptions with
  | VObj isArray' props' =>
      let paths := default VUndefined (props' !! "paths") in
      VObj isArray
        (<["compilerOptions" :=
             VObj isArray'
               (<["paths" :=
                    if merge && ToBoolean paths
                    then spread paths (of_mapping newMappings)
                    else of_mapping newMappings]> props')]> props)
  | _ =>
      VObj isArray
        (<["compilerOptions" := VObj false {["paths" := of_mapping newMappings]}]> props)
  end.

(** * Properties *)

(** Drops from the context the parts of the environment that the goal does
    not speak of, so that a lemma depends on what its statement names. *)
Local Ltac forget_environment :=
  try clear path_join3; try clear write_json; try clear read_json; try clear existsSync;
  try clear fs_access; try clear path_resolve; try clear path_join;
  try clear number_truthy; try clear number;
  try clear getDirectoryStructure; try clear getTypeScriptFiles;
  try clear maxDepth; try clear includePatterns; try clear excludePatterns;
  try clear rootDir; try clear localeCompare; try clear path_basename;
  try clear path_parse; try clear path_relative; try clear path_sep.

(** ** Conflict resolution *)

Local Abbreviation path_length x := (String.length (DiscoveredPath.relativePath x)).

(** [reduce] with [shorter] returns the first of the shortest elements: the
    ones before it are strictly longer, the ones after it are not shorter. *)
Lemma fold_shorter_first_shortest (xs : list DiscoveredPath.t) (x0 : DiscoveredPath.t) :
  ∃ before winner after,
    x0 :: xs = before ++ winner :: after
    ∧ fold_left shorter xs x0 = winner
    ∧ (∀ y, y ∈ before → (path_length winner < path_length y)%nat)
    ∧ (∀ y, y ∈ after → (path_length winner ≤ path_length y)%nat).
Proof.
  induction xs as [|y xs IH] using rev_ind.
  - exists [], x0, []. repeat split; intros y Hy; inversion Hy.
  - destruct IH as (before & w & after & Hsplit & Hfold & Hbefore & Hafter).
    rewrite fold_left_app; simpl. rewrite Hfold. unfold shorter.
    case_bool_decide as Hlt.
    + exists (before ++ w :: after), y, []. repeat split.
      * rewrite app_comm_cons, Hsplit. reflexivity.
      * intros z Hz. apply elem_of_app in Hz as [Hz|Hz].
        -- specialize (Hbefore z Hz). lia.
        -- apply elem_of_cons in Hz as [->|Hz]; [lia|].
           specialize (Hafter z Hz). lia.
      * intros z Hz. inversion Hz.
    + exists before, w, (after ++ [y]). repeat split.
      * rewrite app_comm_cons, Hsplit, <- app_assoc. reflexivity.
      * exact Hbefore.
      * intros z Hz. apply elem_of_app in Hz as [Hz|Hz].
        -- apply Hafter, Hz.
        -- apply list_elem_of_singleton in Hz as ->. lia.
Qed.

(** A split of a filtered list comes from a split of the list. *)
Lemma filter_split {A : Type} (P : A → Prop) `{!∀ x, Decision (P x)}
    (l f1 f2 : list A) (w : A) :
  filter P l = f1 ++ w :: f2 →
  ∃ l1 l2, l = l1 ++ w :: l2 ∧ filter P l1 = f1 ∧ filter P l2 = f2.
Proof.
  revert f1. induction l as [|x l IH]; intros f1 Hf.
  - destruct f1; discriminate.
  - rewrite filter_cons in Hf. destruct (decide (P x)) as [Hx|Hx].
    + destruct f1 as [|y f1]; injection Hf as -> Hf.
      * exists [], l. rewrite filter_nil. auto.
      * destruct (IH f1 Hf) as (l1 & l2 & -> & <- & <-).
        exists (y :: l1), l2. rewrite filter_cons_True by done. auto.
    + destruct (IH f1 Hf) as (l1 & l2 & -> & <- & <-).
      exists (x :: l1), l2. rewrite filter_cons_False by done. auto.
Qed.

(** [reduce] over the records of one kind of a list that has some. *)
Lemma reduce_shorter_of_kind (kind : PathType) (items : list DiscoveredPath.t) :
  filter (λ item, DiscoveredPath.type item = kind) items ≠ [] →
  ∃ before winner after,
    items = before ++ winner :: after
    ∧ reduce shorter (filter (λ item, DiscoveredPath.type item = kind) items) = Ok winner
    ∧ DiscoveredPath.type winner = kind
    ∧ (∀ y, y ∈ before → DiscoveredPath.type y = kind →
            (path_length winner < path_length y)%nat)
    ∧ (∀ y, y ∈ after → DiscoveredPath.type y = kind →
            (path_length winner ≤ path_length y)%nat).
Proof.
  forget_environment.
  intros Hne.
  destruct (filter _ items) as [|x0 xs] eqn:Hfilter; [done|].
  destruct (fold_shorter_first_shortest xs x0)
    as (f1 & w & f2 & Hsplit & Hfold & Hbefore & Hafter).
  rewrite Hsplit in Hfilter.
  destruct (filter_split _ _ _ _ _ Hfilter) as (l1 & l2 & -> & Hf1 & Hf2).
  exists l1, w, l2.
  assert (w ∈ filter (λ item, DiscoveredPath.type item = kind) (l1 ++ w :: l2)) as Hw.
  { rewrite Hfilter. set_solver. }
  apply list_elem_of_filter in Hw as [Hkind _].
  repeat split; [by rewrite <- Hfold|done| |].
  - intros y Hy Hk. apply Hbefore. rewrite <- Hf1. by apply list_elem_of_filter.
  - intros y Hy Hk. apply Hafter. rewrite <- Hf2. by apply list_elem_of_filter.
Qed.

Lemma filter_kind_nil (items : list DiscoveredPath.t) :
  filter (λ item, DiscoveredPath.type item = file) items = [] →
  filter (λ item, DiscoveredPath.type item = directory) items = items.
Proof.
  induction items as [|x items IH]; [done|].
  rewrite !filter_cons. destruct (DiscoveredPath.type x) eqn:Hx; simpl.
  - intros H. by rewrite IH.
  - discriminate.
Qed.

Lemma resolveAliasConflict_files (alias : string) (items : list DiscoveredPath.t) :
  filter (λ item, DiscoveredPath.type item = file) items ≠ [] →
  resolveAliasConflict alias items =
    shortestFile ← reduce shorter (filter (λ item, DiscoveredPath.type item = file) items);
    Ok {| Resolved.alias := DiscoveredPath.alias shortestFile;
          Resolved.path := DiscoveredPath.relativePath shortestFile |}.
Proof.
  intros Hne. unfold resolveAliasConflict.
  destruct (filter _ items) as [|x xs]; [done|].
  rewrite bool_decide_eq_true_2 by (simpl; lia). reflexivity.
Qed.

Lemma resolveAliasConflict_directories (alias : string) (items : list DiscoveredPath.t) :
  filter (λ item, DiscoveredPath.type item = file) items = [] →
  items ≠ [] →
  resolveAliasConflict alias items =
    shortestDir ← reduce shorter (filter (λ item, DiscoveredPath.type item = directory) items);
    Ok {| Resolved.alias := DiscoveredPath.alias shortestDir;
          Resolved.path := DiscoveredPath.relativePath shortestDir |}.
Proof.
  intros Hfiles Hne. unfold resolveAliasConflict.
  rewrite Hfiles, (filter_kind_nil _ Hfiles).
  rewrite bool_decide_eq_false_2 by (simpl; lia).
  destruct items as [|x xs]; [done|].
  rewrite bool_decide_eq_true_2 by (simpl; lia). reflexivity.
Qed.

(** C1. For every group of records (every non-empty one, so every group of two
    or more), [resolveAliasConflict] returns the alias and relative path of a
    record [winner] of the group such that: if the group has a file, [winner]
    is a file; if it has only directories, [winner] is a directory; no record
    of the kind of [winner] has a shorter [relativePath]; and the records of
    that kind that stand before [winner] in the group are strictly longer, so
    that among equally short candidates the first one is returned. *)
Theorem resolveAliasConflict_first_shortest (alias : string) (items : list DiscoveredPath.t) :
  items ≠ [] →
  ∃ before winner after,
    items = before ++ winner :: after
    ∧ resolveAliasConflict alias items =
        Ok {| Resolved.alias := DiscoveredPath.alias winner;
              Resolved.path := DiscoveredPath.relativePath winner |}
    ∧ ((∃ x, x ∈ items ∧ DiscoveredPath.type x = file) →
       DiscoveredPath.type winner = file)
    ∧ ((∀ x, x ∈ items → DiscoveredPath.type x = directory) →
       DiscoveredPath.type winner = directory)
    ∧ (∀ x, x ∈ before → DiscoveredPath.type x = DiscoveredPath.type winner →
            (path_length winner < path_length x)%nat)
    ∧ (∀ x, x ∈ after → DiscoveredPath.type x = DiscoveredPath.type winner →
            (path_length winner ≤ path_length x)%nat).
Proof.
  forget_environment.
  intros Hne.
  destruct (decide (filter (λ item, DiscoveredPath.type item = file) items = []))
    as [Hfiles|Hfiles].
  - pose proof (filter_kind_nil _ Hfiles) as Hdirs.
    destruct (reduce_shorter_of_kind directory items)
      as (before & w & after & Hsplit & Hreduce & Hkind & Hbefore & Hafter).
    { by rewrite Hdirs. }
    exists before, w, after.
    rewrite resolveAliasConflict_directories, Hreduce by done.
    rewrite Hkind. repeat split; try done.
    intros (x & Hx & Hfile).
    exfalso.
    assert (x ∈ filter (λ item, DiscoveredPath.type item = file) items) as Hin
      by (by apply list_elem_of_filter).
    rewrite Hfiles in Hin. inversion Hin.
  - destruct (reduce_shorter_of_kind file items Hfiles)
      as (before & w & after & Hsplit & Hreduce & Hkind & Hbefore & Hafter).
    exists before, w, after.
    rewrite resolveAliasConflict_files, Hreduce by done.
    rewrite Hkind. repeat split; try done.
    intros Hall. rewrite <- Hkind. apply Hall. rewrite Hsplit. set_solver.
Qed.

(** The pair returned for a non-empty group is taken from one of its
    records. *)
Lemma resolveAliasConflict_member (alias : string) (items : list DiscoveredPath.t) :
  items ≠ [] →
  ∃ winner,
    winner ∈ items
    ∧ resolveAliasConflict alias items =
        Ok {| Resolved.alias := DiscoveredPath.alias winner;
              Resolved.path := DiscoveredPath.relativePath winner |}.
Proof.
  forget_environment.
  intros Hne.
  destruct (decide (filter (λ item, DiscoveredPath.type item = file) items = []))
    as [Hfiles|Hfiles].
  - destruct (reduce_shorter_of_kind directory items)
      as (before & w & after & Hsplit & Hreduce & _).
    { by rewrite (filter_kind_nil _ Hfiles). }
    exists w. rewrite resolveAliasConflict_directories, Hreduce by done.
    split; [rewrite Hsplit; set_solver|done].
  - destruct (reduce_shorter_of_kind file items Hfiles)
      as (before & w & after & Hsplit & Hreduce & _).
    exists w. rewrite resolveAliasConflict_files, Hreduce by done.
    split; [rewrite Hsplit; set_solver|done].
Qed.

(** C10. For every non-empty group of records that all have the alias
    [alias], [resolveAliasConflict] returns a pair whose alias is [alias];
    hence, for a group that [generateMappings] treats as a conflict, the
    mapping is stored under ["@" + alias] and the warning names [alias] both as
    the original and as the winning alias. *)
Theorem resolveAliasConflict_keeps_alias (alias : string) (items : list DiscoveredPath.t) :
  items ≠ [] →
  (∀ x, x ∈ items → DiscoveredPath.alias x = alias) →
  ∃ resolved,
    resolveAliasConflict alias items = Ok resolved
    ∧ Resolved.alias resolved = alias
    ∧ ∀ mappings suggestions warnings,
        (1 < length items)%nat →
        process_group (alias, items) (mappings, suggestions, warnings) =
          Ok (<["@" +:+ alias := Resolved.path resolved]> mappings,
              suggestions,
              warnings ++
                ["Alias conflict resolved: " +:+ alias +:+ " -> " +:+ alias
                   +:+ " for " +:+ Resolved.path resolved]).
Proof.
  intros Hne Hshared.
  destruct (resolveAliasConflict_member alias items Hne) as (w & Hin & Hresolve).
  pose proof (Hshared w Hin) as Hw.
  eexists. split; [exact Hresolve|]. split; [exact Hw|].
  intros mappings suggestions warnings Hlen.
  unfold process_group. rewrite Hresolve. simpl. rewrite Hw.
  destruct items as [|x [|y items]]; simpl in Hlen; [lia|lia|reflexivity].
Qed.

(** ** Alias derivation *)

Lemma is_letter_codes (c : ascii) :
  is_letter c = true →
  (97 ≤ code c ≤ 122 ∨ 65 ≤ code c ≤ 90)%N.
Proof.
  forget_environment.
  unfold is_letter, is_lower, is_upper, between.
  rewrite orb_true_iff, !andb_true_iff, !N.leb_le. tauto.
Qed.

(** C3. [generateAlias] is a function of its two arguments (given Node's
    [path] functions) that returns, for every [filePath] and [rootDir], a
    string that is not empty and whose first character is an ASCII letter
    ([a] to [z], code 97 to 122, or [A] to [Z], code 65 to 90). *)
Theorem generateAlias_starts_with_letter (filePath root : string) :
  ∃ c rest,
    generateAlias filePath root = String c rest
    ∧ (97 ≤ code c ≤ 122 ∨ 65 ≤ code c ≤ 90)%N.
Proof.
  unfold generateAlias.
  set (alias := if decide (_ = EmptyString) then _ else _).
  destruct (starts_with_letter alias) eqn:Hstart; simpl.
  - destruct alias as [|c rest]; [discriminate|].
    exists c, rest. split; [reflexivity|]. by apply is_letter_codes.
  - exists "p"%char, alias. split; [reflexivity|]. left. vm_compute. split; discriminate.
Qed.

(** ** Discovery order *)

Lemma sort_insert_Permutation {A : Type} (comparefn : A → A → Z) (x : A) (l : list A) :
  sort_insert comparefn x l ≡ₚ x :: l.
Proof.
  induction l as [|y l IH]; simpl; [done|].
  destruct (comparefn x y <=? 0); [done|].
  rewrite IH. apply Permutation_swap.
Qed.

Lemma sort_Permutation {A : Type} (comparefn : A → A → Z) (l : list A) :
  sort comparefn l ≡ₚ l.
Proof.
  induction l as [|x l IH]; simpl; [done|].
  rewrite sort_insert_Permutation. by f_equiv.
Qed.

Section Sorting.

Context {A : Type} (comparefn : A → A → Z).
Hypothesis comparefn_total : ∀ x y, 0 < comparefn x y → comparefn y x ≤ 0.

Local Abbreviation before_or_equal := (λ x y, comparefn x y ≤ 0).

Lemma sort_insert_Sorted (x : A) (l : list A) :
  Sorted before_or_equal l → Sorted before_or_equal (sort_insert comparefn x l).
Proof using comparefn_total.
  induction l as [|y l IH]; intros Hsorted; simpl.
  - repeat constructor.
  - destruct (comparefn x y <=? 0) eqn:Hxy.
    + apply Z.leb_le in Hxy. constructor; [done|by constructor].
    + apply Z.leb_gt in Hxy.
      apply Sorted_inv in Hsorted as [Hl Hhd].
      constructor; [by apply IH|].
      destruct l as [|z l]; simpl.
      * constructor. by apply comparefn_total.
      * destruct (comparefn x z <=? 0).
        -- constructor. by apply comparefn_total.
        -- constructor. by apply HdRel_inv in Hhd.
Qed.

Lemma sort_Sorted (l : list A) : Sorted before_or_equal (sort comparefn l).
Proof using comparefn_total.
  induction l as [|x l IH]; simpl; [constructor|].
  by apply sort_insert_Sorted.
Qed.

Lemma Sorted_adjacent (l : list A) (i : nat) (x y : A) :
  Sorted before_or_equal l →
  l !! i = Some x → l !! S i = Some y → comparefn x y ≤ 0.
Proof.
  intros Hsorted. revert i.
  induction Hsorted as [|a l Hl IH Hhd]; intros i Hx Hy; [done|].
  destruct i as [|i]; simpl in *.
  - injection Hx as ->. destruct l as [|b l]; [done|].
    simpl in Hy. injection Hy as ->. by apply HdRel_inv in Hhd.
  - by apply (IH i).
Qed.

End Sorting.

Lemma by_depth_then_alias_total :
  (∀ a b, 0 < localeCompare a b → localeCompare b a ≤ 0) →
  ∀ x y, 0 < by_depth_then_alias x y → by_depth_then_alias y x ≤ 0.
Proof.
  intros Hlocale x y. unfold by_depth_then_alias.
  destruct (Z.eqb_spec (DiscoveredPath.depth x) (DiscoveredPath.depth y)) as [Heq|Hne];
    destruct (Z.eqb_spec (DiscoveredPath.depth y) (DiscoveredPath.depth x)) as [Heq'|Hne'];
    simpl; try lia.
  apply Hlocale.
Qed.

Lemma discoverPaths_Ok (discovered : list DiscoveredPath.t) :
  discoverPaths = Ok discovered →
  ∃ tsFiles directories,
    getTypeScriptFiles rootDir includePatterns excludePatterns = Ok tsFiles
    ∧ getDirectoryStructure rootDir maxDepth = Ok directories
    ∧ discovered =
        sort by_depth_then_alias
          ((discovered_entry file <$> tsFiles)
             ++ (discovered_entry directory <$> directories)).
Proof.
  unfold discoverPaths, try_catch.
  destruct (getTypeScriptFiles _ _ _) as [tsFiles|e]; simpl; [|discriminate].
  destruct (getDirectoryStructure _ _) as [directories|e]; simpl; [|discriminate].
  intros [= <-]. eauto.
Qed.

(** C4, as amended. When [localeCompare] orders every pair of strings one way
    or the other (if it puts [a] after [b], it does not put [b] after [a]),
    every array that [discoverPaths] returns is ascending by depth and, among
    records of equal depth, ascending by alias in the order of
    [localeCompare]: of two adjacent records [r1], [r2], either
    [r1.depth < r2.depth], or the depths are equal and
    [r1.alias.localeCompare(r2.alias) <= 0].  (This order is the collation of
    the locale, not the lexicographic order of the code units.) *)
Theorem discoverPaths_sorted (discovered : list DiscoveredPath.t) (i : nat)
    (r1 r2 : DiscoveredPath.t) :
  (∀ a b, 0 < localeCompare a b → localeCompare b a ≤ 0) →
  discoverPaths = Ok discovered →
  discovered !! i = Some r1 →
  discovered !! S i = Some r2 →
  DiscoveredPath.depth r1 < DiscoveredPath.depth r2
  ∨ (DiscoveredPath.depth r1 = DiscoveredPath.depth r2
     ∧ localeCompare (DiscoveredPath.alias r1) (DiscoveredPath.alias r2) ≤ 0).
Proof.
  intros Hlocale Hok H1 H2.
  apply discoverPaths_Ok in Hok as (tsFiles & directories & _ & _ & ->).
  pose proof (Sorted_adjacent by_depth_then_alias _ i r1 r2
                (sort_Sorted _ (by_depth_then_alias_total Hlocale) _) H1 H2) as Hle.
  unfold by_depth_then_alias in Hle.
  destruct (Z.eqb_spec (DiscoveredPath.depth r1) (DiscoveredPath.depth r2)) as [Heq|Hne];
    simpl in Hle; [right; done|left; lia].
Qed.

(** ** The mappings table *)

Lemma Map_has_true {V : Type} (m : Map V) (k : string) :
  Map_has m k = true ↔ k ∈ m.*1.
Proof. unfold Map_has. apply bool_decide_eq_true. Qed.

Lemma Map_set_keys {V : Type} (m : Map V) (k : string) (v : V) :
  (Map_set m k v).*1 = if decide (k ∈ m.*1) then m.*1 else m.*1 ++ [k].
Proof.
  induction m as [|[k' v'] m IH].
  - rewrite decide_False by (intros Hin; inversion Hin). reflexivity.
  - cbn [Map_set]. destruct (decide (k' = k)) as [->|Hne].
    + rewrite decide_True by (rewrite fmap_cons; apply elem_of_cons; by left).
      reflexivity.
    + rewrite fmap_cons, IH. destruct (decide (k ∈ m.*1)) as [Hin|Hin].
      * rewrite decide_True by (rewrite fmap_cons; apply elem_of_cons; by right).
        reflexivity.
      * rewrite decide_False; [reflexivity|].
        rewrite fmap_cons, elem_of_cons. intros [->|?]; done.
Qed.

Lemma Map_set_elem {V : Type} (m : Map V) (k k' : string) (v v' : V) :
  NoDup m.*1 →
  (k', v') ∈ Map_set m k v →
  (k' = k ∧ v' = v) ∨ (k' ≠ k ∧ (k', v') ∈ m).
Proof.
  forget_environment.
  induction m as [|[k0 v0] m IH]; simpl; intros Hnodup Hin.
  - apply list_elem_of_singleton in Hin. left. by simplify_eq.
  - apply NoDup_cons in Hnodup as [Hk0 Hnodup].
    destruct (decide (k0 = k)) as [->|Hne].
    + apply elem_of_cons in Hin as [Hin|Hin]; [left; by simplify_eq|].
      right. split; [|set_solver].
      intros ->. apply Hk0. apply list_elem_of_fmap. by exists (k, v').
    + apply elem_of_cons in Hin as [Hin|Hin].
      * right. simplify_eq. split; [done|set_solver].
      * destruct (IH Hnodup Hin) as [?|[? ?]]; [by left|right; set_solver].
Qed.

Lemma Map_get_elem {V : Type} (m : Map V) (k : string) (v : V) :
  Map_get m k = Some v → (k, v) ∈ m.
Proof.
  forget_environment.
  induction m as [|[k' v'] m IH]; simpl; [done|].
  destruct (decide (k' = k)) as [->|Hne]; [intros [= ->]|]; set_solver.
Qed.

Lemma Map_get_is_Some {V : Type} (m : Map V) (k : string) :
  k ∈ m.*1 → is_Some (Map_get m k).
Proof.
  forget_environment.
  induction m as [|[k' v'] m IH]; simpl; [set_solver|].
  destruct (decide (k' = k)) as [->|Hne]; [eauto|].
  intros Hin. apply IH. set_solver.
Qed.

Lemma Map_get_set_new {V : Type} (m : Map V) (k : string) (v : V) :
  Map_get (Map_set m k v) k = Some v.
Proof.
  induction m as [|[k' v'] m IH]; simpl.
  - by rewrite decide_True.
  - destruct (decide (k' = k)) as [->|Hne]; simpl.
    + by rewrite decide_True.
    + by rewrite decide_False.
Qed.

(** What every alias group satisfies: its key occurs once, it is not empty,
    and its records have the key as alias. *)
Definition groups_invariant (aliasGroups : Map (list DiscoveredPath.t)) : Prop :=
  NoDup aliasGroups.*1
  ∧ ∀ k items, (k, items) ∈ aliasGroups →
      items ≠ [] ∧ ∀ x, x ∈ items → DiscoveredPath.alias x = k.

Lemma group_item_spec (item : DiscoveredPath.t) (aliasGroups : Map (list DiscoveredPath.t)) :
  groups_invariant aliasGroups →
  ∃ aliasGroups',
    group_item item aliasGroups = Ok aliasGroups'
    ∧ groups_invariant aliasGroups'
    ∧ ∀ k, k ∈ aliasGroups'.*1 ↔ k ∈ aliasGroups.*1 ∨ k = DiscoveredPath.alias item.
Proof.
  forget_environment.
  intros [Hnodup Hgroups]. unfold group_item.
  set (k := DiscoveredPath.alias item).
  set (g1 := if negb (Map_has aliasGroups k) then Map_set aliasGroups k [] else aliasGroups).
  assert (NoDup g1.*1 ∧ (∀ k', k' ∈ g1.*1 ↔ k' ∈ aliasGroups.*1 ∨ k' = k)
          ∧ ∃ l, Map_get g1 k = Some l ∧ ∀ x, x ∈ l → DiscoveredPath.alias x = k)
          as (Hnodup1 & Hkeys1 & l & Hget & Hl).
  { subst g1. destruct (Map_has aliasGroups k) eqn:Hhas; simpl.
    - apply Map_has_true in Hhas. split; [done|]. split; [set_solver|].
      destruct (Map_get_is_Some _ _ Hhas) as [l Hget].
      exists l. split; [done|]. by apply (Hgroups k l), Map_get_elem.
    - assert (k ∉ aliasGroups.*1) as Hnotin.
      { intros Hin. apply Map_has_true in Hin. congruence. }
      rewrite Map_set_keys, decide_False by done.
      split; [|split].
      + apply NoDup_app. split; [done|]. split; [set_solver|]. apply NoDup_singleton.
      + set_solver.
      + exists []. split; [apply Map_get_set_new|]. set_solver. }
  unfold Map_push. rewrite Hget. eexists. split; [reflexivity|].
  assert (k ∈ g1.*1) as Hk by (apply Hkeys1; by right).
  assert ((Map_set g1 k (l ++ [item])).*1 = g1.*1) as Hkeys'.
  { by rewrite Map_set_keys, decide_True. }
  split; [split|].
  - by rewrite Hkeys'.
  - intros k' items Hin.
    apply Map_set_elem in Hin as [[-> ->]|[Hne Hin]]; [| |done].
    + split; [by destruct l|].
      intros x Hx. apply elem_of_app in Hx as [Hx|Hx]; [by apply Hl|].
      by apply list_elem_of_singleton in Hx as ->.
    + apply (Hgroups k' items).
      subst g1. destruct (Map_has aliasGroups k); simpl in Hin; [done|].
      apply Map_set_elem in Hin as [[? ?]|[_ ?]]; done.
  - intros k'. rewrite Hkeys'. apply Hkeys1.
Qed.

Lemma group_items_spec (discovered : list DiscoveredPath.t)
    (aliasGroups : Map (list DiscoveredPath.t)) :
  groups_invariant aliasGroups →
  ∃ aliasGroups',
    for_of discovered group_item aliasGroups = Ok aliasGroups'
    ∧ groups_invariant aliasGroups'
    ∧ ∀ k, k ∈ aliasGroups'.*1 ↔
           k ∈ aliasGroups.*1 ∨ ∃ d, d ∈ discovered ∧ k = DiscoveredPath.alias d.
Proof.
  forget_environment.
  revert aliasGroups.
  induction discovered as [|item discovered IH]; intros aliasGroups Hinv; simpl.
  - exists aliasGroups. split; [done|]. split; [done|]. set_solver.
  - destruct (group_item_spec item aliasGroups Hinv) as (g1 & -> & Hinv1 & Hkeys1).
    simpl. destruct (IH g1 Hinv1) as (g2 & -> & Hinv2 & Hkeys2).
    exists g2. split; [done|]. split; [done|].
    intros k. rewrite Hkeys2, Hkeys1. set_solver.
Qed.

Lemma process_group_spec (k : string) (items : list DiscoveredPath.t)
    (mappings : PathMapping) (suggestions warnings : list string) :
  items ≠ [] →
  (∀ x, x ∈ items → DiscoveredPath.alias x = k) →
  ∃ target suggestions' warnings',
    process_group (k, items) (mappings, suggestions, warnings) =
      Ok (<["@" +:+ k := target]> mappings, suggestions', warnings').
Proof.
  intros Hne Hshared.
  destruct items as [|x [|y items]]; [done| |].
  - simpl. eauto.
  - destruct (resolveAliasConflict_member k (x :: y :: items) Hne) as (w & Hin & Hresolve).
    unfold process_group. rewrite Hresolve. simpl.
    rewrite (Hshared w Hin). eauto.
Qed.

Lemma process_groups_spec (aliasGroups : Map (list DiscoveredPath.t))
    (mappings : PathMapping) (suggestions warnings : list string) :
  (∀ k items, (k, items) ∈ aliasGroups →
     items ≠ [] ∧ ∀ x, x ∈ items → DiscoveredPath.alias x = k) →
  ∃ mappings' suggestions' warnings',
    for_of aliasGroups process_group (mappings, suggestions, warnings) =
      Ok (mappings', suggestions', warnings')
    ∧ dom mappings' = dom mappings ∪ list_to_set ((λ k, "@" +:+ k) <$> aliasGroups.*1).
Proof.
  forget_environment.
  revert mappings suggestions warnings.
  induction aliasGroups as [|[k items] aliasGroups IH];
    intros mappings suggestions warnings Hgroups.
  - exists mappings, suggestions, warnings. split; [done|]. set_solver.
  - destruct (Hgroups k items) as [Hne Hshared]; [set_solver|].
    destruct (process_group_spec k items mappings suggestions warnings Hne Hshared)
      as (target & s1 & w1 & Hstep).
    cbn [for_of]. rewrite Hstep. simpl.
    destruct (IH (<["@" +:+ k := target]> mappings) s1 w1)
      as (m2 & s2 & w2 & -> & Hdom).
    { intros k' items' Hin. apply Hgroups. set_solver. }
    exists m2, s2, w2. split; [done|].
    rewrite Hdom, dom_insert_L. set_solver.
Qed.

Lemma generateMappings_from_returns (discovered : list DiscoveredPath.t) :
  ∃ (aliasGroups : Map (list DiscoveredPath.t)) mappings suggestions warnings,
    generateMappings_from discovered =
      Ok {| PathMapperResult.mappings := mappings;
            PathMapperResult.discovered := discovered;
            PathMapperResult.suggestions := suggestions;
            PathMapperResult.warnings := warnings;
            PathMapperResult.errors := [] |}
    ∧ NoDup aliasGroups.*1
    ∧ (∀ k, k ∈ aliasGroups.*1 ↔ ∃ d, d ∈ discovered ∧ k = DiscoveredPath.alias d)
    ∧ dom mappings = list_to_set ((λ k, "@" +:+ k) <$> aliasGroups.*1).
Proof.
  forget_environment.
  unfold generateMappings_from.
  destruct (group_items_spec discovered []) as (g & -> & [Hnodup Hgroups] & Hkeys).
  { split; [constructor|]. intros k items Hin. inversion Hin. }
  simpl.
  destruct (process_groups_spec g ∅ [] [] Hgroups) as (m & sg & w & -> & Hdom).
  simpl. exists g, m, sg, w. split; [done|]. split; [done|]. split.
  - intros k. rewrite Hkeys. set_solver.
  - rewrite Hdom, dom_empty_L. set_solver.
Qed.

Global Instance at_prefix_inj : Inj (=) (=) (λ k : string, "@" +:+ k).
Proof. intros k1 k2 Heq. by injection Heq. Qed.

(** C2. For every discovered set, [generateMappings] returns a result (it is
    the result of the whole method whenever [discoverPaths] gives this set)
    that holds the set and whose [mappings] table has exactly the keys
    ["@" + alias] for the aliases of the set: every discovered alias is a key,
    every key is ["@"] followed by a discovered alias, and the table has as
    many entries as the set has distinct aliases. *)
Theorem generateMappings_keys (discovered : list DiscoveredPath.t) :
  ∃ result,
    generateMappings_from discovered = Ok result
    ∧ (discoverPaths = Ok discovered → generateMappings = Ok result)
    ∧ PathMapperResult.discovered result = discovered
    ∧ (∀ d, d ∈ discovered →
         is_Some (PathMapperResult.mappings result !! ("@" +:+ DiscoveredPath.alias d)))
    ∧ (∀ key, is_Some (PathMapperResult.mappings result !! key) →
         ∃ d, d ∈ discovered ∧ key = "@" +:+ DiscoveredPath.alias d)
    ∧ size (PathMapperResult.mappings result)
      = length (remove_dups (DiscoveredPath.alias <$> discovered)).
Proof.
  forget_environment.
  destruct (generateMappings_from_returns discovered)
    as (g & m & sg & w & Hresult & Hnodup & Hkeys & Hdom).
  eexists. split; [exact Hresult|]. simpl.
  split; [|split; [reflexivity|split; [|split]]].
  - intros Hdiscover. unfold generateMappings. by rewrite Hdiscover.
  - intros d Hd. apply elem_of_dom. rewrite Hdom.
    apply elem_of_list_to_set, list_elem_of_fmap.
    exists (DiscoveredPath.alias d). split; [done|]. apply Hkeys. eauto.
  - intros key Hkey. apply elem_of_dom in Hkey. rewrite Hdom in Hkey.
    apply elem_of_list_to_set, list_elem_of_fmap in Hkey as (k & -> & Hk).
    apply Hkeys in Hk as (d & Hd & ->). eauto.
  - rewrite <- (size_dom (D := gset string)), Hdom.
    rewrite size_list_to_set by (apply (NoDup_fmap_2 _), Hnodup).
    rewrite length_fmap. apply Permutation_length, NoDup_Permutation.
    + done.
    + apply NoDup_remove_dups.
    + intros k. rewrite Hkeys, elem_of_remove_dups, list_elem_of_fmap. naive_solver.
Qed.

(** Every warning of [generateMappings] names the contested alias twice. *)
Lemma process_groups_warnings (aliasGroups : Map (list DiscoveredPath.t))
    (mappings mappings' : PathMapping) (suggestions suggestions' warnings warnings' : list string) :
  (∀ k items, (k, items) ∈ aliasGroups →
     items ≠ [] ∧ ∀ x, x ∈ items → DiscoveredPath.alias x = k) →
  for_of aliasGroups process_group (mappings, suggestions, warnings) =
    Ok (mappings', suggestions', warnings') →
  Forall same_alias_warning warnings →
  Forall same_alias_warning warnings'.
Proof.
  forget_environment.
  revert mappings suggestions warnings.
  induction aliasGroups as [|[k items] aliasGroups IH];
    intros mappings suggestions warnings Hgroups Hloop Hwarnings.
  - simpl in Hloop. by simplify_eq.
  - destruct (Hgroups k items) as [Hne Hshared]; [set_solver|].
    cbn [for_of] in Hloop.
    assert (∀ k' items', (k', items') ∈ aliasGroups →
              items' ≠ [] ∧ ∀ x, x ∈ items' → DiscoveredPath.alias x = k') as Hrest.
    { intros k' items' Hin. apply Hgroups. set_solver. }
    destruct items as [|x [|y items]]; [done| |].
    + simpl in Hloop. eapply IH; [exact Hrest|exact Hloop|exact Hwarnings].
    + destruct (resolveAliasConflict_member k (x :: y :: items) Hne) as (w & Hin & Hresolve).
      unfold process_group in Hloop. rewrite Hresolve in Hloop. simpl in Hloop.
      rewrite (Hshared w Hin) in Hloop.
      eapply IH; [exact Hrest|exact Hloop|].
      apply Forall_app. split; [exact Hwarnings|].
      apply Forall_singleton. by eexists _, _.
Qed.

Lemma generateMappings_from_warnings (discovered : list DiscoveredPath.t)
    (result : PathMapperResult.t) :
  generateMappings_from discovered = Ok result →
  Forall same_alias_warning (PathMapperResult.warnings result).
Proof.
  forget_environment.
  unfold generateMappings_from.
  destruct (group_items_spec discovered []) as (g & -> & [Hnodup Hgroups] & Hkeys).
  { split; [constructor|]. intros k items Hin. inversion Hin. }
  simpl.
  destruct (for_of g process_group _) as [[[mappings suggestions] warnings]|e] eqn:Hloop;
    simpl; [|discriminate].
  intros [= <-]. simpl.
  eapply process_groups_warnings; [exact Hgroups|exact Hloop|constructor].
Qed.

Lemma generateMappings_from_errors_empty (discovered : list DiscoveredPath.t)
    (result : PathMapperResult.t) :
  generateMappings_from discovered = Ok result →
  PathMapperResult.errors result = [].
Proof.
  unfold generateMappings_from.
  destruct (for_of discovered group_item []) as [aliasGroups|e]; simpl; [|discriminate].
  destruct (for_of aliasGroups process_group _) as [[[mappings suggestions] warnings]|e];
    simpl; [|discriminate].
  by intros [= <-].
Qed.

(** C9. Every result of [generateMappings] has an empty [errors] list. *)
Theorem generateMappings_errors_empty (result : PathMapperResult.t) :
  generateMappings = Ok result →
  PathMapperResult.errors result = [].
Proof.
  unfold generateMappings.
  destruct discoverPaths as [discovered|e]; simpl; [|discriminate].
  apply generateMappings_from_errors_empty.
Qed.

(** ** Validation *)

Lemma no_error_filter (issues : list ValidationIssue.t) :
  length (filter (λ issue, ValidationIssue.type issue = error) issues) = 0%nat
  ↔ ∀ issue, issue ∈ issues → ValidationIssue.type issue ≠ error.
Proof.
  forget_environment.
  rewrite length_zero_iff_nil. split.
  - intros Hnil issue Hin Herror.
    assert (issue ∈ filter (λ issue, ValidationIssue.type issue = error) issues) as Hf
      by (by apply list_elem_of_filter).
    rewrite Hnil in Hf. inversion Hf.
  - intros Hall. induction issues as [|issue issues IH]; [done|].
    rewrite filter_cons_False by (apply Hall; set_solver).
    apply IH. intros issue' Hin. apply Hall. set_solver.
Qed.

Lemma validation_failed_invalid (configPath : string) (issues : list ValidationIssue.t)
    (thrown : string) :
  ¬ ∀ issue, issue ∈ ValidationResult.issues (validation_failed configPath issues thrown) →
             ValidationIssue.type issue ≠ error.
Proof.
  intros Hall.
  eapply Hall; [apply elem_of_app; right; by apply list_elem_of_singleton|reflexivity].
Qed.

(** C5. [validateExistingMappings] always returns a result, and in it
    [isValid] is true exactly when no issue of the returned list has the
    severity [error]; issues of severity [info] or [warning] do not count. *)
Theorem validateExistingMappings_isValid (tsConfigPath : option string) :
  ValidationResult.isValid (validateExistingMappings tsConfigPath) = true
  ↔ ∀ issue, issue ∈ ValidationResult.issues (validateExistingMappings tsConfigPath) →
             ValidationIssue.type issue ≠ error.
Proof.
  unfold validateExistingMappings.
  destruct (pathExists _); simpl.
  - destruct (readTsConfig _ ≫= _) as [entries|e].
    + destruct (validate_entries entries []) as [issues [[]|e]].
      * simpl. rewrite bool_decide_eq_true. apply no_error_filter.
      * split; [discriminate|]. intros H. by apply validation_failed_invalid in H.
    + split; [discriminate|]. intros H. by apply validation_failed_invalid in H.
  - split; [discriminate|]. intros Hall. exfalso.
    eapply Hall; [by apply list_elem_of_singleton|reflexivity].
Qed.

(** C8. When the configuration file is not there ([pathExists] answers
    false), the result has [isValid = false] and exactly one issue: an
    [error] with the message [tsconfig.json not found] for the targeted
    path. *)
Theorem validateExistingMappings_missing_config (tsConfigPath : option string) :
  pathExists (config_path tsConfigPath) = false →
  ValidationResult.isValid (validateExistingMappings tsConfigPath) = false
  ∧ ∃ issue,
      ValidationResult.issues (validateExistingMappings tsConfigPath) = [issue]
      ∧ ValidationIssue.type issue = error
      ∧ ValidationIssue.message issue = "tsconfig.json not found"
      ∧ ValidationIssue.path issue = Some (config_path tsConfigPath).
Proof.
  intros Hmissing. unfold validateExistingMappings. rewrite Hmissing. simpl.
  split; [reflexivity|]. eexists. split; [reflexivity|]. done.
Qed.

(** ** Updating the configuration *)

Lemma spread_of_mapping_idemp (newMappings : PathMapping) :
  spread (of_mapping newMappings) (of_mapping newMappings) = of_mapping newMappings.
Proof. unfold spread, of_mapping. simpl. by rewrite (idemp (∪)). Qed.

Lemma spread_spread (paths : value) (newMappings : PathMapping) :
  spread (spread paths (of_mapping newMappings)) (of_mapping newMappings)
  = spread paths (of_mapping newMappings).
Proof.
  unfold spread, of_mapping. simpl.
  by rewrite (assoc (∪)), (idemp (∪)).
Qed.

Lemma apply_mappings_document (isArray : bool) (props : gmap string value)
    (newMappings : PathMapping) (merge : bool) :
  config_document (VObj isArray props) = true →
  apply_mappings (VObj isArray props) newMappings merge
  = Ok (updated_document isArray props newMappings merge).
Proof.
  unfold config_document, apply_mappings, updated_document. simpl.
  destruct (props !! "compilerOptions") as [compilerOptions|] eqn:Hco; simpl.
  - destruct compilerOptions as [| |b|n|s|isArray' props']; simpl;
      try (intros Hfalsy; rewrite orb_false_r in Hfalsy; rewrite Hfalsy; simpl;
           rewrite lookup_insert_eq; simpl; destruct merge; simpl;
           rewrite ?lookup_empty; simpl;
           by rewrite insert_insert_eq, insert_empty);
      try (intros _; rewrite lookup_insert_eq; simpl; destruct merge; simpl;
           rewrite ?lookup_empty; simpl;
           by rewrite insert_insert_eq, insert_empty).
    intros _. rewrite Hco. simpl.
    destruct merge; simpl; [|done].
    by destruct (ToBoolean (default VUndefined (props' !! "paths"))).
  - intros _. rewrite lookup_insert_eq. simpl. destruct merge; simpl;
      rewrite ?lookup_empty; simpl; by rewrite insert_insert_eq, insert_empty.
Qed.

Lemma updated_document_config (isArray : bool) (props : gmap string value)
    (newMappings : PathMapping) (merge : bool) :
  ∃ isArray' props',
    updated_document isArray props newMappings merge
    = VObj isArray (<["compilerOptions" := VObj isArray' props']> props)
    ∧ ∃ paths, props' !! "paths" = Some paths ∧ is_object paths = true
       ∧ (merge = false → paths = of_mapping newMappings)
       ∧ spread paths (of_mapping newMappings) = paths.
Proof.
  unfold updated_document.
  destruct (default VUndefined (props !! "compilerOptions"))
    as [| |b|n|s|isArray' props'];
    try (eexists _, _; split; [reflexivity|];
         eexists; split; [apply lookup_insert_eq|]; split; [done|]; split; [done|];
         apply spread_of_mapping_idemp).
  eexists _, _. split; [reflexivity|].
  eexists. split; [apply lookup_insert_eq|].
  destruct merge; simpl.
  - destruct (ToBoolean (default VUndefined (props' !! "paths"))).
    + split; [done|]. split; [done|]. apply spread_spread.
    + split; [done|]. split; [done|]. apply spread_of_mapping_idemp.
  - split; [done|]. split; [done|]. apply spread_of_mapping_idemp.
Qed.

(** Outside the configuration documents there is no result. *)
Lemma apply_mappings_throws (config : value) (newMappings : PathMapping) (merge : bool) :
  config_document config = false →
  ∃ e, apply_mappings config newMappings merge = Throw e.
Proof.
  unfold config_document, apply_mappings.
  destruct config as [| |b|n|s|isArray props]; simpl; eauto.
  destruct (props !! "compilerOptions") as [compilerOptions|] eqn:Hco; simpl; [|done].
  destruct compilerOptions as [| |b|n|s|isArray' props']; simpl; try done;
    intros Htruthy; rewrite orb_false_r in Htruthy;
    apply negb_false_iff in Htruthy; simpl in Htruthy; rewrite Htruthy; simpl;
    rewrite Hco; simpl; destruct merge; simpl; eauto.
Qed.

(** [updateTsConfig] hands to [writeTsConfig] the document that
    [apply_mappings] builds from the one it read. *)
Lemma updateTsConfig_writes (newMappings : PathMapping) (tsConfigPath : option string)
    (merge : bool) (D D1 : value) :
  pathExists (config_path tsConfigPath) = true →
  read_json (config_path tsConfigPath) = Ok D →
  apply_mappings D newMappings merge = Ok D1 →
  write_json (config_path tsConfigPath) D1 = Ok () →
  updateTsConfig newMappings tsConfigPath merge = Ok (config_path tsConfigPath, D1).
Proof.
  intros Hexists Hread Happly Hwrite.
  unfold updateTsConfig, readTsConfig, writeTsConfig, try_catch.
  rewrite Hexists, Hread. simpl. rewrite Happly. simpl. by rewrite Hwrite.
Qed.

Lemma config_document_default : config_document default_config = true.
Proof. reflexivity. Qed.

(** C6. Merge idempotence: for every table [T] and every configuration
    document [D], applying [T] to [D] with [merge = true] gives a document
    [D1], and applying [T] with [merge = true] to [D1] gives [D1] again. *)
Theorem apply_mappings_merge_idempotent (D : value) (T : PathMapping) :
  config_document D = true →
  ∃ D1,
    apply_mappings D T true = Ok D1
    ∧ apply_mappings D1 T true = Ok D1.
Proof.
  intros Hdoc. destruct D as [| |b|n|s|isArray props]; try discriminate.
  rewrite (apply_mappings_document _ _ _ _ Hdoc).
  eexists. split; [reflexivity|].
  destruct (updated_document_config isArray props T true)
    as (isArray' & props' & -> & paths & Hpaths & Hobject & _ & Hspread).
  rewrite apply_mappings_document by (simpl; by rewrite lookup_insert_eq).
  f_equal. unfold updated_document.
  rewrite lookup_insert_eq. simpl. rewrite Hpaths. simpl.
  destruct paths; try discriminate. simpl. rewrite Hspread.
  rewrite insert_insert_eq. f_equal. f_equal. f_equal.
  by apply insert_id.
Qed.

(** C7. Replace semantics: for every table [T] and every configuration
    document [D], applying [T] with [merge = false] gives a document whose
    [compilerOptions.paths] is [T], whatever [D] held there before. *)
Theorem apply_mappings_replace (D : value) (T : PathMapping) :
  config_document D = true →
  ∃ D1,
    apply_mappings D T false = Ok D1
    ∧ paths_node D1 = Ok (of_mapping T).
Proof.
  intros Hdoc. destruct D as [| |b|n|s|isArray props]; try discriminate.
  rewrite (apply_mappings_document _ _ _ _ Hdoc).
  eexists. split; [reflexivity|].
  destruct (updated_document_config isArray props T false)
    as (isArray' & props' & -> & paths & Hpaths & _ & Hreplace & _).
  unfold paths_node. simpl. rewrite lookup_insert_eq. simpl.
  rewrite Hpaths. simpl. by rewrite Hreplace.
Qed.

(** * Further properties *)

(** ** Depth *)

Lemma split_length (sep : ascii) (s : string) :
  length (split sep s) = S (count_char sep s).
Proof.
  forget_environment.
  induction s as [|c rest IH]; [reflexivity|].
  cbn [split count_char]. destruct (decide (c = sep)) as [->|Hne].
  - simpl. by rewrite IH.
  - destruct (split sep rest) as [|hd tl]; simpl in *; lia.
Qed.

(** X1. The depth of a relative path is the number of separators in it; so it
    is never negative, and it is 0 exactly for a path without separator (the
    empty path too). *)
Theorem calculateDepth_counts_separators (relativePath : string) :
  calculateDepth relativePath = Z.of_nat (count_char path_sep relativePath)
  ∧ 0 ≤ calculateDepth relativePath
  ∧ (calculateDepth relativePath = 0 ↔ count_char path_sep relativePath = 0%nat).
Proof.
  unfold calculateDepth. rewrite split_length. lia.
Qed.

(** ** The alias of a file *)

Lemma alnum_not_space (c : ascii) : is_alnum c = true → is_space c = false.
Proof.
  forget_environment.
  destruct c as [[] [] [] [] [] [] [] []]; vm_compute; congruence.
Qed.

Lemma alnum_word (c : ascii) : is_alnum c = true → is_word c = true.
Proof. forget_environment. unfold is_word. by intros ->. Qed.

Lemma alnum_toUpperCase (c : ascii) : is_alnum c = true → is_alnum (toUpperCase c) = true.
Proof.
  forget_environment.
  destruct c as [[] [] [] [] [] [] [] []]; vm_compute; congruence.
Qed.

Lemma alnum_toLowerCase (c : ascii) :
  is_alnum c = true →
  is_alnum (toLowerCase c) = true
  ∧ (is_letter (toLowerCase c) = true → is_lower (toLowerCase c) = true).
Proof.
  forget_environment.
  destruct c as [[] [] [] [] [] [] [] []]; vm_compute; intuition congruence.
Qed.

Lemma space_is_space : is_space " " = true ∧ is_alnum " " = false.
Proof. forget_environment. by vm_compute. Qed.

Lemma all_chars_app (test : ascii → bool) (s t : string) :
  all_chars test (s +:+ t) = all_chars test s && all_chars test t.
Proof.
  forget_environment.
  induction s as [|c s IH]; [done|]. simpl. by rewrite IH, andb_assoc.
Qed.

Lemma string_app_cons (c : ascii) (s t : string) :
  String c s +:+ t = String c (s +:+ t).
Proof. reflexivity. Qed.

Lemma string_app_assoc (s t u : string) : (s +:+ t) +:+ u = s +:+ (t +:+ u).
Proof.
  forget_environment.
  induction s as [|c s IH]; [done|]. by rewrite !string_app_cons, IH.
Qed.

Lemma string_app_nil_r (s : string) : s +:+ EmptyString = s.
Proof.
  forget_environment.
  induction s as [|c s IH]; [done|]. by rewrite string_app_cons, IH.
Qed.

Lemma string_app_not_nil (s t : string) : t ≠ EmptyString → s +:+ t ≠ EmptyString.
Proof. forget_environment. destruct s; [done|]. by rewrite string_app_cons. Qed.

(** After the first replacement a name holds letters, digits and spaces. *)
Lemma replace_non_alnum_chars (name : string) :
  all_chars (λ c, is_alnum c || bool_decide (c = " "%char)) (replace_non_alnum name) = true.
Proof.
  forget_environment.
  induction name as [|c name IH]; [done|]. simpl. rewrite IH, andb_true_r.
  destruct (is_alnum c) eqn:Hc; [by rewrite Hc|done].
Qed.

(** The second replacement leaves letters and digits, then the spaces that no
    letter or digit follows. *)
Lemma replace_space_word_shape (pending s : string) :
  all_chars (λ c, bool_decide (c = " "%char)) pending = true →
  all_chars (λ c, is_alnum c || bool_decide (c = " "%char)) s = true →
  ∃ word spaces,
    replace_space_word pending s = word +:+ spaces
    ∧ all_chars is_alnum word = true
    ∧ all_chars (λ c, bool_decide (c = " "%char)) spaces = true.
Proof.
  forget_environment.
  revert pending. induction s as [|c s IH]; intros pending Hpending Hs.
  - exists EmptyString, pending. done.
  - simpl in Hs. apply andb_true_iff in Hs as [Hc Hs].
    apply orb_true_iff in Hc as [Hc|Hc].
    + cbn [replace_space_word].
      rewrite (alnum_not_space c Hc), (alnum_word c Hc).
      destruct (IH EmptyString eq_refl Hs) as (word & spaces & -> & Hword & Hspaces).
      eexists (String _ word), spaces. split; [reflexivity|]. split; [|done].
      simpl. rewrite Hword, andb_true_r.
      destruct (decide (pending = EmptyString)); [done|by apply alnum_toUpperCase].
    + apply bool_decide_eq_true in Hc as ->.
      cbn [replace_space_word]. rewrite (proj1 space_is_space).
      apply IH; [|done]. rewrite all_chars_app, Hpending. done.
Qed.

(** X2. The alias of a path with an extension starts with a lower-case ASCII
    letter, goes on with ASCII letters and digits, and ends with the spaces
    that stand for the characters of the name that no letter or digit
    follows (none for an ordinary name). *)
Theorem generateAlias_file_shape (filePath root : string) :
  ParsedPath.ext (path_parse (path_relative root filePath)) ≠ EmptyString →
  ∃ c word spaces,
    generateAlias filePath root = String c word +:+ spaces
    ∧ is_lower c = true
    ∧ all_chars is_alnum word = true
    ∧ all_chars (λ c, bool_decide (c = " "%char)) spaces = true.
Proof.
  intros Hext. unfold generateAlias. rewrite decide_False by done.
  destruct (replace_space_word_shape EmptyString
              (replace_non_alnum (ParsedPath.name (path_parse (path_relative root filePath))))
              eq_refl (replace_non_alnum_chars _))
    as (word & spaces & -> & Hword & Hspaces).
  destruct word as [|c0 word].
  - assert (replace_first_word (EmptyString +:+ spaces) = spaces
            ∧ starts_with_letter spaces = false) as [-> ->].
    { destruct spaces as [|c spaces]; [done|].
      simpl in Hspaces. apply andb_true_iff in Hspaces as [Hc _].
      apply bool_decide_eq_true in Hc as ->. done. }
    exists "p"%char, EmptyString, spaces. done.
  - simpl in Hword. apply andb_true_iff in Hword as [Hc0 Hword].
    rewrite string_app_cons. cbn [replace_first_word]. rewrite (alnum_word c0 Hc0).
    destruct (alnum_toLowerCase c0 Hc0) as [Halnum Hlower].
    cbn [starts_with_letter].
    destruct (is_letter (toLowerCase c0)) eqn:Hletter; cbn [negb].
    + exists (toLowerCase c0), word, spaces. rewrite string_app_cons. auto.
    + exists "p"%char, (String (toLowerCase c0) word), spaces.
      split; [reflexivity|]. split; [done|]. split; [|done].
      simpl. by rewrite Halnum, Hword.
Qed.

(** ** Camel case *)

Lemma replace_non_alnum_app (s t : string) :
  replace_non_alnum (s +:+ t) = replace_non_alnum s +:+ replace_non_alnum t.
Proof.
  forget_environment.
  induction s as [|c s IH]; [done|].
  rewrite string_app_cons. cbn [replace_non_alnum]. by rewrite IH, string_app_cons.
Qed.

Lemma replace_non_alnum_word (word : string) :
  all_chars is_alnum word = true → replace_non_alnum word = word.
Proof.
  forget_environment.
  induction word as [|c word IH]; [done|]. simpl.
  intros [Hc Hword]%andb_true_iff. by rewrite Hc, IH.
Qed.

Lemma replace_non_alnum_separator (separator : string) :
  is_name_separator separator = true →
  replace_non_alnum separator ≠ EmptyString
  ∧ all_chars (λ c, bool_decide (c = " "%char)) (replace_non_alnum separator) = true.
Proof.
  forget_environment.
  unfold is_name_separator. intros [Hne Hall]%andb_true_iff.
  split; [by destruct separator|]. clear Hne.
  induction separator as [|c separator IH]; [done|]. simpl in *.
  apply andb_true_iff in Hall as [Hc Hall]. apply negb_true_iff in Hc.
  rewrite Hc. simpl. by apply IH.
Qed.

Lemma replace_space_word_word (word rest : string) :
  all_chars is_alnum word = true →
  replace_space_word EmptyString (word +:+ rest) = word +:+ replace_space_word EmptyString rest.
Proof.
  forget_environment.
  induction word as [|c word IH]; [done|]. simpl.
  intros [Hc Hword]%andb_true_iff. rewrite !string_app_cons.
  cbn [replace_space_word]. rewrite (alnum_not_space c Hc), (alnum_word c Hc).
  by rewrite IH.
Qed.

Lemma replace_space_word_first (pending word rest : string) :
  is_name_word word = true →
  replace_space_word pending (word +:+ rest)
  = (if decide (pending = EmptyString) then word else capitalize word)
      +:+ replace_space_word EmptyString rest.
Proof.
  forget_environment.
  unfold is_name_word. intros [Hne Hword]%andb_true_iff.
  destruct word as [|c word]; [done|]. simpl in Hword.
  apply andb_true_iff in Hword as [Hc Hword].
  rewrite string_app_cons. cbn [replace_space_word].
  rewrite (alnum_not_space c Hc), (alnum_word c Hc), replace_space_word_word by done.
  by destruct (decide (pending = EmptyString)).
Qed.

Lemma replace_space_word_spaces (pending spaces rest : string) :
  all_chars (λ c, bool_decide (c = " "%char)) spaces = true →
  replace_space_word pending (spaces +:+ rest) = replace_space_word (pending +:+ spaces) rest.
Proof.
  forget_environment.
  revert pending. induction spaces as [|c spaces IH]; intros pending.
  - by rewrite string_app_nil_r.
  - cbn [all_chars]. intros [Hc Hspaces]%andb_true_iff.
    apply bool_decide_eq_true in Hc as ->.
    rewrite string_app_cons. cbn [replace_space_word]. rewrite (proj1 space_is_space).
    rewrite IH by done. by rewrite string_app_assoc.
Qed.

Lemma replace_space_word_separated (pending word : string) (more : list (string * string)) :
  is_name_word word = true →
  Forall (λ sw, is_name_separator sw.1 = true ∧ is_name_word sw.2 = true) more →
  replace_space_word pending (replace_non_alnum (separated word more))
  = (if decide (pending = EmptyString) then word else capitalize word)
      +:+ foldr String.append EmptyString (capitalize <$> more.*2).
Proof.
  forget_environment.
  intros Hword Hmore. revert pending word Hword.
  induction Hmore as [|[separator next] more [Hsep Hnext] Hmore IH];
    intros pending word Hword.
  - simpl. pose proof Hword as [_ Halnum]%andb_true_iff.
    rewrite (replace_non_alnum_word word Halnum).
    rewrite <- (string_app_nil_r word) at 1.
    by rewrite replace_space_word_first.
  - cbn [separated]. rewrite !replace_non_alnum_app.
    pose proof Hword as [_ Halnum]%andb_true_iff.
    rewrite (replace_non_alnum_word word Halnum), replace_space_word_first by done.
    destruct (replace_non_alnum_separator separator Hsep) as [Hne Hspaces].
    rewrite replace_space_word_spaces by done. rewrite IH by done.
    destruct (decide (EmptyString +:+ replace_non_alnum separator = EmptyString))
      as [Heq|_]; [by apply string_app_not_nil in Heq|reflexivity].
Qed.

(** X3. Camel case. When the name of a file is made of words (letters and
    digits) with separators between them (any other characters), and the
    first word starts with a letter, the alias is the first word with its
    first letter in lower case, followed by the other words, each with its
    first character in upper case. *)
Theorem generateAlias_camelCase (filePath root word : string) (more : list (string * string)) :
  ParsedPath.ext (path_parse (path_relative root filePath)) ≠ EmptyString →
  ParsedPath.name (path_parse (path_relative root filePath)) = separated word more →
  is_name_word word = true →
  starts_with_letter word = true →
  Forall (λ sw, is_name_separator sw.1 = true ∧ is_name_word sw.2 = true) more →
  generateAlias filePath root = camelCase word more.
Proof.
  intros Hext Hname Hword Hletter Hmore. unfold generateAlias.
  rewrite decide_False by done. rewrite Hname.
  rewrite (replace_space_word_separated EmptyString word more Hword Hmore).
  rewrite decide_True by done. unfold camelCase.
  destruct word as [|c word]; [done|].
  pose proof Hword as [_ Halnum]%andb_true_iff. simpl in Halnum.
  apply andb_true_iff in Halnum as [Hc _].
  rewrite string_app_cons. cbn [replace_first_word uncapitalize].
  rewrite (alnum_word c Hc). rewrite string_app_cons.
  cbn [starts_with_letter] in *.
  assert (is_letter (toLowerCase c) = true) as ->; [|done].
  clear -Hletter. destruct c as [[] [] [] [] [] [] [] []]; vm_compute in *; congruence.
Qed.

(** ** Discovery *)

(** X4. When both listers answer, discovery returns exactly one record per
    listed file and one per listed directory, in some order: the record of a
    path holds the path, its kind, its path relative to the root, the alias
    derived from it and the number of separators of the relative path. *)
Theorem discoverPaths_records (tsFiles directories : list string) :
  getTypeScriptFiles rootDir includePatterns excludePatterns = Ok tsFiles →
  getDirectoryStructure rootDir maxDepth = Ok directories →
  ∃ discovered,
    discoverPaths = Ok discovered
    ∧ discovered ≡ₚ
        ((λ p, {| DiscoveredPath.alias := generateAlias p rootDir;
                  DiscoveredPath.path := p;
                  DiscoveredPath.relativePath := path_relative rootDir p;
                  DiscoveredPath.type := file;
                  DiscoveredPath.depth :=
                    Z.of_nat (count_char path_sep (path_relative rootDir p)) |})
           <$> tsFiles)
        ++ ((λ p, {| DiscoveredPath.alias := generateAlias p rootDir;
                     DiscoveredPath.path := p;
                     DiscoveredPath.relativePath := path_relative rootDir p;
                     DiscoveredPath.type := directory;
                     DiscoveredPath.depth :=
                       Z.of_nat (count_char path_sep (path_relative rootDir p)) |})
              <$> directories).
Proof.
  intros Hfiles Hdirs. unfold discoverPaths. rewrite Hfiles, Hdirs. simpl.
  eexists. split; [reflexivity|].
  rewrite sort_Permutation.
  assert (∀ kind (l : list string),
            discovered_entry kind <$> l
            = (λ p, {| DiscoveredPath.alias := generateAlias p rootDir;
                       DiscoveredPath.path := p;
                       DiscoveredPath.relativePath := path_relative rootDir p;
                       DiscoveredPath.type := kind;
                       DiscoveredPath.depth :=
                         Z.of_nat (count_char path_sep (path_relative rootDir p)) |})
                <$> l) as Hfields.
  { intros kind l. apply list_fmap_ext. intros i p _.
    unfold discovered_entry, calculateDepth. rewrite split_length. f_equal. lia. }
  by rewrite !Hfields.
Qed.

(** X5. Discovery fails exactly when a lister fails, and then with the
    failure of the first lister that failed, wrapped: no partial result. *)
Theorem discoverPaths_fails (e : string) :
  discoverPaths = Throw e
  ↔ ∃ cause,
      e = "Error: Failed to discover paths: " +:+ cause
      ∧ (getTypeScriptFiles rootDir includePatterns excludePatterns = Throw cause
         ∨ (∃ tsFiles, getTypeScriptFiles rootDir includePatterns excludePatterns = Ok tsFiles)
           ∧ getDirectoryStructure rootDir maxDepth = Throw cause).
Proof.
  unfold discoverPaths, try_catch, Error.
  destruct (getTypeScriptFiles _ _ _) as [tsFiles|cause]; simpl.
  - destruct (getDirectoryStructure _ _) as [directories|cause]; simpl.
    + split; [discriminate|]. intros (cause & _ & [?|[_ ?]]); discriminate.
    + split.
      * intros [= <-]. exists cause. split; [done|]. right. eauto.
      * intros (cause' & -> & [?|[_ ?]]); [discriminate|]. by simplify_eq.
  - split.
    + intros [= <-]. exists cause. split; [done|]. by left.
    + intros (cause' & -> & [?|[[? ?] _]]); [|discriminate]. by simplify_eq.
Qed.

(** ** Grouping by alias *)

Lemma unique_snoc (l : list string) (x : string) :
  unique (l ++ [x]) = if bool_decide (x ∈ unique l) then unique l else unique l ++ [x].
Proof. forget_environment. unfold unique. by rewrite fold_left_app. Qed.

Lemma elem_of_unique (l : list string) (x : string) : x ∈ unique l ↔ x ∈ l.
Proof.
  forget_environment.
  induction l as [|y l IH] using rev_ind; [done|].
  rewrite unique_snoc. case_bool_decide as Hy; set_solver.
Qed.

Lemma NoDup_unique (l : list string) : NoDup (unique l).
Proof.
  forget_environment.
  induction l as [|y l IH] using rev_ind; [constructor|].
  rewrite unique_snoc. case_bool_decide as Hy; [done|].
  apply NoDup_app. split; [done|]. split; [set_solver|]. apply NoDup_singleton.
Qed.

Lemma for_of_app {A S : Type} (l1 l2 : list A) (body : A → S → outcome S) (s : S) :
  for_of (l1 ++ l2) body s = s' ← for_of l1 body s; for_of l2 body s'.
Proof.
  forget_environment.
  revert s. induction l1 as [|x l1 IH]; intros s; [done|].
  simpl. destruct (body x s) as [s1|e]; simpl; [apply IH|done].
Qed.

Lemma Map_set_new {V : Type} (m : Map V) (k : string) (v : V) :
  k ∉ m.*1 → Map_set m k v = m ++ [(k, v)].
Proof.
  forget_environment.
  induction m as [|[k' v'] m IH]; intros Hk; [done|].
  cbn [Map_set]. rewrite decide_False by set_solver.
  rewrite IH by set_solver. done.
Qed.

Lemma Map_set_last {V : Type} (m : Map V) (k : string) (v0 v : V) :
  k ∉ m.*1 → Map_set (m ++ [(k, v0)]) k v = m ++ [(k, v)].
Proof.
  forget_environment.
  induction m as [|[k' v'] m IH]; intros Hk.
  - simpl. by rewrite decide_True.
  - cbn [Map_set app]. rewrite decide_False by set_solver.
    rewrite IH by set_solver. done.
Qed.

Lemma Map_get_mapped {V : Type} (f : string → V) (l : list string) (k : string) :
  k ∈ l → Map_get ((λ k', (k', f k')) <$> l) k = Some (f k).
Proof.
  forget_environment.
  induction l as [|k' l IH]; intros Hk; [by apply elem_of_nil in Hk|].
  simpl. destruct (decide (k' = k)) as [->|Hne]; [done|].
  apply IH. set_solver.
Qed.

Lemma Map_set_mapped {V : Type} (f : string → V) (l : list string) (k : string) (v : V) :
  NoDup l → k ∈ l →
  Map_set ((λ k', (k', f k')) <$> l) k v
  = (λ k', (k', if decide (k' = k) then v else f k')) <$> l.
Proof.
  forget_environment.
  induction l as [|k' l IH]; intros Hnodup Hk; [by apply elem_of_nil in Hk|].
  apply NoDup_cons in Hnodup as [Hk' Hnodup].
  simpl. destruct (decide (k' = k)) as [->|Hne].
  - f_equal. apply list_fmap_ext. intros i k'' Hi.
    rewrite decide_False; [done|]. intros ->.
    apply Hk'. by eapply list_elem_of_lookup_2.
  - f_equal. apply IH; [done|set_solver].
Qed.

Lemma groups_of_keys (discovered : list DiscoveredPath.t) :
  (groups_of discovered).*1 = unique (DiscoveredPath.alias <$> discovered).
Proof.
  forget_environment.
  unfold groups_of. rewrite <- list_fmap_compose. apply list_fmap_id.
Qed.

Lemma filter_alias_nil (discovered : list DiscoveredPath.t) (k : string) :
  k ∉ DiscoveredPath.alias <$> discovered →
  filter (λ x, DiscoveredPath.alias x = k) discovered = [].
Proof.
  forget_environment.
  induction discovered as [|d discovered IH]; intros Hk; [done|].
  rewrite filter_cons_False by set_solver. apply IH. set_solver.
Qed.

(** The first loop of [generateMappings] builds the alias groups, and never
    throws. *)
Lemma group_items_exact (discovered : list DiscoveredPath.t) :
  for_of discovered group_item [] = Ok (groups_of discovered).
Proof.
  forget_environment.
  induction discovered as [|d discovered IH] using rev_ind; [done|].
  rewrite for_of_app, IH. simpl.
  unfold group_item, Map_has. rewrite groups_of_keys.
  set (k := DiscoveredPath.alias d).
  set (keys := unique (DiscoveredPath.alias <$> discovered)).
  assert (unique (DiscoveredPath.alias <$> discovered ++ [d])
          = if bool_decide (k ∈ keys) then keys else keys ++ [k]) as Hkeys.
  { rewrite fmap_app. apply unique_snoc. }
  assert (∀ k', k' ≠ k →
            filter (λ x, DiscoveredPath.alias x = k') (discovered ++ [d])
            = filter (λ x, DiscoveredPath.alias x = k') discovered) as Hother.
  { intros k' Hne. rewrite filter_app, filter_cons_False, filter_nil by done.
    apply app_nil_r. }
  assert (filter (λ x, DiscoveredPath.alias x = k) (discovered ++ [d])
          = filter (λ x, DiscoveredPath.alias x = k) discovered ++ [d]) as Hsame.
  { by rewrite filter_app, filter_cons_True, filter_nil. }
  assert (groups_of (discovered ++ [d])
          = (λ k', (k', filter (λ x, DiscoveredPath.alias x = k') (discovered ++ [d])))
              <$> (if bool_decide (k ∈ keys) then keys else keys ++ [k])) as ->.
  { unfold groups_of. by rewrite Hkeys. }
  case_bool_decide as Hk; simpl.
  - unfold Map_push, groups_of. fold keys. rewrite Map_get_mapped by done.
    simpl. f_equal. rewrite Map_set_mapped by (done || apply NoDup_unique).
    apply list_fmap_ext. intros i k' Hi.
    destruct (decide (k' = k)) as [->|Hne]; [by rewrite Hsame|by rewrite Hother].
  - assert (k ∉ (groups_of discovered).*1) as Hnew by (by rewrite groups_of_keys).
    rewrite (Map_set_new _ _ _ Hnew). unfold Map_push.
    assert (Map_get (groups_of discovered ++ [(k, [])]) k = Some []) as ->.
    { rewrite <- (Map_set_new _ _ _ Hnew). apply Map_get_set_new. }
    rewrite (Map_set_last _ _ _ _ Hnew). simpl. f_equal.
    rewrite fmap_app. simpl. rewrite Hsame. f_equal.
    + apply list_fmap_ext. intros i k' Hi. rewrite Hother; [done|].
      intros ->. apply Hk. by eapply list_elem_of_lookup_2.
    + do 2 f_equal.
      rewrite filter_alias_nil; [done|].
      intros Hin. apply Hk. by apply elem_of_unique.
Qed.

(** ** What [generateMappings] returns *)

Lemma resolveAliasConflict_singleton (alias : string) (item : DiscoveredPath.t) :
  resolveAliasConflict alias [item]
  = Ok {| Resolved.alias := DiscoveredPath.alias item;
          Resolved.path := DiscoveredPath.relativePath item |}.
Proof.
  forget_environment.
  unfold resolveAliasConflict. rewrite !filter_cons, !filter_nil.
  destruct (DiscoveredPath.type item); reflexivity.
Qed.

Lemma groups_of_elem (discovered : list DiscoveredPath.t) (k : string)
    (items : list DiscoveredPath.t) :
  (k, items) ∈ groups_of discovered
  ↔ k ∈ DiscoveredPath.alias <$> discovered
    ∧ items = filter (λ d, DiscoveredPath.alias d = k) discovered.
Proof.
  forget_environment.
  unfold groups_of. split.
  - intros (k' & Heq & Hk)%list_elem_of_fmap. injection Heq as -> ->.
    split; [by apply elem_of_unique|done].
  - intros [Hk ->]. apply list_elem_of_fmap. exists k.
    split; [done|by apply elem_of_unique].
Qed.

Lemma groups_of_invariant (discovered : list DiscoveredPath.t) (k : string)
    (items : list DiscoveredPath.t) :
  (k, items) ∈ groups_of discovered →
  items ≠ [] ∧ ∀ x, x ∈ items → DiscoveredPath.alias x = k.
Proof.
  forget_environment.
  intros [Hk ->]%groups_of_elem. split.
  - apply list_elem_of_fmap in Hk as (d & -> & Hd).
    intros Hnil.
    assert (d ∈ filter (λ d', DiscoveredPath.alias d' = DiscoveredPath.alias d) discovered)
      as Hin by (by apply list_elem_of_filter).
    rewrite Hnil in Hin. by apply elem_of_nil in Hin.
  - intros x Hx. by apply list_elem_of_filter in Hx as [? _].
Qed.

(** One turn of the second loop. *)
Lemma process_group_step (k : string) (items : list DiscoveredPath.t)
    (mappings : PathMapping) (suggestions warnings : list string) :
  items ≠ [] →
  (∀ x, x ∈ items → DiscoveredPath.alias x = k) →
  ∃ resolved pushed_suggestions pushed_warnings,
    resolveAliasConflict k items = Ok resolved
    ∧ Resolved.alias resolved = k
    ∧ process_group (k, items) (mappings, suggestions, warnings)
      = Ok (<["@" +:+ k := Resolved.path resolved]> mappings,
            suggestions ++ pushed_suggestions,
            warnings ++ pushed_warnings)
    ∧ (∀ x, x ∈ pushed_suggestions ↔
            ∃ item, items = [item] ∧ 2 < DiscoveredPath.depth item
                    ∧ x = deep_path_suggestion item)
    ∧ (∀ x, x ∈ pushed_warnings ↔
            (1 < length items)%nat ∧ x = conflict_warning k resolved)
    ∧ length pushed_warnings = (if bool_decide (1 < length items)%nat then 1 else 0)%nat.
Proof.
  forget_environment.
  intros Hne Hshared.
  destruct items as [|item [|item' items]]; [done| |].
  - eexists _, (if bool_decide (2 < DiscoveredPath.depth item)
                then [deep_path_suggestion item] else []), [].
    split; [apply resolveAliasConflict_singleton|].
    split; [apply Hshared; set_solver|].
    split; [|split; [|split]].
    + simpl. rewrite app_nil_r. by case_bool_decide; rewrite ?app_nil_r.
    + intros x. case_bool_decide as Hdeep.
      * rewrite list_elem_of_singleton. split; [intros ->; eauto|].
        by intros (item0 & [= <-] & _ & ->).
      * split; [by intros ?%elem_of_nil|].
        by intros (item0 & [= <-] & ? & _).
    + intros x. simpl. split; [by intros ?%elem_of_nil|]. intros [? _]. lia.
    + done.
  - destruct (resolveAliasConflict_member k (item :: item' :: items) Hne)
      as (winner & Hin & Hresolve).
    set (resolved := {| Resolved.alias := DiscoveredPath.alias winner;
                        Resolved.path := DiscoveredPath.relativePath winner |}) in *.
    exists resolved, [], [conflict_warning k resolved].
    split; [exact Hresolve|]. split; [by apply Hshared|].
    split; [|split; [|split]].
    + unfold process_group. rewrite Hresolve. simpl.
      unfold conflict_warning. simpl.
      rewrite (Hshared winner Hin), app_nil_r. done.
    + intros x. split; [by intros ?%elem_of_nil|]. by intros (? & ? & _).
    + intros x. rewrite list_elem_of_singleton. simpl. split; [intros ->; split; [lia|done]|].
      by intros [_ ->].
    + done.
Qed.

(** The second loop over groups with distinct keys. *)
Lemma process_groups_exact (aliasGroups : list (string * list DiscoveredPath.t))
    (mappings : PathMapping) (suggestions warnings : list string) :
  NoDup aliasGroups.*1 →
  (∀ k items, (k, items) ∈ aliasGroups →
     items ≠ [] ∧ ∀ x, x ∈ items → DiscoveredPath.alias x = k) →
  ∃ mappings' suggestions' warnings',
    for_of aliasGroups process_group (mappings, suggestions, warnings)
    = Ok (mappings', suggestions', warnings')
    ∧ (∀ k items, (k, items) ∈ aliasGroups →
         ∃ resolved, resolveAliasConflict k items = Ok resolved
                     ∧ mappings' !! ("@" +:+ k) = Some (Resolved.path resolved))
    ∧ (∀ key, (∀ k, k ∈ aliasGroups.*1 → key ≠ "@" +:+ k) →
              mappings' !! key = mappings !! key)
    ∧ (∀ x, x ∈ suggestions' ↔
            x ∈ suggestions
            ∨ ∃ k item, (k, [item]) ∈ aliasGroups ∧ 2 < DiscoveredPath.depth item
                        ∧ x = deep_path_suggestion item)
    ∧ (∀ x, x ∈ warnings' ↔
            x ∈ warnings
            ∨ ∃ k items resolved,
                (k, items) ∈ aliasGroups ∧ (1 < length items)%nat
                ∧ resolveAliasConflict k items = Ok resolved
                ∧ x = conflict_warning k resolved)
    ∧ length warnings'
      = (length warnings
         + length (filter (λ group, 1 < length group.2)%nat aliasGroups))%nat.
Proof.
  forget_environment.
  revert mappings suggestions warnings.
  induction aliasGroups as [|[k items] aliasGroups IH];
    intros mappings suggestions warnings Hnodup Hgroups.
  - exists mappings, suggestions, warnings. split; [done|].
    split; [by intros ? ? ?%elem_of_nil|]. split; [done|].
    split; [intros x; split; [by left|intros [?|(? & ? & ?%elem_of_nil & _)]; done]|].
    split; [|simpl; lia].
    intros x; split; [by left|intros [?|(? & ? & ? & ?%elem_of_nil & _)]; done].
  - rewrite fmap_cons in Hnodup. apply NoDup_cons in Hnodup as [Hk Hnodup].
    destruct (Hgroups k items) as [Hne Hshared]; [left|].
    destruct (process_group_step k items mappings suggestions warnings Hne Hshared)
      as (r & s1 & w1 & Hresolve & Halias & Hstep & Hs1 & Hw1 & Hlen1).
    destruct (IH (<["@" +:+ k := Resolved.path r]> mappings) (suggestions ++ s1)
                (warnings ++ w1) Hnodup)
      as (m2 & s2 & w2 & Hloop & Htargets & Hothers & Hs2 & Hw2 & Hlen2).
    { intros k' items' Hin. apply Hgroups. by right. }
    exists m2, s2, w2.
    split; [cbn [for_of]; rewrite Hstep; exact Hloop|].
    split; [|split; [|split; [|split]]].
    + intros k' items' [[= -> ->]|Hin]%elem_of_cons.
      * exists r. split; [done|]. rewrite Hothers; [apply lookup_insert_eq|].
        intros k' Hk' Heq. apply (inj _) in Heq as ->. done.
      * by apply Htargets.
    + intros key Hkey. rewrite Hothers.
      * apply lookup_insert_ne. intros Heq. by eapply (Hkey k); [left|].
      * intros k' Hk'. apply Hkey. by right.
    + intros x. rewrite Hs2, elem_of_app, Hs1. split.
      * intros [[?|(item & -> & ? & ->)]|(k' & item & Hin & ? & ->)]; [by left| |].
        -- right. exists k, item. split; [left|done].
        -- right. exists k', item. split; [by right|done].
      * intros [?|(k' & item & [[= -> <-]|Hin]%elem_of_cons & ? & ->)]; [by left; left| |].
        -- left. right. eauto.
        -- right. eauto.
    + intros x. rewrite Hw2, elem_of_app, Hw1. split.
      * intros [[?|[? ->]]|(k' & items' & r' & Hin & ? & ? & ->)]; [by left| |].
        -- right. exists k, items, r. split; [left|done].
        -- right. exists k', items', r'. split; [by right|done].
      * intros [?|(k' & items' & r' & [[= -> ->]|Hin]%elem_of_cons & ? & Hr' & ->)];
          [by left; left| |].
        -- left. right. rewrite Hresolve in Hr'. by simplify_eq.
        -- right. exists k', items', r'. done.
    + rewrite Hlen2, length_app, Hlen1, filter_cons. cbn [snd].
      case_bool_decide; destruct (decide (1 < length items)%nat); simpl; lia.
Qed.

(** The pair returned for a non-empty group, with the place of its record in
    the group. *)
Lemma resolveAliasConflict_winner (alias : string) (items : list DiscoveredPath.t) :
  items ≠ [] →
  ∃ before winner after,
    items = before ++ winner :: after
    ∧ resolveAliasConflict alias items =
        Ok {| Resolved.alias := DiscoveredPath.alias winner;
              Resolved.path := DiscoveredPath.relativePath winner |}
    ∧ (∀ x, x ∈ items → DiscoveredPath.type x = file → DiscoveredPath.type winner = file)
    ∧ (∀ x, x ∈ before → DiscoveredPath.type x = DiscoveredPath.type winner →
            (path_length winner < path_length x)%nat)
    ∧ (∀ x, x ∈ after → DiscoveredPath.type x = DiscoveredPath.type winner →
            (path_length winner ≤ path_length x)%nat).
Proof.
  forget_environment.
  intros Hne.
  destruct (decide (filter (λ item, DiscoveredPath.type item = file) items = []))
    as [Hfiles|Hfiles].
  - destruct (reduce_shorter_of_kind directory items)
      as (before & w & after & Hsplit & Hreduce & Hkind & Hbefore & Hafter).
    { by rewrite (filter_kind_nil _ Hfiles). }
    exists before, w, after.
    rewrite resolveAliasConflict_directories, Hreduce by done.
    rewrite Hkind. repeat split; try done.
    intros x Hx Hfile. exfalso.
    assert (x ∈ filter (λ item, DiscoveredPath.type item = file) items) as Hin
      by (by apply list_elem_of_filter).
    rewrite Hfiles in Hin. inversion Hin.
  - destruct (reduce_shorter_of_kind file items Hfiles)
      as (before & w & after & Hsplit & Hreduce & Hkind & Hbefore & Hafter).
    exists before, w, after.
    rewrite resolveAliasConflict_files, Hreduce by done.
    rewrite Hkind. repeat split; done.
Qed.

Lemma filter_mapped {A B : Type} (P : B → Prop) `{!∀ y, Decision (P y)}
    (f : A → B) (l : list A) :
  filter P (f <$> l) = f <$> filter (λ x, P (f x)) l.
Proof.
  forget_environment.
  induction l as [|x l IH]; [done|].
  rewrite fmap_cons, !filter_cons.
  destruct (decide (P (f x))); [rewrite fmap_cons|]; by rewrite IH.
Qed.

Lemma filter_alias_length (discovered : list DiscoveredPath.t) (k : string) :
  (0 < length (filter (λ x, DiscoveredPath.alias x = k) discovered))%nat →
  k ∈ DiscoveredPath.alias <$> discovered.
Proof.
  forget_environment.
  intros Hlen. destruct (decide (k ∈ DiscoveredPath.alias <$> discovered)) as [|Hk]; [done|].
  rewrite (filter_alias_nil _ _ Hk) in Hlen. simpl in Hlen. lia.
Qed.

(** An alias is contested when two records or more have it. *)
Lemma NoDup_alias (discovered : list DiscoveredPath.t) :
  NoDup (DiscoveredPath.alias <$> discovered)
  ↔ ∀ k, (length (filter (λ x, DiscoveredPath.alias x = k) discovered) ≤ 1)%nat.
Proof.
  forget_environment.
  induction discovered as [|d discovered IH].
  - split; [intros _ k; simpl; lia|intros _; constructor].
  - rewrite fmap_cons, NoDup_cons, IH. split.
    + intros [Hd Hrest] k. rewrite filter_cons.
      destruct (decide (DiscoveredPath.alias d = k)) as [<-|Hne]; [|apply Hrest].
      by rewrite (filter_alias_nil _ _ Hd).
    + intros Hall. split.
      * intros Hd. apply list_elem_of_fmap in Hd as (d' & Heq & Hd').
        specialize (Hall (DiscoveredPath.alias d)).
        rewrite filter_cons_True in Hall by done.
        assert (d' ∈ filter (λ x, DiscoveredPath.alias x = DiscoveredPath.alias d) discovered)
          as Hin by (by apply list_elem_of_filter).
        destruct (filter _ discovered); [by apply elem_of_nil in Hin|].
        simpl in Hall. lia.
      * intros k. specialize (Hall k). rewrite filter_cons in Hall.
        destruct (decide (DiscoveredPath.alias d = k)); simpl in Hall; lia.
Qed.

(** The whole of [generateMappings_from], through the alias groups. *)
Lemma generateMappings_from_exact (discovered : list DiscoveredPath.t) :
  ∃ mappings suggestions warnings,
    generateMappings_from discovered =
      Ok {| PathMapperResult.mappings := mappings;
            PathMapperResult.discovered := discovered;
            PathMapperResult.suggestions := suggestions;
            PathMapperResult.warnings := warnings;
            PathMapperResult.errors := [] |}
    ∧ (∀ k, k ∈ DiscoveredPath.alias <$> discovered →
         ∃ resolved,
           resolveAliasConflict k (filter (λ d, DiscoveredPath.alias d = k) discovered)
           = Ok resolved
           ∧ mappings !! ("@" +:+ k) = Some (Resolved.path resolved))
    ∧ (∀ x, x ∈ suggestions ↔
            ∃ item, filter (λ d, DiscoveredPath.alias d = DiscoveredPath.alias item) discovered
                    = [item]
                    ∧ 2 < DiscoveredPath.depth item
                    ∧ x = deep_path_suggestion item)
    ∧ (∀ x, x ∈ warnings ↔
            ∃ k resolved,
              (1 < length (filter (λ d, DiscoveredPath.alias d = k) discovered))%nat
              ∧ resolveAliasConflict k (filter (λ d, DiscoveredPath.alias d = k) discovered)
                = Ok resolved
              ∧ x = conflict_warning k resolved)
    ∧ length warnings
      = length (filter (λ k, 1 < length (filter (λ d, DiscoveredPath.alias d = k) discovered))%nat
                  (unique (DiscoveredPath.alias <$> discovered))).
Proof.
  forget_environment.
  unfold generateMappings_from. rewrite group_items_exact. simpl.
  destruct (process_groups_exact (groups_of discovered) ∅ [] [])
    as (m & s & w & -> & Htargets & _ & Hs & Hw & Hlen).
  { rewrite groups_of_keys. apply NoDup_unique. }
  { apply groups_of_invariant. }
  simpl. exists m, s, w. split; [done|]. split; [|split; [|split]].
  - intros k Hk. apply Htargets. by apply groups_of_elem.
  - intros x. rewrite Hs. split.
    + intros [?%elem_of_nil|(k & item & [Hk Hitems]%groups_of_elem & Hdeep & ->)]; [done|].
      exists item. split; [|done].
      assert (item ∈ filter (λ d, DiscoveredPath.alias d = k) discovered) as Hin.
      { rewrite <- Hitems. by apply list_elem_of_singleton. }
      apply list_elem_of_filter in Hin as [-> _]. done.
    + intros (item & Hitems & Hdeep & ->). right.
      exists (DiscoveredPath.alias item), item. split; [|done].
      apply groups_of_elem. split; [|done].
      apply filter_alias_length. rewrite Hitems. simpl. lia.
  - intros x. rewrite Hw. split.
    + intros [?%elem_of_nil|(k & items & r & [Hk ->]%groups_of_elem & Hlong & Hr & ->)];
        [done|].
      by exists k, r.
    + intros (k & r & Hlong & Hr & ->). right.
      exists k, (filter (λ d, DiscoveredPath.alias d = k) discovered), r.
      split; [|done]. apply groups_of_elem. split; [|done].
      apply filter_alias_length. lia.
  - rewrite Hlen. simpl. unfold groups_of.
    rewrite (filter_mapped (λ group, 1 < length group.2)%nat). by rewrite length_fmap.
Qed.

(** X6. In the table that [generateMappings] builds, the entry of a discovered
    alias is the relative path of one record that has this alias: a file if
    any file has the alias, and among the records of its kind that have the
    alias one whose relative path is shortest, the first such in the order of
    discovery.  A directory is mapped only when no file has its alias. *)
Theorem generateMappings_from_prefers_files (discovered : list DiscoveredPath.t)
    (d : DiscoveredPath.t) :
  d ∈ discovered →
  ∃ result before winner after,
    generateMappings_from discovered = Ok result
    ∧ discovered = before ++ winner :: after
    ∧ DiscoveredPath.alias winner = DiscoveredPath.alias d
    ∧ PathMapperResult.mappings result !! ("@" +:+ DiscoveredPath.alias d)
      = Some (DiscoveredPath.relativePath winner)
    ∧ (∀ x, x ∈ discovered → DiscoveredPath.alias x = DiscoveredPath.alias d →
            DiscoveredPath.type x = file → DiscoveredPath.type winner = file)
    ∧ (∀ x, x ∈ before → DiscoveredPath.alias x = DiscoveredPath.alias d →
            DiscoveredPath.type x = DiscoveredPath.type winner →
            (path_length winner < path_length x)%nat)
    ∧ (∀ x, x ∈ after → DiscoveredPath.alias x = DiscoveredPath.alias d →
            DiscoveredPath.type x = DiscoveredPath.type winner →
            (path_length winner ≤ path_length x)%nat).
Proof.
  forget_environment.
  intros Hd.
  destruct (generateMappings_from_exact discovered)
    as (m & s & w & Hresult & Htargets & _).
  set (k := DiscoveredPath.alias d).
  assert (k ∈ DiscoveredPath.alias <$> discovered) as Hk.
  { apply list_elem_of_fmap. by exists d. }
  destruct (Htargets k Hk) as (r & Hr & Hlookup).
  assert (filter (λ x, DiscoveredPath.alias x = k) discovered ≠ []) as Hne.
  { intros Hnil.
    assert (d ∈ filter (λ x, DiscoveredPath.alias x = k) discovered) as Hin
      by (by apply list_elem_of_filter).
    rewrite Hnil in Hin. by apply elem_of_nil in Hin. }
  destruct (resolveAliasConflict_winner k _ Hne)
    as (f1 & winner & f2 & Hsplit & Hwinner & Hfile & Hbefore & Hafter).
  destruct (filter_split _ _ _ _ _ Hsplit) as (before & after & Hdiscovered & Hf1 & Hf2).
  rewrite Hwinner in Hr. injection Hr as <-.
  eexists _, before, winner, after. split; [exact Hresult|]. simpl.
  split; [done|].
  assert (winner ∈ filter (λ x, DiscoveredPath.alias x = k) discovered) as Hin.
  { rewrite Hsplit. set_solver. }
  apply list_elem_of_filter in Hin as [Halias _].
  split; [done|]. split; [done|]. split; [|split].
  - intros x Hx Hxk. apply Hfile. by apply list_elem_of_filter.
  - intros x Hx Hxk. apply Hbefore. rewrite <- Hf1. by apply list_elem_of_filter.
  - intros x Hx Hxk. apply Hafter. rewrite <- Hf2. by apply list_elem_of_filter.
Qed.

(** X7. [generateMappings] pushes a warning for each alias that two records or
    more have, and no other warning: the warning names the alias and the
    relative path chosen for it, and there are as many warnings as there are
    such aliases.  There is no warning exactly when the discovered aliases
    are pairwise distinct. *)
Theorem generateMappings_from_warnings_exact (discovered : list DiscoveredPath.t) :
  ∃ result,
    generateMappings_from discovered = Ok result
    ∧ (∀ x, x ∈ PathMapperResult.warnings result ↔
            ∃ k resolved,
              (1 < length (filter (λ d, DiscoveredPath.alias d = k) discovered))%nat
              ∧ resolveAliasConflict k (filter (λ d, DiscoveredPath.alias d = k) discovered)
                = Ok resolved
              ∧ x = conflict_warning k resolved)
    ∧ length (PathMapperResult.warnings result)
      = length (filter (λ k, 1 < length (filter (λ d, DiscoveredPath.alias d = k) discovered))%nat
                  (unique (DiscoveredPath.alias <$> discovered)))
    ∧ (PathMapperResult.warnings result = [] ↔ NoDup (DiscoveredPath.alias <$> discovered)).
Proof.
  forget_environment.
  destruct (generateMappings_from_exact discovered)
    as (m & s & w & Hresult & _ & _ & Hw & Hlen).
  eexists. split; [exact Hresult|]. simpl. split; [exact Hw|]. split; [exact Hlen|].
  rewrite NoDup_alias. split.
  - intros -> k.
    destruct (decide (1 < length (filter (λ d, DiscoveredPath.alias d = k) discovered))%nat)
      as [Hlong|]; [|lia].
    destruct (resolveAliasConflict_member k
                (filter (λ d, DiscoveredPath.alias d = k) discovered))
      as (winner & _ & Hr).
    { intros Hnil. rewrite Hnil in Hlong. simpl in Hlong. lia. }
    assert (conflict_warning k {| Resolved.alias := DiscoveredPath.alias winner;
                                  Resolved.path := DiscoveredPath.relativePath winner |}
            ∈ @nil string) as Hin by (apply Hw; eauto).
    by apply elem_of_nil in Hin.
  - intros Hall. destruct w as [|x w]; [done|].
    destruct (proj1 (Hw x)) as (k & _ & Hlong & _); [left|].
    specialize (Hall k). lia.
Qed.

(** X8. [generateMappings] suggests a shorter alias exactly for the records
    that are alone with their alias and lie deeper than two levels; a record
    whose alias is contested gets no suggestion, however deep it lies. *)
Theorem generateMappings_from_suggestions_exact (discovered : list DiscoveredPath.t) :
  ∃ result,
    generateMappings_from discovered = Ok result
    ∧ ∀ x, x ∈ PathMapperResult.suggestions result ↔
           ∃ item,
             filter (λ d, DiscoveredPath.alias d = DiscoveredPath.alias item) discovered
             = [item]
             ∧ 2 < DiscoveredPath.depth item
             ∧ x = deep_path_suggestion item.
Proof.
  forget_environment.
  destruct (generateMappings_from_exact discovered)
    as (m & s & w & Hresult & _ & Hs & _).
  eexists. split; [exact Hresult|]. exact Hs.
Qed.

(** X9. [generateMappings] fails exactly when discovery fails, and with the
    same exception: grouping and conflict resolution never throw on what
    discovery returns. *)
Theorem generateMappings_fails (e : string) :
  generateMappings = Throw e ↔ discoverPaths = Throw e.
Proof.
  clear path_join3 write_json read_json existsSync fs_access path_resolve path_join
    number_truthy.
  unfold generateMappings.
  destruct discoverPaths as [discovered|e']; simpl; [|split; by intros [= ->]].
  destruct (generateMappings_from_exact discovered) as (m & s & w & -> & _).
  split; discriminate.
Qed.

(** ** Shorter paths to the same place *)

(** A record that [findBetterMapping] accepts for [currentPath]. *)
Definition better_than (currentPath : string) (item : DiscoveredPath.t) : Prop :=
  path_resolve rootDir (DiscoveredPath.relativePath item) = path_resolve rootDir currentPath
  ∧ (path_length item < String.length currentPath)%nat.

#[local] Instance better_than_dec (currentPath : string) (item : DiscoveredPath.t) :
  Decision (better_than currentPath item).
Proof. unfold better_than. apply _. Defined.

Lemma findBetterMapping_cons (alias currentPath : string) (item : DiscoveredPath.t)
    (discovered : list DiscoveredPath.t) :
  findBetterMapping alias currentPath (item :: discovered)
  = if decide (better_than currentPath item)
    then Some (DiscoveredPath.relativePath item)
    else findBetterMapping alias currentPath discovered.
Proof.
  clear path_join3 write_json read_json existsSync fs_access path_join number_truthy.
  unfold findBetterMapping at 1.
  destruct (decide _) as [[Hsame Hshort]|Hno].
  - by rewrite !bool_decide_eq_true_2.
  - destruct (bool_decide (path_resolve rootDir _ = _)) eqn:H1;
      destruct (bool_decide (_ < _)%nat) eqn:H2; try reflexivity.
    exfalso. apply Hno. split.
    + by apply bool_decide_eq_true in H1.
    + by apply bool_decide_eq_true in H2.
Qed.

Lemma findBetterMapping_Some (alias currentPath better : string)
    (discovered : list DiscoveredPath.t) :
  findBetterMapping alias currentPath discovered = Some better →
  ∃ item, item ∈ discovered ∧ better = DiscoveredPath.relativePath item
          ∧ better_than currentPath item.
Proof.
  clear path_join3 write_json read_json existsSync fs_access path_join number_truthy.
  induction discovered as [|item discovered IH]; [discriminate|].
  rewrite findBetterMapping_cons. destruct (decide _) as [Hbetter|_].
  - intros [= <-]. exists item. split; [left|done].
  - intros (item' & Hin & Heq)%IH. exists item'. split; [by right|done].
Qed.

(** X10. [findBetterMapping] returns the relative path of the first
    discovered record that resolves to the same place as [currentPath] and is
    strictly shorter than it, and [null] when no discovered record does; the
    alias it is given plays no part. *)
Theorem findBetterMapping_first_shorter (alias currentPath : string)
    (discovered : list DiscoveredPath.t) :
  match findBetterMapping alias currentPath discovered with
  | Some better =>
      ∃ before item after,
        discovered = before ++ item :: after
        ∧ better = DiscoveredPath.relativePath item
        ∧ path_resolve rootDir better = path_resolve rootDir currentPath
        ∧ (String.length better < String.length currentPath)%nat
        ∧ ∀ x, x ∈ before → ¬ better_than currentPath x
  | None => ∀ x, x ∈ discovered → ¬ better_than currentPath x
  end.
Proof.
  clear path_join3 write_json read_json existsSync fs_access path_join number_truthy.
  induction discovered as [|item discovered IH].
  - simpl. by intros x ?%elem_of_nil.
  - rewrite findBetterMapping_cons. destruct (decide _) as [[Hsame Hshort]|Hno].
    + exists [], item, discovered. split; [done|]. split; [done|].
      split; [done|]. split; [done|]. by intros x ?%elem_of_nil.
    + destruct (findBetterMapping alias currentPath discovered) as [better|].
      * destruct IH as (before & item' & after & -> & -> & Hsame & Hshort & Hbefore).
        exists (item :: before), item', after. split; [done|]. split; [done|].
        split; [done|]. split; [done|].
        intros x [->|Hx]%elem_of_cons; [done|by apply Hbefore].
      * intros x [->|Hx]%elem_of_cons; [done|by apply IH].
Qed.

(** ** What validation reports *)

(** A table entry that passes: its mapping (the first element of an array
    mapping) is a string that resolves to an existing path. *)
Definition passes (mapping : value) : Prop :=
  ∃ mappingPath, mapping_path mapping = VStr mappingPath
                 ∧ validatePathMapping mappingPath rootDir = true.

(** What each reported issue is. *)
Definition reported (configPath : string) (issue : ValidationIssue.t) : Prop :=
  (ValidationIssue.type issue = error
   ∧ ((ValidationIssue.message issue = "tsconfig.json not found"
       ∧ ValidationIssue.path issue = Some configPath
       ∧ ValidationIssue.suggestion issue = None)
      ∨ (∃ thrown,
           ValidationIssue.message issue = "Failed to validate mappings: " +:+ thrown
           ∧ ValidationIssue.path issue = Some configPath
           ∧ ValidationIssue.suggestion issue = None)
      ∨ (∃ alias mappingPath,
           ValidationIssue.message issue
           = "Invalid path mapping: " +:+ alias +:+ " -> " +:+ mappingPath
           ∧ ValidationIssue.path issue = Some mappingPath
           ∧ ValidationIssue.suggestion issue = Some "Remove or fix this mapping"
           ∧ validatePathMapping mappingPath rootDir = false)))
  ∨ (ValidationIssue.type issue = info
     ∧ ∃ mappingPath discovered item,
         discoverPaths = Ok discovered
         ∧ item ∈ discovered
         ∧ DiscoveredPath.relativePath item ≠ EmptyString
         ∧ ValidationIssue.message issue
           = "Consider using shorter path: " +:+ DiscoveredPath.relativePath item
         ∧ ValidationIssue.path issue = Some mappingPath
         ∧ ValidationIssue.suggestion issue = Some (DiscoveredPath.relativePath item)
         ∧ validatePathMapping mappingPath rootDir = true
         ∧ path_resolve rootDir (DiscoveredPath.relativePath item)
           = path_resolve rootDir mappingPath
         ∧ (path_length item < String.length mappingPath)%nat).

Lemma validate_entry_cases (alias : string) (mapping : value) :
  (∃ mappingPath,
     mapping_path mapping = VStr mappingPath
     ∧ validatePathMapping mappingPath rootDir = false
     ∧ ∃ issue, validate_entry (alias, mapping) = Ok [issue]
                ∧ ValidationIssue.type issue = error
                ∧ ∀ configPath, reported configPath issue)
  ∨ (passes mapping
     ∧ ∃ discovered pushed,
         discoverPaths = Ok discovered
         ∧ validate_entry (alias, mapping) = Ok pushed
         ∧ ∀ issue, issue ∈ pushed →
             ValidationIssue.type issue = info ∧ ∀ configPath, reported configPath issue)
  ∨ (passes mapping
     ∧ ∃ e, discoverPaths = Throw e ∧ validate_entry (alias, mapping) = Throw e)
  ∨ (¬ passes mapping
     ∧ (∀ mappingPath, mapping_path mapping ≠ VStr mappingPath)
     ∧ ∃ e, validate_entry (alias, mapping) = Throw e).
Proof.
  clear path_join3 write_json read_json fs_access path_join.
  unfold validate_entry. fold (mapping_path mapping).
  destruct (mapping_path mapping) as [| |b|n|mappingPath|isArray props] eqn:Hpath;
    try (right; right; right;
         split; [intros (? & ? & _); congruence|split; [congruence|eauto]]).
  destruct (validatePathMapping mappingPath rootDir) eqn:Hvalid; simpl.
  - right.
    assert (passes mapping) as Hpasses by (by exists mappingPath).
    destruct discoverPaths as [discovered|e] eqn:Hdiscover; simpl.
    + left. split; [done|]. exists discovered.
      destruct (findBetterMapping alias mappingPath discovered) as [better|] eqn:Hbetter.
      * destruct (decide (better = EmptyString)) as [Hempty|Hfull].
        -- exists []. split; [done|]. split; [done|]. by intros ? ?%elem_of_nil.
        -- eexists. split; [done|]. split; [done|].
           intros issue ->%list_elem_of_singleton. split; [done|].
           intros configPath. right. split; [done|].
           apply findBetterMapping_Some in Hbetter as (item & Hin & -> & Hsame & Hshort).
           by exists mappingPath, discovered, item.
      * exists []. split; [done|]. split; [done|]. by intros ? ?%elem_of_nil.
    + right. left. split; [done|]. by exists e.
  - left. exists mappingPath. split; [done|]. split; [done|].
    eexists. split; [done|]. split; [done|].
    intros configPath. left. split; [done|]. right. right.
    by exists alias, mappingPath.
Qed.

Lemma passes_unique (mapping : value) (mappingPath : string) :
  mapping_path mapping = VStr mappingPath →
  validatePathMapping mappingPath rootDir = false →
  ¬ passes mapping.
Proof.
  clear path_join3 write_json read_json fs_access path_join.
  intros Hpath Hinvalid (p & Hp & Hvalid). rewrite Hpath in Hp.
  injection Hp as <-. congruence.
Qed.

(** The loop of [validateExistingMappings]. *)
Lemma validate_entries_valid (entries : list (string * value))
    (issues : list ValidationIssue.t) :
  (∃ issues', validate_entries entries issues = (issues', Ok ())
              ∧ ∀ issue, issue ∈ issues' → ValidationIssue.type issue ≠ error)
  ↔ (∀ issue, issue ∈ issues → ValidationIssue.type issue ≠ error)
    ∧ Forall (λ entry, passes entry.2) entries
    ∧ (entries = [] ∨ ∃ discovered, discoverPaths = Ok discovered).
Proof.
  clear path_join3 write_json read_json fs_access path_join.
  revert issues. induction entries as [|[alias mapping] entries IH]; intros issues.
  - simpl. split.
    + intros (issues' & [= <-] & Hall). split; [done|]. split; [constructor|by left].
    + intros (Hall & _ & _). by exists issues.
  - cbn [validate_entries].
    destruct (validate_entry_cases alias mapping)
      as [(p & Hpath & Hinvalid & issue & -> & Herror & _)
         |[(Hpasses & discovered & pushed & Hdiscover & -> & Hinfo)
          |[(Hpasses & e & Hdiscover & ->)|(Hfails & _ & e & ->)]]].
    + rewrite IH. split.
      * intros (Hall & _). exfalso. eapply Hall; [|exact Herror].
        apply elem_of_app. right. by apply list_elem_of_singleton.
      * intros (_ & Hpasses & _). apply Forall_cons in Hpasses as [Hpasses _].
        by eapply passes_unique in Hpasses.
    + rewrite IH, Forall_cons. split.
      * intros (Hall & Hrest & _). split; [|split; [done|right; eauto]].
        intros issue Hin. apply Hall, elem_of_app. by left.
      * intros (Hall & [_ Hrest] & _). split; [|split; [done|right; eauto]].
        intros issue [Hin|Hin]%elem_of_app; [by apply Hall|].
        apply Hinfo in Hin as [-> _]. done.
    + split.
      * intros (issues' & [=] & _).
      * intros (_ & _ & [[=]|(discovered & Hok)]). congruence.
    + split.
      * intros (issues' & [=] & _).
      * intros (_ & [Hpasses _]%Forall_cons & _). done.
Qed.

(** Every issue pushed by the loop is of a reported kind. *)
Lemma validate_entries_reported (configPath : string) (entries : list (string * value))
    (issues : list ValidationIssue.t) :
  Forall (reported configPath) issues →
  Forall (reported configPath) (validate_entries entries issues).1.
Proof.
  clear path_join3 write_json read_json fs_access path_join.
  revert issues. induction entries as [|[alias mapping] entries IH]; intros issues Hissues;
    [done|].
  cbn [validate_entries].
  destruct (validate_entry_cases alias mapping)
    as [(p & Hpath & Hinvalid & issue & -> & Herror & Hreported)
       |[(Hpasses & discovered & pushed & Hdiscover & -> & Hinfo)
        |[(Hpasses & e & Hdiscover & ->)|(Hfails & _ & e & ->)]]]; try done.
  - apply IH, Forall_app. split; [done|]. by apply Forall_singleton.
  - apply IH, Forall_app. split; [done|].
    apply Forall_forall. intros issue Hin. by apply Hinfo.
Qed.

Lemma existing_paths_entries (config paths : value) :
  existing_paths config = Ok paths →
  Object_entries paths = Ok (map_to_list (own_props paths)).
Proof.
  clear path_join3 write_json read_json existsSync fs_access path_resolve path_join.
  unfold existing_paths.
  destruct (get_member config "compilerOptions") as [compilerOptions|e]; simpl;
    [|discriminate].
  destruct (match compilerOptions with
            | VUndefined | VNull => Ok VUndefined
            | _ => get_member compilerOptions "paths"
            end) as [found|e]; simpl; [|discriminate].
  destruct (ToBoolean found) eqn:Htruthy; intros [= <-]; [|done].
  by destruct found.
Qed.

(** X11. When the configuration file is there and is read, and its table of
    paths is reached, validation answers [isValid = true] exactly when every
    mapping of the table (the first element, for a mapping given as an array)
    is a string that resolves to an existing path and, unless the table is
    empty, discovery succeeds. *)
Theorem validateExistingMappings_valid_iff (tsConfigPath : option string)
    (config paths : value) :
  pathExists (config_path tsConfigPath) = true →
  read_json (config_path tsConfigPath) = Ok config →
  existing_paths config = Ok paths →
  ValidationResult.isValid (validateExistingMappings tsConfigPath) = true
  ↔ (∀ alias mapping, own_props paths !! alias = Some mapping → passes mapping)
    ∧ (own_props paths = ∅ ∨ ∃ discovered, discoverPaths = Ok discovered).
Proof.
  clear path_join3 write_json.
  intros Hexists Hread Hpaths.
  unfold validateExistingMappings, readTsConfig, try_catch.
  rewrite Hexists, Hread. simpl. rewrite Hpaths. simpl.
  rewrite (existing_paths_entries _ _ Hpaths).
  pose proof (validate_entries_valid (map_to_list (own_props paths)) []) as Hloop.
  assert (Forall (λ entry : string * value, passes entry.2) (map_to_list (own_props paths))
          ↔ ∀ alias mapping, own_props paths !! alias = Some mapping → passes mapping)
    as Htable.
  { rewrite Forall_forall. split.
    - intros Hall alias mapping Hin. by apply (Hall (alias, mapping)), elem_of_map_to_list.
    - intros Hall [alias mapping] Hin. by apply (Hall alias), elem_of_map_to_list. }
  assert (map_to_list (own_props paths) = [] ↔ own_props paths = ∅) as Hempty
    by apply map_to_list_empty_iff.
  rewrite <- Htable, <- Hempty.
  destruct (validate_entries _ []) as [issues [[]|e]] eqn:Hentries; simpl.
  - rewrite bool_decide_eq_true, no_error_filter. split.
    + intros Hall. apply Hloop. by exists issues.
    + intros [Hall Hdiscover]. destruct Hloop as [_ Hloop].
      destruct Hloop as (issues' & [= <-] & Hclean); [|done].
      split; [by intros ? ?%elem_of_nil|done].
  - split; [discriminate|]. intros [Hall Hdiscover]. destruct Hloop as [_ Hloop].
    destruct Hloop as (issues' & [=] & _).
    split; [by intros ? ?%elem_of_nil|done].
Qed.

(** X12. Every issue that validation reports is an error or an information,
    never a warning.  An error is the missing file, the exception that
    stopped validation, or a mapping whose target does not exist.  An
    information goes with a mapping whose target exists, and suggests the
    relative path of a discovered record that resolves to the same place and
    is strictly shorter than the mapping. *)
Theorem validateExistingMappings_reported (tsConfigPath : option string) :
  Forall (reported (config_path tsConfigPath))
    (ValidationResult.issues (validateExistingMappings tsConfigPath)).
Proof.
  clear path_join3 write_json.
  unfold validateExistingMappings.
  assert (∀ issues thrown,
            Forall (reported (config_path tsConfigPath)) issues →
            Forall (reported (config_path tsConfigPath))
              (ValidationResult.issues
                 (validation_failed (config_path tsConfigPath) issues thrown)))
    as Hfailed.
  { intros issues thrown Hissues. apply Forall_app. split; [done|].
    apply Forall_singleton. left. split; [done|]. right. left. by exists thrown. }
  destruct (pathExists _); simpl.
  - destruct (readTsConfig _ ≫= _) as [entries|e]; [|by apply Hfailed].
    pose proof (validate_entries_reported (config_path tsConfigPath) entries []
                  (Forall_nil_2 _)) as Hloop.
    destruct (validate_entries entries []) as [issues [[]|e]]; [done|].
    by apply Hfailed.
  - apply Forall_singleton. left. split; [done|]. by left.
Qed.

(** ** What [updateTsConfig] writes *)

(** The table that validation reads from a configuration document is an
    object or a string, never [undefined] or [null]. *)
Lemma existing_paths_document (isArray : bool) (props : gmap string value) :
  config_document (VObj isArray props) = true →
  existing_paths (VObj isArray props)
  = Ok (match default VUndefined (props !! "compilerOptions") with
        | VObj _ props' =>
            let paths := default VUndefined (props' !! "paths") in
            if ToBoolean paths then paths else VObj false ∅
        | _ => VObj false ∅
        end).
Proof.
  clear path_join3 write_json read_json existsSync fs_access path_resolve path_join.
  unfold config_document, existing_paths. simpl.
  destruct (props !! "compilerOptions") as [[| |b|n|s|isArray' props']|]; simpl; try done.
Qed.

(** X13. When there is no configuration file, [updateTsConfig] writes, with
    either value of [merge], the default compiler options with the new table
    as their [paths], and nothing else; if the write fails, the exception
    wraps the one of the write. *)
Theorem updateTsConfig_without_file (newMappings : PathMapping)
    (tsConfigPath : option string) (merge : bool) :
  pathExists (config_path tsConfigPath) = false →
  let document :=
    VObj false
      {[ "compilerOptions" :=
           VObj false
             (<["paths" := of_mapping newMappings]>
                (list_to_map
                   [ ("target", VStr "ES2020");
                     ("module", VStr "commonjs");
                     ("strict", VBool true);
                     ("esModuleInterop", VBool true);
                     ("skipLibCheck", VBool true);
                     ("forceConsistentCasingInFileNames", VBool true) ])) ]} in
  updateTsConfig newMappings tsConfigPath merge
  = match write_json (config_path tsConfigPath) document with
    | Ok _ => Ok (config_path tsConfigPath, document)
    | Throw e =>
        Throw ("Error: Failed to update tsconfig.json: Error: Failed to write tsconfig.json: "
                 +:+ e)
    end.
Proof.
  clear path_join3 existsSync path_resolve.
  intros Hmissing document.
  unfold updateTsConfig, writeTsConfig, try_catch. rewrite Hmissing.
  assert (apply_mappings default_config newMappings merge = Ok document) as Happly.
  { unfold default_config.
    rewrite apply_mappings_document by reflexivity.
    unfold updated_document, document. rewrite lookup_singleton_eq. simpl.
    rewrite insert_singleton_eq, !lookup_insert_ne by done.
    rewrite lookup_empty. simpl. by destruct merge. }
  simpl. rewrite Happly. simpl.
  by destruct (write_json _ _) as [[]|e].
Qed.

(** X14. Applying a table to a configuration document changes nothing but
    [compilerOptions.paths]: the other members of the document and the other
    compiler options are kept as they are. *)
Theorem apply_mappings_keeps_other_settings (D : value) (T : PathMapping) (merge : bool) :
  config_document D = true →
  ∃ D1 options options1,
    apply_mappings D T merge = Ok D1
    ∧ get_member D "compilerOptions" = Ok options
    ∧ get_member D1 "compilerOptions" = Ok options1
    ∧ (∀ k, k ≠ "compilerOptions" → own_props D1 !! k = own_props D !! k)
    ∧ (∀ k, k ≠ "paths" → own_props options1 !! k = own_props options !! k).
Proof.
  clear path_join3 write_json read_json existsSync fs_access path_resolve path_join.
  intros Hdoc. destruct D as [| |b|n|s|isArray props]; try discriminate.
  rewrite (apply_mappings_document _ _ _ _ Hdoc).
  unfold config_document in Hdoc. unfold updated_document. simpl.
  assert (∀ X k, k ≠ "compilerOptions" →
            <["compilerOptions" := X]> props !! k = props !! k) as Hothers.
  { intros X k Hk. by rewrite lookup_insert_ne. }
  destruct (props !! "compilerOptions") as [compilerOptions|] eqn:Hco; simpl.
  - destruct compilerOptions as [| |b|n|s|isArray' props']; simpl in *;
      eexists _, _, _;
      (split; [reflexivity|]); (split; [reflexivity|]);
      (split; [simpl; by rewrite lookup_insert_eq|]);
      (split; [exact (Hothers _)|]);
      intros k Hk; simpl;
      try (by rewrite lookup_singleton_ne);
      try (by rewrite lookup_insert_ne).
    rewrite lookup_singleton_ne by done.
    rewrite orb_false_r in Hdoc. apply negb_true_iff, negb_false_iff in Hdoc.
    apply bool_decide_eq_true in Hdoc as ->. done.
  - eexists _, _, _.
    split; [reflexivity|]. split; [reflexivity|].
    split; [simpl; by rewrite lookup_insert_eq|].
    split; [exact (Hothers _)|].
    intros k Hk. simpl. by rewrite lookup_singleton_ne.
Qed.

(** X15. After a table is applied with [merge = true], the table of paths of
    the document holds the new entries and, under the keys that the new table
    does not have, the entries that were there before; with [merge = false]
    it holds the new entries only. *)
Theorem apply_mappings_merge_table (D : value) (T : PathMapping) (merge : bool) :
  config_document D = true →
  ∃ D1 paths paths1,
    apply_mappings D T merge = Ok D1
    ∧ existing_paths D = Ok paths
    ∧ existing_paths D1 = Ok paths1
    ∧ own_props paths1 = (VStr <$> T) ∪ (if merge then own_props paths else ∅)
    ∧ (∀ key target, T !! key = Some target → own_props paths1 !! key = Some (VStr target))
    ∧ (∀ key, T !! key = None →
              own_props paths1 !! key = if merge then own_props paths !! key else None).
Proof.
  clear path_join3 write_json read_json existsSync fs_access path_resolve path_join.
  intros Hdoc. destruct D as [| |b|n|s|isArray props]; try discriminate.
  rewrite (apply_mappings_document _ _ _ _ Hdoc).
  rewrite (existing_paths_document _ _ Hdoc).
  assert (∃ paths1,
            existing_paths (updated_document isArray props T merge) = Ok paths1
            ∧ own_props paths1
              = (VStr <$> T)
                  ∪ (if merge
                     then own_props
                            (match default VUndefined (props !! "compilerOptions") with
                             | VObj _ props' =>
                                 let paths := default VUndefined (props' !! "paths") in
                                 if ToBoolean paths then paths else VObj false ∅
                             | _ => VObj false ∅
                             end)
                     else ∅)) as (paths1 & Hpaths1 & Hprops).
  { unfold updated_document.
    destruct (default VUndefined (props !! "compilerOptions"))
      as [| |b|n|s|isArray' props'];
      try (rewrite existing_paths_document by (simpl; by rewrite lookup_insert_eq);
           rewrite lookup_insert_eq; simpl; rewrite lookup_singleton_eq; simpl;
           eexists; split; [reflexivity|]; simpl;
           destruct merge; by rewrite (right_id ∅ (∪))).
    rewrite existing_paths_document by (simpl; by rewrite lookup_insert_eq).
    rewrite lookup_insert_eq. simpl. rewrite lookup_insert_eq. simpl.
    destruct merge; simpl.
    - destruct (ToBoolean (default VUndefined (props' !! "paths"))); simpl.
      + eexists. split; [reflexivity|]. done.
      + eexists. split; [reflexivity|]. simpl. by rewrite (right_id ∅ (∪)).
    - eexists. split; [reflexivity|]. simpl. by rewrite (right_id ∅ (∪)). }
  eexists _, _, paths1. split; [reflexivity|]. split; [reflexivity|].
  split; [exact Hpaths1|]. split; [exact Hprops|]. rewrite Hprops. split.
  - intros key target Hkey. apply lookup_union_Some_l. by rewrite lookup_fmap, Hkey.
  - intros key Hkey. rewrite lookup_union_r by (by rewrite lookup_fmap, Hkey).
    by destruct merge.
Qed.

(** ** Suggestions *)

Lemma for_of_push_if {A : Type} (l : list A) (test : A → bool) (text : A → string)
    (pushed : list string) :
  for_of l (λ x pushed, Ok (if test x then pushed ++ [text x] else pushed)) pushed
  = Ok (pushed ++ (text <$> filter (λ x, test x = true) l)).
Proof.
  forget_environment.
  revert pushed. induction l as [|x l IH]; intros pushed.
  - simpl. by rewrite app_nil_r.
  - cbn [for_of]. simpl. rewrite IH, filter_cons.
    destruct (decide (test x = true)) as [Hx|Hx%not_true_is_false]; rewrite Hx.
    + by rewrite <- app_assoc.
    + done.
Qed.

(** X16. [getSuggestions] fails when discovery fails, with the same
    exception; otherwise it returns one suggestion for each of the six common
    directory names that exists under [src], in the order of the list, and
    nothing else: what was discovered plays no part. *)
Theorem getSuggestions_common_directories :
  getSuggestions
  = match discoverPaths with
    | Ok _ =>
        Ok ((λ dir, "Consider adding alias for common directory: @" +:+ dir
                      +:+ " -> src/" +:+ dir)
              <$> filter (λ dir, pathExists (path_join3 rootDir "src" dir) = true)
                    ["components"; "utils"; "types"; "services"; "hooks"; "pages"])
    | Throw e => Throw e
    end.
Proof.
  clear write_json read_json existsSync path_resolve path_join number_truthy.
  unfold getSuggestions, analyzeImportPatterns.
  destruct discoverPaths as [discovered|e]; [|done].
  cbn [mbind outcome_bind for_of].
  by rewrite (for_of_push_if commonDirs
                (λ dir, pathExists (path_join3 rootDir "src" dir))
                (λ dir, "Consider adding alias for common directory: @" +:+ dir
                          +:+ " -> src/" +:+ dir)).
Qed.

(** ** From the listers to the table *)

Lemma generateAlias_letter (filePath root : string) :
  ∃ c rest, generateAlias filePath root = String c rest ∧ is_letter c = true.
Proof.
  forget_environment.
  unfold generateAlias.
  set (alias := if decide (_ = EmptyString) then _ else _).
  destruct (starts_with_letter alias) eqn:Hstart; simpl.
  - destruct alias as [|c rest]; [discriminate|]. by exists c, rest.
  - by exists "p"%char, alias.
Qed.

Lemma generateMappings_from_entry (discovered : list DiscoveredPath.t)
    (result : PathMapperResult.t) (key target : string) :
  generateMappings_from discovered = Ok result →
  PathMapperResult.mappings result !! key = Some target →
  ∃ d, d ∈ discovered
       ∧ key = "@" +:+ DiscoveredPath.alias d
       ∧ target = DiscoveredPath.relativePath d.
Proof.
  forget_environment.
  destruct (generateMappings_from_returns discovered)
    as (g & m & sg & w & Hresult & _ & Hkeys & Hdom).
  destruct (generateMappings_from_exact discovered)
    as (m' & sg' & w' & Hresult' & Htargets & _).
  rewrite Hresult in Hresult'. injection Hresult' as <- <- <-.
  rewrite Hresult. intros [= <-]. simpl. intros Hlookup.
  assert (key ∈ dom m) as Hkey by (apply elem_of_dom; eauto).
  rewrite Hdom in Hkey.
  apply elem_of_list_to_set, list_elem_of_fmap in Hkey as (k & -> & Hk).
  apply Hkeys in Hk as (d & Hd & ->).
  destruct (Htargets (DiscoveredPath.alias d)) as (r & Hr & Hlookup').
  { apply list_elem_of_fmap. by exists d. }
  rewrite Hlookup in Hlookup'. injection Hlookup' as ->.
  destruct (resolveAliasConflict_member (DiscoveredPath.alias d)
              (filter (λ x, DiscoveredPath.alias x = DiscoveredPath.alias d) discovered))
    as (winner & Hin & Hwinner).
  { intros Hnil.
    assert (d ∈ filter (λ x, DiscoveredPath.alias x = DiscoveredPath.alias d) discovered)
      as Hd' by (by apply list_elem_of_filter).
    rewrite Hnil in Hd'. by apply elem_of_nil in Hd'. }
  rewrite Hwinner in Hr. injection Hr as <-.
  apply list_elem_of_filter in Hin as [Halias Hin].
  exists winner. by rewrite Halias.
Qed.

(** X17. Every entry of the table that [generateMappings] returns comes from
    a path that a lister returned: its key is [@] followed by the alias
    derived from this path, which begins with a letter, and its value is the
    path relative to the root. *)
Theorem generateMappings_entries (result : PathMapperResult.t) (key target : string) :
  generateMappings = Ok result →
  PathMapperResult.mappings result !! key = Some target →
  ∃ tsFiles directories p c rest,
    getTypeScriptFiles rootDir includePatterns excludePatterns = Ok tsFiles
    ∧ getDirectoryStructure rootDir maxDepth = Ok directories
    ∧ (p ∈ tsFiles ∨ p ∈ directories)
    ∧ key = "@" +:+ generateAlias p rootDir
    ∧ key = String "@" (String c rest)
    ∧ is_letter c = true
    ∧ target = path_relative rootDir p.
Proof.
  clear path_join3 write_json read_json existsSync fs_access path_resolve path_join
    number_truthy.
  unfold generateMappings.
  destruct discoverPaths as [discovered|e] eqn:Hdiscover; simpl; [|discriminate].
  intros Hresult Hlookup.
  destruct (generateMappings_from_entry _ _ _ _ Hresult Hlookup) as (d & Hd & -> & ->).
  apply discoverPaths_Ok in Hdiscover as (tsFiles & directories & Hfiles & Hdirs & ->).
  rewrite sort_Permutation in Hd.
  assert (∃ kind p, d = discovered_entry kind p ∧ (p ∈ tsFiles ∨ p ∈ directories))
    as (kind & p & -> & Hp).
  { apply elem_of_app in Hd as [Hd|Hd]; apply list_elem_of_fmap in Hd as (p & -> & Hp);
      eauto. }
  destruct (generateAlias_letter p rootDir) as (c & rest & Halias & Hletter).
  exists tsFiles, directories, p, c, rest. simpl. rewrite Halias. done.
Qed.

(** ** Failures of reading and writing *)

(** X25. When the configuration file is there and cannot be read or parsed,
    validation answers [isValid = false] with one issue: an error for the
    targeted path that quotes the failure. *)
Theorem validateExistingMappings_unreadable (tsConfigPath : option string) (e : string) :
  pathExists (config_path tsConfigPath) = true →
  read_json (config_path tsConfigPath) = Throw e →
  validateExistingMappings tsConfigPath
  = {| ValidationResult.isValid := false;
       ValidationResult.issues :=
         [ {| ValidationIssue.type := error;
              ValidationIssue.message :=
                "Failed to validate mappings: Error: Failed to read tsconfig.json: " +:+ e;
              ValidationIssue.path := Some (config_path tsConfigPath);
              ValidationIssue.suggestion := None |} ] |}.
Proof.
  clear path_join3 write_json.
  intros Hexists Hread.
  unfold validateExistingMappings, readTsConfig, try_catch.
  by rewrite Hexists, Hread.
Qed.

(** X26. [updateTsConfig] fails in three cases only, and always with an
    exception that wraps the cause: the file is there and cannot be read;
    the document read (or the default one) is not one that the table can be
    put in; the write fails. *)
Theorem updateTsConfig_fails (newMappings : PathMapping) (tsConfigPath : option string)
    (merge : bool) (message : string) :
  updateTsConfig newMappings tsConfigPath merge = Throw message
  ↔ ∃ cause,
      message = "Error: Failed to update tsconfig.json: " +:+ cause
      ∧ ((pathExists (config_path tsConfigPath) = true
          ∧ ∃ e, read_json (config_path tsConfigPath) = Throw e
                 ∧ cause = "Error: Failed to read tsconfig.json: " +:+ e)
         ∨ ∃ config,
             (if pathExists (config_path tsConfigPath)
              then read_json (config_path tsConfigPath) = Ok config
              else config = default_config)
             ∧ (apply_mappings config newMappings merge = Throw cause
                ∨ ∃ config1 e,
                    apply_mappings config newMappings merge = Ok config1
                    ∧ write_json (config_path tsConfigPath) config1 = Throw e
                    ∧ cause = "Error: Failed to write tsconfig.json: " +:+ e)).
Proof.
  clear path_join3 existsSync path_resolve.
  unfold updateTsConfig, readTsConfig, writeTsConfig, try_catch, Error.
  set (configPath := config_path tsConfigPath).
  assert (∀ config,
            match
              (config ← Ok config;
               config ← apply_mappings config newMappings merge;
               _ ← match write_json configPath config with
                   | Ok a => Ok a
                   | Throw e => Throw ("Error: " +:+ "Failed to write tsconfig.json: " +:+ e)
                   end;
               Ok (configPath, config))
            with
            | Ok a => Ok a
            | Throw e => Throw ("Error: " +:+ "Failed to update tsconfig.json: " +:+ e)
            end = Throw message
            ↔ ∃ cause,
                message = "Error: Failed to update tsconfig.json: " +:+ cause
                ∧ (apply_mappings config newMappings merge = Throw cause
                   ∨ ∃ config1 e,
                       apply_mappings config newMappings merge = Ok config1
                       ∧ write_json configPath config1 = Throw e
                       ∧ cause = "Error: Failed to write tsconfig.json: " +:+ e)) as Hrest.
  { intros config. simpl.
    destruct (apply_mappings config newMappings merge) as [config1|cause]; simpl.
    - destruct (write_json configPath config1) as [[]|e] eqn:Hwrite; simpl.
      + split; [discriminate|].
        intros (cause & _ & [?|(? & ? & [= <-] & ? & _)]); congruence.
      + split.
        * intros [= <-]. eexists. split; [reflexivity|]. right. by exists config1, e.
        * intros (cause & -> & [?|(? & e' & [= <-] & He' & ->)]); [discriminate|].
          rewrite Hwrite in He'. by injection He' as ->.
    - split.
      + intros [= <-]. exists cause. split; [reflexivity|]. by left.
      + intros (cause' & -> & [[= ->]|(? & ? & ? & _)]); [done|discriminate]. }
  destruct (pathExists configPath) eqn:Hexists.
  - destruct (read_json configPath) as [config|e] eqn:Hread.
    + rewrite Hrest. split.
      * intros (cause & -> & Hcause). exists cause. split; [done|]. right. by exists config.
      * intros (cause & -> & [[_ (e & [=] & _)]|(config' & [= <-] & Hcause)]).
        by exists cause.
    + simpl. split.
      * intros [= <-]. eexists. split; [reflexivity|]. left. split; [done|]. by exists e.
      * intros (cause & -> & [[_ (e' & [= <-] & ->)]|(config' & [=] & _)]). done.
  - rewrite Hrest. split.
    + intros (cause & -> & Hcause). exists cause. split; [done|]. right.
      by exists default_config.
    + intros (cause & -> & [[[=] _]|(config' & -> & Hcause)]). by exists cause.
Qed.

End PathMapper.

Arguments VUndefined {number}.
Arguments VNull {number}.
Arguments VBool {number} b.
Arguments VNum {number} n.
Arguments VStr {number} s.
Arguments VObj {number} isArray props.

(** * src/utils/fileUtils.ts: the two listers *)

Section FileUtils.

Set Default Proof Using "Type".

Variable path_join : string → string → string.
(** [await glob(pattern, { ignore, absolute: true, nodir: true })] *)
Variable glob : string → list string → outcome (list string).
(** [await fs.readdir(dir)] *)
Variable fs_readdir : string → outcome (list string).
(** [(await fs.stat(p)).isDirectory()] *)
Variable fs_stat_isDirectory : string → outcome bool.

(** An argument that is left out takes its default value. *)
Definition getTypeScriptFiles (rootDir : string)
    (includePatterns excludePatterns : option (list string)) : outcome (list string) :=
  let includePatterns := default ["**/*.ts"; "**/*.tsx"] includePatterns in
  let excludePatterns :=
    default ["**/*.d.ts"; "**/node_modules/**"; "**/dist/**"; "**/build/**"]
      excludePatterns in
  let patterns := (λ pattern, path_join rootDir pattern) <$> includePatterns in
  let excludePatternsWithRoot :=
    (λ pattern, path_join rootDir pattern) <$> excludePatterns in
  files ←
    for_of patterns
      (λ pattern files,
         matches ← glob pattern excludePatternsWithRoot;
         Ok (files ++ matches))
      [];
  Ok (unique files).

(** One turn of the loop of [getDirectoryStructure]; [recurse] is the
    recursive call, one level deeper. *)
Definition visit (recurse : string → outcome (list string)) (rootDir item : string)
    (directories : list string) : outcome (list string) :=
  let fullPath := path_join rootDir item in
  isDirectory ← fs_stat_isDirectory fullPath;
  if isDirectory : bool then
    subDirs ← recurse fullPath;
    Ok (directories ++ [fullPath] ++ subDirs)
  else Ok directories.

(** [getDirectoryStructure] where [levels] levels are left before
    [currentDepth] reaches [maxDepth]. *)
Fixpoint directory_structure (levels : nat) (rootDir : string) : outcome (list string) :=
  match levels with
  | O => Ok []
  | S levels =>
      try_catch
        (items ← fs_readdir rootDir;
         for_of items (visit (directory_structure levels) rootDir) [])
        (λ _, Ok [])
  end.

(** The depths are integers. *)
Definition getDirectoryStructure (rootDir : string) (maxDepth currentDepth : option Z)
  : outcome (list string) :=
  let maxDepth := default 3 maxDepth in
  let currentDepth := default 0 currentDepth in
  directory_structure (Z.to_nat (maxDepth - currentDepth)) rootDir.

(** *** What the properties speak of *)

(** [nested root n p]: [p] is a directory [n] levels below [root], reached
    through listings that succeed and entries that [fs.stat] reports as
    directories. *)
Inductive nested (root : string) : nat → string → Prop :=
| nested_child (items : list string) (item : string) :
    fs_readdir root = Ok items →
    item ∈ items →
    fs_stat_isDirectory (path_join root item) = Ok true →
    nested root 1 (path_join root item)
| nested_deeper (n : nat) (items : list string) (item p : string) :
    fs_readdir root = Ok items →
    item ∈ items →
    fs_stat_isDirectory (path_join root item) = Ok true →
    nested (path_join root item) n p →
    nested root (S n) p.

(** ** Properties of the listers *)

(** The function satisfies the recursive equation that the source
    states. *)
Lemma getDirectoryStructure_unfold (rootDir : string) (maxDepth currentDepth : Z) :
  getDirectoryStructure rootDir (Some maxDepth) (Some currentDepth)
  = if bool_decide (maxDepth ≤ currentDepth) then Ok []
    else
      try_catch
        (items ← fs_readdir rootDir;
         for_of items
           (visit (λ fullPath,
                     getDirectoryStructure fullPath (Some maxDepth) (Some (currentDepth + 1)))
              rootDir)
           [])
        (λ _, Ok []).
Proof.
  clear glob.
  unfold getDirectoryStructure. simpl.
  case_bool_decide as Hdepth.
  - by replace (Z.to_nat (maxDepth - currentDepth)) with 0%nat by lia.
  - replace (Z.to_nat (maxDepth - currentDepth))
      with (S (Z.to_nat (maxDepth - (currentDepth + 1)))) by lia.
    reflexivity.
Qed.

Lemma visit_cases (recurse : string → outcome (list string)) (rootDir item : string)
    (directories : list string) :
  visit recurse rootDir item directories
  = match fs_stat_isDirectory (path_join rootDir item) with
    | Ok true =>
        match recurse (path_join rootDir item) with
        | Ok subDirs => Ok (directories ++ path_join rootDir item :: subDirs)
        | Throw e => Throw e
        end
    | Ok false => Ok directories
    | Throw e => Throw e
    end.
Proof.
  clear glob fs_readdir.
  unfold visit. by destruct (fs_stat_isDirectory _) as [[]|e].
Qed.

Lemma directory_structure_returns (levels : nat) (rootDir : string) :
  ∃ directories, directory_structure levels rootDir = Ok directories.
Proof.
  clear glob.
  destruct levels as [|levels]; simpl; [eauto|].
  unfold try_catch. destruct (_ ≫= _); eauto.
Qed.

Lemma directory_structure_nested (levels : nat) (rootDir : string)
    (directories : list string) :
  directory_structure levels rootDir = Ok directories →
  ∀ p, p ∈ directories → ∃ n, (1 ≤ n ≤ levels)%nat ∧ nested rootDir n p.
Proof.
  clear glob.
  revert rootDir directories.
  induction levels as [|levels IH]; intros rootDir directories.
  { simpl. intros [= <-] p Hp. by apply elem_of_nil in Hp. }
  simpl. unfold try_catch.
  destruct (fs_readdir rootDir) as [items|e] eqn:Hitems; simpl;
    [|intros [= <-] p Hp; by apply elem_of_nil in Hp].
  assert (∀ (l found : list string) outcome,
            (∀ item, item ∈ l → item ∈ items) →
            (∀ p, p ∈ found → ∃ n, (1 ≤ n ≤ S levels)%nat ∧ nested rootDir n p) →
            for_of l (visit (directory_structure levels) rootDir) found = Ok outcome →
            ∀ p, p ∈ outcome → ∃ n, (1 ≤ n ≤ S levels)%nat ∧ nested rootDir n p) as Hloop.
  { induction l as [|item l IHl]; intros found outcome Hl Hfound.
    - simpl. by intros [= <-].
    - cbn [for_of]. rewrite visit_cases.
      destruct (fs_stat_isDirectory (path_join rootDir item)) as [[]|e] eqn:Hstat; simpl;
        [| |discriminate].
      + destruct (directory_structure levels (path_join rootDir item))
          as [subDirs|e] eqn:Hsub; simpl; [|discriminate].
        apply IHl; [intros item' Hin; apply Hl; by right|].
        intros p [Hp|[->|Hp]%elem_of_cons]%elem_of_app.
        * by apply Hfound.
        * exists 1%nat. split; [lia|].
          eapply nested_child; [exact Hitems|apply Hl; left|exact Hstat].
        * destruct (IH _ _ Hsub p Hp) as (n & Hn & Hnested).
          exists (S n). split; [lia|].
          eapply nested_deeper; [exact Hitems|apply Hl; left|exact Hstat|exact Hnested].
      + apply IHl; [intros item' Hin; apply Hl; by right|exact Hfound]. }
  destruct (for_of items _ []) as [outcome|e] eqn:Hfor; simpl.
  - intros [= <-]. eapply Hloop; [|by intros p ?%elem_of_nil|exact Hfor]. done.
  - intros [= <-] p Hp. by apply elem_of_nil in Hp.
Qed.

(** X18. [getDirectoryStructure] never throws, whatever the file system
    does.  Every path it returns is a directory nested under the root: it is
    reached from the root through listings that succeeded and entries that
    [fs.stat] reported as directories, at least one level and at most
    [maxDepth - currentDepth] levels below.  So nothing is returned when
    [currentDepth] has reached [maxDepth]. *)
Theorem getDirectoryStructure_nested (rootDir : string) (maxDepth currentDepth : Z) :
  ∃ directories,
    getDirectoryStructure rootDir (Some maxDepth) (Some currentDepth) = Ok directories
    ∧ (maxDepth ≤ currentDepth → directories = [])
    ∧ ∀ p, p ∈ directories →
        ∃ n, (1 ≤ n)%nat ∧ Z.of_nat n ≤ maxDepth - currentDepth ∧ nested rootDir n p.
Proof.
  clear glob.
  unfold getDirectoryStructure. simpl.
  destruct (directory_structure_returns (Z.to_nat (maxDepth - currentDepth)) rootDir)
    as (directories & Hreturns).
  exists directories. split; [done|]. split.
  - intros Hdepth. replace (Z.to_nat (maxDepth - currentDepth)) with 0%nat in Hreturns by lia.
    simpl in Hreturns. by injection Hreturns.
  - intros p Hp.
    destruct (directory_structure_nested _ _ _ Hreturns p Hp) as (n & Hn & Hnested).
    exists n. split; [lia|]. split; [lia|done].
Qed.



Lemma for_of_throws {A S : Type} (l : list A) (body : A → S → outcome S) (s : S) (x : A) :
  x ∈ l →
  (∀ s', ∃ e, body x s' = Throw e) →
  ∃ e, for_of l body s = Throw e.
Proof.
  clear glob fs_readdir fs_stat_isDirectory path_join.
  intros Hx Hbody. revert s. induction l as [|y l IH]; intros s.
  - by apply elem_of_nil in Hx.
  - cbn [for_of]. destruct (body y s) as [s1|e] eqn:Hy; simpl; [|eauto].
    apply elem_of_cons in Hx as [->|Hx]; [|by apply IH].
    destruct (Hbody s) as (e & He). congruence.
Qed.

(** X20. A failure is swallowed together with what was found beside it: when
    the listing of the root fails, or [fs.stat] fails for one entry of the
    root, the result is the empty list, whatever directories the other
    entries are. *)
Theorem getDirectoryStructure_swallows (rootDir : string) (maxDepth currentDepth : Z) :
  ((∃ e, fs_readdir rootDir = Throw e)
   ∨ ∃ items item e,
       fs_readdir rootDir = Ok items ∧ item ∈ items
       ∧ fs_stat_isDirectory (path_join rootDir item) = Throw e) →
  getDirectoryStructure rootDir (Some maxDepth) (Some currentDepth) = Ok [].
Proof.
  clear glob.
  intros Hfails. rewrite getDirectoryStructure_unfold.
  case_bool_decide as Hdepth; [done|].
  unfold try_catch.
  destruct Hfails as [(e & ->)|(items & item & e & -> & Hitem & Hstat)]; [done|].
  simpl.
  destruct (for_of_throws items
              (visit (λ fullPath,
                        getDirectoryStructure fullPath (Some maxDepth)
                          (Some (currentDepth + 1)))
                 rootDir) [] item Hitem) as (e' & ->); [|done].
  intros directories. exists e. by rewrite visit_cases, Hstat.
Qed.

Lemma glob_loop (patterns : list string) (ignore : list string)
    (matches : string → list string) (files : list string) :
  (∀ pattern, pattern ∈ patterns → glob pattern ignore = Ok (matches pattern)) →
  for_of patterns (λ pattern files, found ← glob pattern ignore; Ok (files ++ found)) files
  = Ok (files ++ mjoin (matches <$> patterns)).
Proof.
  clear fs_readdir fs_stat_isDirectory path_join.
  revert files. induction patterns as [|pattern patterns IH]; intros files Hglob.
  - simpl. by rewrite app_nil_r.
  - cbn [for_of]. rewrite (Hglob pattern) by left. simpl.
    rewrite IH by (intros pattern' Hin; apply Hglob; by right).
    by rewrite <- app_assoc.
Qed.

(** X21. When [glob] answers for every include pattern, [getTypeScriptFiles]
    returns the matches of all the patterns without repetition: every match
    of a pattern is in the result, everything in the result is a match of a
    pattern, and no path is there twice, also when two patterns match it. *)
Theorem getTypeScriptFiles_matches (rootDir : string) (includePatterns excludePatterns : list string)
    (matches : string → list string) :
  (∀ pattern, pattern ∈ includePatterns →
     glob (path_join rootDir pattern) ((λ pattern, path_join rootDir pattern) <$> excludePatterns)
     = Ok (matches pattern)) →
  ∃ files,
    getTypeScriptFiles rootDir (Some includePatterns) (Some excludePatterns) = Ok files
    ∧ NoDup files
    ∧ ∀ f, f ∈ files ↔ ∃ pattern, pattern ∈ includePatterns ∧ f ∈ matches pattern.
Proof.
  clear fs_readdir fs_stat_isDirectory.
  intros Hglob. unfold getTypeScriptFiles. simpl.
  assert (∃ found : string → list string,
            (∀ pattern, pattern ∈ includePatterns →
               found (path_join rootDir pattern) = matches pattern)
            ∧ ∀ pattern, pattern ∈ (λ pattern, path_join rootDir pattern) <$> includePatterns →
                glob pattern ((λ pattern, path_join rootDir pattern) <$> excludePatterns)
                = Ok (found pattern)) as (found & Hfound & Hglob').
  { exists (λ pattern,
              match glob pattern ((λ pattern, path_join rootDir pattern) <$> excludePatterns) with
              | Ok l => l
              | Throw _ => []
              end).
    split.
    - intros pattern Hin. by rewrite (Hglob pattern Hin).
    - intros ? (pattern & -> & Hin)%list_elem_of_fmap. by rewrite (Hglob pattern Hin). }
  rewrite (glob_loop _ _ found [] Hglob'). simpl.
  eexists. split; [reflexivity|]. split; [apply NoDup_unique|].
  intros f. rewrite elem_of_unique, list_elem_of_join. split.
  - intros (l & Hf & (? & -> & (pattern & -> & Hin)%list_elem_of_fmap)%list_elem_of_fmap).
    exists pattern. split; [done|]. by rewrite <- Hfound.
  - intros (pattern & Hin & Hf). exists (matches pattern). split; [done|].
    apply list_elem_of_fmap. exists (path_join rootDir pattern).
    split; [by rewrite Hfound|]. apply list_elem_of_fmap. eauto.
Qed.

(** X22. [getTypeScriptFiles] fails exactly when [glob] fails for an include
    pattern before which it answered for all others, and then with the
    exception of this [glob]: the matches of the earlier patterns are
    lost. *)
Theorem getTypeScriptFiles_fails (rootDir : string) (includePatterns excludePatterns : list string)
    (e : string) :
  getTypeScriptFiles rootDir (Some includePatterns) (Some excludePatterns) = Throw e
  ↔ ∃ before pattern after,
      includePatterns = before ++ pattern :: after
      ∧ (∀ earlier, earlier ∈ before →
           ∃ found,
             glob (path_join rootDir earlier)
               ((λ pattern, path_join rootDir pattern) <$> excludePatterns) = Ok found)
      ∧ glob (path_join rootDir pattern)
          ((λ pattern, path_join rootDir pattern) <$> excludePatterns) = Throw e.
Proof.
  clear fs_readdir fs_stat_isDirectory.
  unfold getTypeScriptFiles. simpl.
  set (ignore := (λ pattern, path_join rootDir pattern) <$> excludePatterns).
  generalize (@nil string) as files.
  induction includePatterns as [|first rest IH]; intros files.
  - simpl. split; [discriminate|]. intros (before & pattern & after & Heq & _).
    by destruct before.
  - rewrite fmap_cons. cbn [for_of].
    destruct (glob (path_join rootDir first) ignore) as [found|e'] eqn:Hfirst; simpl.
    + rewrite IH. split.
      * intros (before & pattern & after & -> & Hbefore & Hfails).
        exists (first :: before), pattern, after. split; [done|]. split; [|done].
        intros earlier [->|Hin]%elem_of_cons; [eauto|by apply Hbefore].
      * intros (before & pattern & after & Heq & Hbefore & Hfails).
        destruct before as [|first' before]; simplify_eq/=; [congruence|].
        exists before, pattern, after. split; [done|]. split; [|done].
        intros earlier Hin. apply Hbefore. by right.
    + split.
      * intros [= <-]. exists [], first, rest. split; [done|]. split; [|done].
        by intros earlier ?%elem_of_nil.
      * intros (before & pattern & after & Heq & Hbefore & Hfails).
        destruct before as [|first' before]; simpl in Heq; injection Heq as <- ->.
        -- rewrite Hfirst in Hfails. by injection Hfails as ->.
        -- destruct (Hbefore first) as (found & Hfound); [left|]. congruence.
Qed.

Lemma glob_loop_found (patterns : list string) (ignore : list string)
    (files files' : list string) :
  for_of patterns (λ pattern files, found ← glob pattern ignore; Ok (files ++ found)) files
  = Ok files' →
  ∀ p, p ∈ files' ↔
       p ∈ files ∨ ∃ pattern found, pattern ∈ patterns ∧ glob pattern ignore = Ok found
                                    ∧ p ∈ found.
Proof.
  clear fs_readdir fs_stat_isDirectory path_join.
  revert files. induction patterns as [|pattern patterns IH]; intros files.
  - simpl. intros [= <-] p. split; [by left|].
    by intros [?|(? & ? & ?%elem_of_nil & _)].
  - cbn [for_of]. destruct (glob pattern ignore) as [found|e] eqn:Hfound; simpl;
      [|discriminate].
    intros Hloop p. rewrite (IH _ Hloop), elem_of_app. split.
    + intros [[?|?]|(pattern' & found' & Hin & Hglob & Hp)]; [by left| |].
      * right. exists pattern, found. split; [left|done].
      * right. exists pattern', found'. split; [by right|done].
    + intros [?|(pattern' & found' & [->|Hin]%elem_of_cons & Hglob & Hp)].
      * by left; left.
      * left. right. congruence.
      * right. by exists pattern', found'.
Qed.

(** What [getTypeScriptFiles] returns when it returns. *)
Lemma getTypeScriptFiles_found (rootDir : string) (includePatterns excludePatterns : list string)
    (files : list string) :
  getTypeScriptFiles rootDir (Some includePatterns) (Some excludePatterns) = Ok files →
  NoDup files
  ∧ ∀ p, p ∈ files ↔
         ∃ pattern found,
           pattern ∈ includePatterns
           ∧ glob (path_join rootDir pattern)
               ((λ pattern, path_join rootDir pattern) <$> excludePatterns) = Ok found
           ∧ p ∈ found.
Proof.
  clear fs_readdir fs_stat_isDirectory.
  unfold getTypeScriptFiles. simpl.
  destruct (for_of _ _ []) as [all|e] eqn:Hloop; simpl; [|discriminate].
  intros [= <-]. split; [apply NoDup_unique|].
  intros p. rewrite elem_of_unique, (glob_loop_found _ _ _ _ Hloop). split.
  - intros [?%elem_of_nil|(? & found & (pattern & -> & Hin)%list_elem_of_fmap & Hglob & Hp)];
      [done|].
    by exists pattern, found.
  - intros (pattern & found & Hin & Hglob & Hp). right.
    exists (path_join rootDir pattern), found. split; [|done].
    apply list_elem_of_fmap. eauto.
Qed.

End FileUtils.

(** * src/PathMapper.ts: the constructor; src/index.ts *)

Module PathMapperOptions.
Record t : Type := mk {
  rootDir : option string;
  includePatterns : option (list string);
  excludePatterns : option (list string);
  maxDepth : option Z;
  autoGenerate : option bool;
  validateExisting : option bool;
}.
End PathMapperOptions.

Module RequiredOptions.
Record t : Type := mk {
  rootDir : string;
  includePatterns : list string;
  excludePatterns : list string;
  maxDepth : Z;
  autoGenerate : bool;
  validateExisting : bool;
}.
End RequiredOptions.

Module PathMapper.
Record t : Type := mk {
  rootDir : string;
  options : RequiredOptions.t;
}.
End PathMapper.

Section Library.

Set Default Proof Using "Type".

(** [process.cwd()] *)
Variable cwd : string.
Variable path_sep : ascii.
Variable path_relative : string → string → string.
Variable path_parse : string → ParsedPath.t.
Variable path_basename : string → string.
Variable localeCompare : string → string → Z.
Variable path_join : string → string → string.
Variable path_join3 : string → string → string → string.
Variable path_resolve : string → string → string.
Variable glob : string → list string → outcome (list string).
Variable fs_readdir : string → outcome (list string).
Variable fs_stat_isDirectory : string → outcome bool.
Variable fs_access : string → outcome ().
Variable existsSync : string → bool.
Variable number : Type.
Variable number_truthy : number → bool.
Variable read_json : string → outcome (value number).
Variable write_json : string → value number → outcome ().

(** [||] takes the right operand when the left one is falsy: [undefined],
    the empty string, the number [0]; an array is never falsy.  [??] takes it
    when the left one is [undefined]. *)
Definition constructor (options : option PathMapperOptions.t) : PathMapper.t :=
  let options :=
    default {| PathMapperOptions.rootDir := None;
               PathMapperOptions.includePatterns := None;
               PathMapperOptions.excludePatterns := None;
               PathMapperOptions.maxDepth := None;
               PathMapperOptions.autoGenerate := None;
               PathMapperOptions.validateExisting := None |} options in
  let rootDir :=
    match PathMapperOptions.rootDir options with
    | Some rootDir => if decide (rootDir = EmptyString) then cwd else rootDir
    | None => cwd
    end in
  {| PathMapper.rootDir := rootDir;
     PathMapper.options :=
       {| RequiredOptions.rootDir := rootDir;
          RequiredOptions.includePatterns :=
            default ["**/*.ts"; "**/*.tsx"] (PathMapperOptions.includePatterns options);
          RequiredOptions.excludePatterns :=
            default ["**/*.d.ts"; "**/node_modules/**"; "**/dist/**"; "**/build/**";
                     "**/.git/**"]
              (PathMapperOptions.excludePatterns options);
          RequiredOptions.maxDepth :=
            match PathMapperOptions.maxDepth options with
            | Some maxDepth => if maxDepth =? 0 then 3 else maxDepth
            | None => 3
            end;
          RequiredOptions.autoGenerate :=
            default true (PathMapperOptions.autoGenerate options);
          RequiredOptions.validateExisting :=
            default true (PathMapperOptions.validateExisting options) |} |}.

(** The methods of an instance: the functions of the class, with the fields
    of [this] and with the listers of [FileUtils]. *)
Definition PathMapper_discoverPaths (this : PathMapper.t) : outcome (list DiscoveredPath.t) :=
  discoverPaths path_sep path_relative path_parse path_basename localeCompare
    (PathMapper.rootDir this)
    (RequiredOptions.includePatterns (PathMapper.options this))
    (RequiredOptions.excludePatterns (PathMapper.options this))
    (RequiredOptions.maxDepth (PathMapper.options this))
    (λ rootDir includePatterns excludePatterns,
       getTypeScriptFiles path_join glob rootDir (Some includePatterns) (Some excludePatterns))
    (λ rootDir maxDepth,
       getDirectoryStructure path_join fs_readdir fs_stat_isDirectory rootDir
         (Some maxDepth) None).

Definition PathMapper_generateMappings (this : PathMapper.t) : outcome PathMapperResult.t :=
  generateMappings path_sep path_relative path_parse path_basename localeCompare
    (PathMapper.rootDir this)
    (RequiredOptions.includePatterns (PathMapper.options this))
    (RequiredOptions.excludePatterns (PathMapper.options this))
    (RequiredOptions.maxDepth (PathMapper.options this))
    (λ rootDir includePatterns excludePatterns,
       getTypeScriptFiles path_join glob rootDir (Some includePatterns) (Some excludePatterns))
    (λ rootDir maxDepth,
       getDirectoryStructure path_join fs_readdir fs_stat_isDirectory rootDir
         (Some maxDepth) None).

Definition PathMapper_validateExistingMappings (this : PathMapper.t)
    (tsConfigPath : option string) : ValidationResult.t :=
  validateExistingMappings path_sep path_relative path_parse path_basename localeCompare
    (PathMapper.rootDir this)
    (RequiredOptions.includePatterns (PathMapper.options this))
    (RequiredOptions.excludePatterns (PathMapper.options this))
    (RequiredOptions.maxDepth (PathMapper.options this))
    (λ rootDir includePatterns excludePatterns,
       getTypeScriptFiles path_join glob rootDir (Some includePatterns) (Some excludePatterns))
    (λ rootDir maxDepth,
       getDirectoryStructure path_join fs_readdir fs_stat_isDirectory rootDir
         (Some maxDepth) None)
    number number_truthy path_join path_resolve fs_access existsSync read_json tsConfigPath.

(** [merge: boolean = true] *)
Definition PathMapper_updateTsConfig (this : PathMapper.t) (newMappings : PathMapping)
    (tsConfigPath : option string) (merge : option bool) : outcome (string * value number) :=
  updateTsConfig (PathMapper.rootDir this) number number_truthy path_join fs_access
    read_json write_json newMappings tsConfigPath (default true merge).

Definition PathMapper_getSuggestions (this : PathMapper.t) : outcome (list string) :=
  getSuggestions path_sep path_relative path_parse path_basename localeCompare
    (PathMapper.rootDir this)
    (RequiredOptions.includePatterns (PathMapper.options this))
    (RequiredOptions.excludePatterns (PathMapper.options this))
    (RequiredOptions.maxDepth (PathMapper.options this))
    (λ rootDir includePatterns excludePatterns,
       getTypeScriptFiles path_join glob rootDir (Some includePatterns) (Some excludePatterns))
    (λ rootDir maxDepth,
       getDirectoryStructure path_join fs_readdir fs_stat_isDirectory rootDir
         (Some maxDepth) None)
    fs_access path_join3.

(** *** src/index.ts *)

Definition generatePathMappings (options : option PathMapperOptions.t) : outcome PathMapping :=
  let mapper := constructor options in
  result ← PathMapper_generateMappings mapper;
  Ok (PathMapperResult.mappings result).

Definition validatePathMappings (tsConfigPath : option string)
    (options : option PathMapperOptions.t) : bool :=
  let mapper := constructor options in
  let result := PathMapper_validateExistingMappings mapper tsConfigPath in
  ValidationResult.isValid result.

Definition updateTsConfigMappings (mappings : PathMapping) (tsConfigPath : option string)
    (merge : option bool) (options : option PathMapperOptions.t)
  : outcome (string * value number) :=
  let mapper := constructor options in
  PathMapper_updateTsConfig mapper mappings tsConfigPath merge.

Definition getPathMappingSuggestions (options : option PathMapperOptions.t)
  : outcome (list string) :=
  let mapper := constructor options in
  PathMapper_getSuggestions mapper.

(** *** What the properties speak of *)

(** The root that a call with these options scans: the current directory
    when none is given. *)
Definition scanned_root (options : option PathMapperOptions.t) : string :=
  match options ≫= PathMapperOptions.rootDir with
  | Some rootDir => if decide (rootDir = EmptyString) then cwd else rootDir
  | None => cwd
  end.

(** The number of levels that a call with these options descends: three
    when no depth, or the depth [0], is given. *)
Definition depth_limit (options : option PathMapperOptions.t) : Z :=
  match options ≫= PathMapperOptions.maxDepth with
  | Some 0 | None => 3
  | Some maxDepth => maxDepth
  end.

(** [p] is a file that a call with these options finds: a match of one of
    its include patterns. *)
Definition matched (options : option PathMapperOptions.t) (p : string) : Prop :=
  let this := constructor options in
  ∃ pattern found,
    pattern ∈ RequiredOptions.includePatterns (PathMapper.options this)
    ∧ glob (path_join (PathMapper.rootDir this) pattern)
        ((λ pattern, path_join (PathMapper.rootDir this) pattern)
           <$> RequiredOptions.excludePatterns (PathMapper.options this))
      = Ok found
    ∧ p ∈ found.

(** [p] is a directory within the depth limit of these options. *)
Definition within_limit (options : option PathMapperOptions.t) (p : string) : Prop :=
  ∃ n, (1 ≤ n)%nat ∧ Z.of_nat n ≤ depth_limit options
       ∧ nested path_join fs_readdir fs_stat_isDirectory (scanned_root options) n p.

(** ** Properties of the library *)

Lemma constructor_fields (options : option PathMapperOptions.t) :
  PathMapper.rootDir (constructor options) = scanned_root options
  ∧ RequiredOptions.maxDepth (PathMapper.options (constructor options)) = depth_limit options.
Proof.
  unfold constructor, scanned_root, depth_limit.
  destruct options as [[rootDir ? ? [maxDepth|] ? ?]|]; simpl; try done.
  split; [done|]. by destruct maxDepth.
Qed.

Lemma library_discoverPaths_Ok (options : option PathMapperOptions.t)
    (discovered : list DiscoveredPath.t) :
  PathMapper_discoverPaths (constructor options) = Ok discovered →
  ∃ tsFiles directories,
    getTypeScriptFiles path_join glob (PathMapper.rootDir (constructor options))
      (Some (RequiredOptions.includePatterns (PathMapper.options (constructor options))))
      (Some (RequiredOptions.excludePatterns (PathMapper.options (constructor options))))
    = Ok tsFiles
    ∧ directory_structure path_join fs_readdir fs_stat_isDirectory
        (Z.to_nat (depth_limit options)) (scanned_root options) = Ok directories
    ∧ discovered
      ≡ₚ (discovered_entry path_sep path_relative path_parse path_basename
            (scanned_root options) file <$> tsFiles)
         ++ (discovered_entry path_sep path_relative path_parse path_basename
               (scanned_root options) directory <$> directories).
Proof.
  intros Hdiscover.
  apply discoverPaths_Ok in Hdiscover as (tsFiles & directories & Hfiles & Hdirs & ->).
  destruct (constructor_fields options) as [Hroot Hdepth].
  unfold getDirectoryStructure in Hdirs. cbn [default from_option id] in Hdirs.
  rewrite Hroot, Hdepth, Z.sub_0_r in Hdirs.
  exists tsFiles, directories. split; [done|]. split; [done|].
  rewrite sort_Permutation, Hroot. done.
Qed.

Lemma discovered_entry_fields (rootDir : string) (kind : PathType) (p : string) :
  DiscoveredPath.path
    (discovered_entry path_sep path_relative path_parse path_basename rootDir kind p) = p
  ∧ DiscoveredPath.type
      (discovered_entry path_sep path_relative path_parse path_basename rootDir kind p) = kind.
Proof. done. Qed.


(** X24. Every entry of the table that [generatePathMappings] returns maps
    [@] followed by the alias of a path, which begins with a letter, to this
    path relative to the scanned root; the path is a file that an include
    pattern matched or a directory within the depth limit. *)
Theorem generatePathMappings_entries (options : option PathMapperOptions.t)
    (table : PathMapping) (key target : string) :
  generatePathMappings options = Ok table →
  table !! key = Some target →
  ∃ p c rest,
    (matched options p ∨ within_limit options p)
    ∧ key = "@" +:+ generateAlias path_relative path_parse path_basename p
                      (scanned_root options)
    ∧ key = String "@" (String c rest)
    ∧ is_letter c = true
    ∧ target = path_relative (scanned_root options) p.
Proof.
  clear path_join3 path_resolve fs_access existsSync number_truthy read_json write_json.
  unfold generatePathMappings, PathMapper_generateMappings, generateMappings.
  fold (PathMapper_discoverPaths (constructor options)).
  destruct (PathMapper_discoverPaths (constructor options)) as [discovered|e] eqn:Hdiscover;
    simpl; [|discriminate].
  destruct (generateMappings_from discovered) as [result|e] eqn:Hresult; simpl;
    [|discriminate].
  intros [= <-] Hlookup.
  destruct (generateMappings_from_entry _ _ _ _ Hresult Hlookup) as (d & Hd & -> & ->).
  apply library_discoverPaths_Ok in Hdiscover
    as (tsFiles & directories & Hfiles & Hdirs & Hperm).
  apply getTypeScriptFiles_found in Hfiles as [_ Hfiles].
  rewrite Hperm, elem_of_app, !list_elem_of_fmap in Hd.
  assert (∃ kind p,
            d = discovered_entry path_sep path_relative path_parse path_basename
                  (scanned_root options) kind p
            ∧ (matched options p ∨ within_limit options p)) as (kind & p & -> & Hp).
  { destruct Hd as [(p & -> & Hp)|(p & -> & Hp)]; eexists _, p; (split; [done|]).
    - left. by apply Hfiles.
    - right.
      destruct (directory_structure_nested _ _ _ _ _ _ Hdirs p Hp) as (n & Hn & Hnested).
      exists n. split; [lia|]. split; [lia|done]. }
  destruct (generateAlias_letter path_relative path_parse path_basename p
              (scanned_root options)) as (c & rest & Halias & Hletter).
  exists p, c, rest. simpl. rewrite Halias. done.
Qed.

End Library.

(** * A project to run the functions on *)

(** The properties above hold for every environment.  To run the functions,
    this section gives one: the project of the test suite
    ([src/__tests__/PathMapper.test.ts]) under [/test/project], and stand-ins
    for Node's [path] functions that are right for normalized absolute POSIX
    paths. *)
Module Sample.

Definition sep : ascii := "/"%char.

Fixpoint join (sep : string) (parts : list string) : string :=
  match parts with
  | [] => EmptyString
  | [part] => part
  | part :: rest => part +:+ sep +:+ join sep rest
  end.

Fixpoint strip_prefix (prefix s : string) : option string :=
  match prefix, s with
  | EmptyString, _ => Some s
  | String a prefix', String b s' => if decide (a = b) then strip_prefix prefix' s' else None
  | String _ _, EmptyString => None
  end.

Definition relative (from to : string) : string :=
  default to (strip_prefix (from +:+ "/") to).

Definition basename (p : string) : string :=
  List.last (split sep p) EmptyString.

Definition parse (p : string) : ParsedPath.t :=
  let base := basename p in
  let parts := split "."%char base in
  let stem := join "." (removelast parts) in
  let has_ext := bool_decide (1 < length parts)%nat && negb (bool_decide (stem = EmptyString)) in
  {| ParsedPath.root := EmptyString;
     ParsedPath.dir := join "/" (removelast (split sep p));
     ParsedPath.base := base;
     ParsedPath.ext := if has_ext then "." +:+ List.last parts EmptyString else EmptyString;
     ParsedPath.name := if has_ext then stem else base |}.

(** [s.toLowerCase()] for ASCII text. *)
Fixpoint lower (s : string) : string :=
  match s with
  | EmptyString => EmptyString
  | String c rest => String (toLowerCase c) (lower rest)
  end.

Definition sign (c : comparison) : Z :=
  match c with
  | Lt => -1
  | Eq => 0
  | Gt => 1
  end.

(** A stand-in for the collation behind [localeCompare], for aliases made of
    ASCII letters and digits: as the Unicode collation of every locale does,
    it compares the letters first whatever their case, and on a tie puts lower
    case before upper case.  So [apple] comes before [Banana], and [myfile]
    before [myFile]. *)
Definition localeCompare (a b : string) : Z :=
  match String.compare (lower a) (lower b) with
  | Eq => sign (String.compare b a)
  | c => sign c
  end.

Definition rootDir : string := "/test/project".

Definition files : list string :=
  [ "/test/project/src/components/Button.tsx";
    "/test/project/src/utils/helpers.ts" ].

Definition directories : list string :=
  [ "/test/project/src/components";
    "/test/project/src/utils" ].

Definition alias_of (filePath : string) : string :=
  generateAlias relative parse basename filePath rootDir.

Definition discover (tsFiles dirs : outcome (list string)) : outcome (list DiscoveredPath.t) :=
  discoverPaths sep relative parse basename localeCompare rootDir
    ["**/*.ts"; "**/*.tsx"] ["**/*.d.ts"] 3
    (λ _ _ _, tsFiles) (λ _ _, dirs).

Definition generate (tsFiles dirs : outcome (list string)) : outcome PathMapperResult.t :=
  generateMappings sep relative parse basename localeCompare rootDir
    ["**/*.ts"; "**/*.tsx"] ["**/*.d.ts"] 3
    (λ _ _ _, tsFiles) (λ _ _, dirs).

(** The group of the test [should handle alias conflicts]. *)
Definition utils_group : list DiscoveredPath.t :=
  [ {| DiscoveredPath.alias := "utils";
       DiscoveredPath.path := "/test/project/src/utils/index.ts";
       DiscoveredPath.relativePath := "src/utils/index.ts";
       DiscoveredPath.type := file;
       DiscoveredPath.depth := 2 |};
    {| DiscoveredPath.alias := "utils";
       DiscoveredPath.path := "/test/project/src/utils";
       DiscoveredPath.relativePath := "src/utils";
       DiscoveredPath.type := directory;
       DiscoveredPath.depth := 1 |} ].

Definition components_dir : DiscoveredPath.t :=
  {| DiscoveredPath.alias := "components";
     DiscoveredPath.path := "/test/project/src/components";
     DiscoveredPath.relativePath := "src/components";
     DiscoveredPath.type := directory;
     DiscoveredPath.depth := 1 |}.

Definition utils_dir : DiscoveredPath.t :=
  {| DiscoveredPath.alias := "utils";
     DiscoveredPath.path := "/test/project/src/utils";
     DiscoveredPath.relativePath := "src/utils";
     DiscoveredPath.type := directory;
     DiscoveredPath.depth := 1 |}.

Definition button_file : DiscoveredPath.t :=
  {| DiscoveredPath.alias := "button";
     DiscoveredPath.path := "/test/project/src/components/Button.tsx";
     DiscoveredPath.relativePath := "src/components/Button.tsx";
     DiscoveredPath.type := file;
     DiscoveredPath.depth := 2 |}.

Definition helpers_file : DiscoveredPath.t :=
  {| DiscoveredPath.alias := "helpers";
     DiscoveredPath.path := "/test/project/src/utils/helpers.ts";
     DiscoveredPath.relativePath := "src/utils/helpers.ts";
     DiscoveredPath.type := file;
     DiscoveredPath.depth := 2 |}.

(** What discovery returns for the project. *)
Definition discovered : list DiscoveredPath.t :=
  [components_dir; utils_dir; button_file; helpers_file].

(** What [generateMappings] returns for the project. *)
Definition result : PathMapperResult.t :=
  {| PathMapperResult.mappings :=
       <["@components" := "src/components"]>
         (<["@utils" := "src/utils"]>
            (<["@button" := "src/components/Button.tsx"]>
               (<["@helpers" := "src/utils/helpers.ts"]> ∅)));
     PathMapperResult.discovered := discovered;
     PathMapperResult.suggestions := [];
     PathMapperResult.warnings := [];
     PathMapperResult.errors := [] |}.

(** Two directories whose names differ in the case of the first letter, and
    their records. *)
Definition mixed_case : list string :=
  [ "/test/project/Banana";
    "/test/project/apple" ].

Definition Banana_dir : DiscoveredPath.t :=
  {| DiscoveredPath.alias := "Banana";
     DiscoveredPath.path := "/test/project/Banana";
     DiscoveredPath.relativePath := "Banana";
     DiscoveredPath.type := directory;
     DiscoveredPath.depth := 0 |}.

Definition apple_dir : DiscoveredPath.t :=
  {| DiscoveredPath.alias := "apple";
     DiscoveredPath.path := "/test/project/apple";
     DiscoveredPath.relativePath := "apple";
     DiscoveredPath.type := directory;
     DiscoveredPath.depth := 0 |}.

(** The file system: JSON numbers are integers here. *)
Definition truthy (n : Z) : bool := negb (n =? 0).

Definition path_join (a b : string) : string := a +:+ "/" +:+ b.

Definition on_disk : list string :=
  [ "/test/project/tsconfig.json";
    "/test/project/src/components";
    "/test/project/src/utils" ].

Definition access (p : string) : outcome () :=
  if bool_decide (p ∈ on_disk) then Ok ()
  else Throw "Error: ENOENT: no such file or directory".

Definition validate (config : outcome (value Z)) (tsConfigPath : option string)
  : ValidationResult.t :=
  validateExistingMappings sep relative parse basename localeCompare rootDir
    ["**/*.ts"; "**/*.tsx"] ["**/*.d.ts"] 3
    (λ _ _ _, Ok files) (λ _ _, Ok directories)
    Z truthy path_join path_join access (λ p, bool_decide (p ∈ on_disk))
    (λ _, config) tsConfigPath.

Definition update (config : outcome (value Z)) (newMappings : PathMapping)
    (tsConfigPath : option string) (merge : bool) : outcome (string * value Z) :=
  updateTsConfig rootDir Z truthy path_join access (λ _, config) (λ _ _, Ok ())
    newMappings tsConfigPath merge.

Definition with_paths (paths : gmap string (value Z)) : value Z :=
  VObj false {[ "compilerOptions" := VObj false {[ "paths" := VObj false paths ]} ]}.

(** The tables of the tests of [updateTsConfig]. *)
Definition table : PathMapping :=
  <["@components" := "src/components"]> (<["@utils" := "src/utils"]> ∅).

Definition old_table : gmap string (value Z) :=
  <["@utils" := VStr "lib/utils"]> (<["@legacy" := VStr "src/legacy"]> ∅).

(** The directory tree of the project, for the listers. *)
Definition tree : list (string * list string) :=
  [ ("/test/project", ["src"; "tsconfig.json"]);
    ("/test/project/src", ["components"; "utils"]);
    ("/test/project/src/components", ["Button.tsx"]);
    ("/test/project/src/utils", ["helpers.ts"]) ].

Definition readdir (dir : string) : outcome (list string) :=
  match Map_get tree dir with
  | Some items => Ok items
  | None => Throw "Error: ENOTDIR: not a directory"
  end.

Definition isDirectory (p : string) : outcome bool := Ok (Map_has tree p).

(** The same tree, where [tsconfig.json] cannot be examined. *)
Definition isDirectory_denied (p : string) : outcome bool :=
  if decide (p = "/test/project/tsconfig.json")
  then Throw "Error: EACCES: permission denied"
  else isDirectory p.

Definition matches (pattern : string) : list string :=
  if decide (pattern = "**/*.ts") then ["/test/project/src/utils/helpers.ts"]
  else if decide (pattern = "**/*.tsx") then ["/test/project/src/components/Button.tsx"]
  else [].

Definition glob (pattern : string) (ignore : list string) : outcome (list string) :=
  Ok (default [] (matches <$> strip_prefix "/test/project/" pattern)).

(** Options that name the root and ask for the depth [0]. *)
Definition options : PathMapperOptions.t :=
  {| PathMapperOptions.rootDir := Some rootDir;
     PathMapperOptions.includePatterns := None;
     PathMapperOptions.excludePatterns := None;
     PathMapperOptions.maxDepth := Some 0;
     PathMapperOptions.autoGenerate := None;
     PathMapperOptions.validateExisting := None |}.

Definition mapper : PathMapper.t := constructor "/home" (Some options).

Definition src_dir : DiscoveredPath.t :=
  {| DiscoveredPath.alias := "src";
     DiscoveredPath.path := "/test/project/src";
     DiscoveredPath.relativePath := "src";
     DiscoveredPath.type := directory;
     DiscoveredPath.depth := 0 |}.

(** What the instance discovers in the tree. *)
Definition found : list DiscoveredPath.t :=
  [src_dir; components_dir; utils_dir; button_file; helpers_file].


Definition library_generate : outcome PathMapping :=
  generatePathMappings "/home" sep relative parse basename localeCompare path_join glob
    readdir isDirectory (Some options).

(** The table that [generatePathMappings] returns for the tree. *)
Definition library_table : PathMapping :=
  <["@src" := "src"]> (PathMapperResult.mappings result).

End Sample.

Example alias_Button : Sample.alias_of "/test/project/src/components/Button.tsx" = "button".
Proof. reflexivity. Qed.

Example alias_kebab : Sample.alias_of "/test/project/src/my-file.name.ts" = "myFileName".
Proof. reflexivity. Qed.

Example alias_digits : Sample.alias_of "/test/project/src/404.tsx" = "p404".
Proof. reflexivity. Qed.

Example alias_trailing : Sample.alias_of "/test/project/src/page--.tsx" = "page  ".
Proof. reflexivity. Qed.

Example alias_directory : Sample.alias_of "/test/project/src/utils" = "utils".
Proof. reflexivity. Qed.

Example alias_directory_verbatim : Sample.alias_of "/test/project/src/my-dir" = "my-dir".
Proof. reflexivity. Qed.

Example alias_directory_digit : Sample.alias_of "/test/project/2024" = "p2024".
Proof. reflexivity. Qed.

Example discover_sample :
  (λ d, (DiscoveredPath.alias d, DiscoveredPath.relativePath d, DiscoveredPath.depth d))
    <$> default [] (match Sample.discover (Ok Sample.files) (Ok Sample.directories) with
                    | Ok l => Some l
                    | Throw _ => None
                    end)
  = [ ("components", "src/components", 1);
      ("utils", "src/utils", 1);
      ("button", "src/components/Button.tsx", 2);
      ("helpers", "src/utils/helpers.ts", 2) ].
Proof. vm_compute. reflexivity. Qed.

Example discover_fails :
  Sample.discover (Throw "Error: File system error") (Ok [])
  = Throw "Error: Failed to discover paths: Error: File system error".
Proof. reflexivity. Qed.

Example generate_sample :
  PathMapperResult.mappings
    <$> (match Sample.generate (Ok Sample.files) (Ok []) with
         | Ok r => Some r
         | Throw _ => None
         end)
  = Some (<["@button" := "src/components/Button.tsx"]>
            (<["@helpers" := "src/utils/helpers.ts"]> ∅)).
Proof. vm_compute. reflexivity. Qed.

Example generate_conflict :
  generateMappings_from Sample.utils_group
  = Ok {| PathMapperResult.mappings := {[ "@utils" := "src/utils/index.ts" ]};
          PathMapperResult.discovered := Sample.utils_group;
          PathMapperResult.suggestions := [];
          PathMapperResult.warnings :=
            ["Alias conflict resolved: utils -> utils for src/utils/index.ts"];
          PathMapperResult.errors := [] |}.
Proof. vm_compute. reflexivity. Qed.

Example resolve_utils :
  resolveAliasConflict "utils" Sample.utils_group
  = Ok {| Resolved.alias := "utils"; Resolved.path := "src/utils/index.ts" |}.
Proof. reflexivity. Qed.

Example validate_valid :
  Sample.validate
    (Ok (Sample.with_paths
           (<["@components" := VStr "src/components"]> (<["@utils" := VStr "src/utils"]> ∅))))
    None
  = {| ValidationResult.isValid := true; ValidationResult.issues := [] |}.
Proof. vm_compute. reflexivity. Qed.

Example validate_invalid :
  Sample.validate (Ok (Sample.with_paths {[ "@invalid" := VStr "src/nonexistent" ]})) None
  = {| ValidationResult.isValid := false;
       ValidationResult.issues :=
         [ {| ValidationIssue.type := error;
              ValidationIssue.message := "Invalid path mapping: @invalid -> src/nonexistent";
              ValidationIssue.path := Some "src/nonexistent";
              ValidationIssue.suggestion := Some "Remove or fix this mapping" |} ] |}.
Proof. vm_compute. reflexivity. Qed.

Example validate_array_entry :
  Sample.validate
    (Ok (Sample.with_paths
           {[ "@utils" := VObj true (<["0" := VStr "src/utils"]> (<["1" := VStr "lib"]> ∅)) ]}))
    None
  = {| ValidationResult.isValid := true; ValidationResult.issues := [] |}.
Proof. vm_compute. reflexivity. Qed.

Example validate_not_a_string :
  ValidationResult.isValid
    (Sample.validate (Ok (Sample.with_paths {[ "@utils" := VNum 3 ]})) None)
  = false.
Proof. vm_compute. reflexivity. Qed.

Example update_empty_options :
  Sample.update (Ok (VObj false {[ "compilerOptions" := VObj false ∅ ]})) Sample.table None true
  = Ok ("/test/project/tsconfig.json",
        VObj false
          {[ "compilerOptions" :=
               VObj false {[ "paths" := of_mapping Z Sample.table ]} ]}).
Proof. vm_compute. reflexivity. Qed.

Example update_merges :
  snd <$> (match Sample.update (Ok (Sample.with_paths Sample.old_table)) Sample.table None true with
           | Ok r => Some r
           | Throw _ => None
           end)
  = Some (Sample.with_paths
            (<["@components" := VStr "src/components"]>
               (<["@utils" := VStr "src/utils"]>
                  (<["@legacy" := VStr "src/legacy"]> ∅)))).
Proof. vm_compute. reflexivity. Qed.

Example update_null_document :
  Sample.update (Ok VNull) Sample.table None false
  = Throw "Error: Failed to update tsconfig.json: TypeError: Cannot read properties of null (reading 'compilerOptions')".
Proof. vm_compute. reflexivity. Qed.


(** * The theorems at the sample project *)

Lemma Sample_localeCompare_total (a b : string) :
  0 < Sample.localeCompare a b → Sample.localeCompare b a ≤ 0.
Proof.
  unfold Sample.localeCompare.
  rewrite (String.compare_antisym (Sample.lower a) (Sample.lower b)).
  rewrite (String.compare_antisym a b).
  destruct (String.compare (Sample.lower b) (Sample.lower a));
    destruct (String.compare b a); simpl; lia.
Qed.

Lemma Sample_discover :
  Sample.discover (Ok Sample.files) (Ok Sample.directories) = Ok Sample.discovered.
Proof. vm_compute. reflexivity. Qed.

Lemma Sample_generate :
  Sample.generate (Ok Sample.files) (Ok Sample.directories) = Ok Sample.result.
Proof. vm_compute. reflexivity. Qed.

Lemma resolveAliasConflict_first_shortest_witness :
  Sample.utils_group ≠ []
  ∧ ∃ before winner after,
      Sample.utils_group = before ++ winner :: after
      ∧ resolveAliasConflict "utils" Sample.utils_group =
          Ok {| Resolved.alias := DiscoveredPath.alias winner;
                Resolved.path := DiscoveredPath.relativePath winner |}
      ∧ ((∃ x, x ∈ Sample.utils_group ∧ DiscoveredPath.type x = file) →
         DiscoveredPath.type winner = file)
      ∧ ((∀ x, x ∈ Sample.utils_group → DiscoveredPath.type x = directory) →
         DiscoveredPath.type winner = directory)
      ∧ (∀ x, x ∈ before → DiscoveredPath.type x = DiscoveredPath.type winner →
              (String.length (DiscoveredPath.relativePath winner)
               < String.length (DiscoveredPath.relativePath x))%nat)
      ∧ (∀ x, x ∈ after → DiscoveredPath.type x = DiscoveredPath.type winner →
              (String.length (DiscoveredPath.relativePath winner)
               ≤ String.length (DiscoveredPath.relativePath x))%nat).
Proof.
  assert (Sample.utils_group ≠ []) as Hne by discriminate.
  split; [exact Hne|].
  exact (resolveAliasConflict_first_shortest "utils" Sample.utils_group Hne).
Defined.

Lemma resolveAliasConflict_keeps_alias_witness :
  Sample.utils_group ≠ []
  ∧ (∀ x, x ∈ Sample.utils_group → DiscoveredPath.alias x = "utils")
  ∧ ∃ resolved,
      resolveAliasConflict "utils" Sample.utils_group = Ok resolved
      ∧ Resolved.alias resolved = "utils"
      ∧ ∀ mappings suggestions warnings,
          (1 < length Sample.utils_group)%nat →
          process_group ("utils", Sample.utils_group) (mappings, suggestions, warnings) =
            Ok (<["@" +:+ "utils" := Resolved.path resolved]> mappings,
                suggestions,
                warnings ++
                  ["Alias conflict resolved: " +:+ "utils" +:+ " -> " +:+ "utils"
                     +:+ " for " +:+ Resolved.path resolved]).
Proof.
  assert (Sample.utils_group ≠ []) as Hne by discriminate.
  assert (∀ x, x ∈ Sample.utils_group → DiscoveredPath.alias x = "utils") as Hshared.
  { intros x Hx. unfold Sample.utils_group in Hx.
    apply elem_of_cons in Hx as [->|Hx]; [reflexivity|].
    apply list_elem_of_singleton in Hx as ->. reflexivity. }
  split; [exact Hne|]. split; [exact Hshared|].
  exact (resolveAliasConflict_keeps_alias "utils" Sample.utils_group Hne Hshared).
Defined.

Lemma discoverPaths_sorted_witness :
  (∀ a b, 0 < Sample.localeCompare a b → Sample.localeCompare b a ≤ 0)
  ∧ Sample.discover (Ok Sample.files) (Ok Sample.directories) = Ok Sample.discovered
  ∧ Sample.discovered !! 1%nat = Some Sample.utils_dir
  ∧ Sample.discovered !! 2%nat = Some Sample.button_file
  ∧ (DiscoveredPath.depth Sample.utils_dir < DiscoveredPath.depth Sample.button_file
     ∨ (DiscoveredPath.depth Sample.utils_dir = DiscoveredPath.depth Sample.button_file
        ∧ Sample.localeCompare (DiscoveredPath.alias Sample.utils_dir)
            (DiscoveredPath.alias Sample.button_file) ≤ 0)).
Proof.
  split; [exact Sample_localeCompare_total|]. split; [exact Sample_discover|].
  split; [reflexivity|]. split; [reflexivity|].
  exact (discoverPaths_sorted Sample.sep Sample.relative Sample.parse Sample.basename
           Sample.localeCompare Sample.rootDir ["**/*.ts"; "**/*.tsx"] ["**/*.d.ts"] 3
           (λ _ _ _, Ok Sample.files) (λ _ _, Ok Sample.directories)
           Sample.discovered 1 Sample.utils_dir Sample.button_file
           Sample_localeCompare_total Sample_discover eq_refl eq_refl).
Defined.

(** C4 as stated fails. With the directories [apple] and [Banana] under the
    root, discovery returns [apple] before [Banana] (same depth, and the
    collation puts [apple] first), although [apple] is lexicographically
    greater than [Banana] (code unit 97 against 66). *)
Lemma discoverPaths_not_lexicographic :
  Sample.discover (Ok []) (Ok Sample.mixed_case) = Ok [Sample.apple_dir; Sample.Banana_dir]
  ∧ ¬ (DiscoveredPath.depth Sample.apple_dir < DiscoveredPath.depth Sample.Banana_dir
       ∨ (DiscoveredPath.depth Sample.apple_dir = DiscoveredPath.depth Sample.Banana_dir
          ∧ lexicographic_le (DiscoveredPath.alias Sample.apple_dir)
              (DiscoveredPath.alias Sample.Banana_dir))).
Proof.
  split; [vm_compute; reflexivity|].
  simpl. intros [Hdepth|[_ Hle]]; [lia|]. apply Hle. reflexivity.
Qed.

Lemma generateMappings_errors_empty_witness :
  Sample.generate (Ok Sample.files) (Ok Sample.directories) = Ok Sample.result
  ∧ PathMapperResult.errors Sample.result = [].
Proof.
  split; [exact Sample_generate|].
  exact (generateMappings_errors_empty Sample.sep Sample.relative Sample.parse Sample.basename
           Sample.localeCompare Sample.rootDir ["**/*.ts"; "**/*.tsx"] ["**/*.d.ts"] 3
           (λ _ _ _, Ok Sample.files) (λ _ _, Ok Sample.directories)
           Sample.result Sample_generate).
Defined.

Lemma validateExistingMappings_missing_config_witness :
  pathExists Sample.access
    (config_path Sample.rootDir Sample.path_join (Some "/elsewhere/tsconfig.json")) = false
  ∧ ValidationResult.isValid
      (Sample.validate (Ok VNull) (Some "/elsewhere/tsconfig.json")) = false
  ∧ ∃ issue,
      ValidationResult.issues
        (Sample.validate (Ok VNull) (Some "/elsewhere/tsconfig.json")) = [issue]
      ∧ ValidationIssue.type issue = error
      ∧ ValidationIssue.message issue = "tsconfig.json not found"
      ∧ ValidationIssue.path issue
        = Some (config_path Sample.rootDir Sample.path_join (Some "/elsewhere/tsconfig.json")).
Proof.
  split; [reflexivity|].
  apply validateExistingMappings_missing_config. reflexivity.
Defined.

Lemma apply_mappings_merge_idempotent_witness :
  config_document Z Sample.truthy (Sample.with_paths Sample.old_table) = true
  ∧ ∃ D1,
      apply_mappings Z Sample.truthy (Sample.with_paths Sample.old_table) Sample.table true
      = Ok D1
      ∧ apply_mappings Z Sample.truthy D1 Sample.table true = Ok D1.
Proof.
  split; [reflexivity|].
  apply apply_mappings_merge_idempotent. reflexivity.
Defined.

Lemma apply_mappings_replace_witness :
  config_document Z Sample.truthy (Sample.with_paths Sample.old_table) = true
  ∧ ∃ D1,
      apply_mappings Z Sample.truthy (Sample.with_paths Sample.old_table) Sample.table false
      = Ok D1
      ∧ paths_node Z D1 = Ok (of_mapping Z Sample.table).
Proof.
  split; [reflexivity|].
  apply apply_mappings_replace. reflexivity.
Defined.

(** * The further properties at the sample project *)


Lemma Sample_library_generate : Sample.library_generate = Ok Sample.library_table.
Proof. vm_compute. reflexivity. Qed.



Lemma generateAlias_file_shape_witness :
  ParsedPath.ext
    (Sample.parse (Sample.relative Sample.rootDir "/test/project/src/page--.tsx"))
  ≠ EmptyString
  ∧ ∃ c word spaces,
      Sample.alias_of "/test/project/src/page--.tsx" = String c word +:+ spaces
      ∧ is_lower c = true
      ∧ all_chars is_alnum word = true
      ∧ all_chars (λ c, bool_decide (c = " "%char)) spaces = true.
Proof.
  assert (ParsedPath.ext
            (Sample.parse (Sample.relative Sample.rootDir "/test/project/src/page--.tsx"))
          ≠ EmptyString) as Hext by (vm_compute; discriminate).
  split; [exact Hext|].
  exact (generateAlias_file_shape Sample.relative Sample.parse Sample.basename
           "/test/project/src/page--.tsx" Sample.rootDir Hext).
Defined.

Lemma generateAlias_camelCase_witness :
  ParsedPath.ext
    (Sample.parse (Sample.relative Sample.rootDir "/test/project/src/my-file.name.ts"))
  ≠ EmptyString
  ∧ ParsedPath.name
      (Sample.parse (Sample.relative Sample.rootDir "/test/project/src/my-file.name.ts"))
    = separated "my" [("-", "file"); (".", "name")]
  ∧ is_name_word "my" = true
  ∧ starts_with_letter "my" = true
  ∧ Forall (λ sw : string * string, is_name_separator sw.1 = true ∧ is_name_word sw.2 = true)
      [("-", "file"); (".", "name")]
  ∧ Sample.alias_of "/test/project/src/my-file.name.ts"
    = camelCase "my" [("-", "file"); (".", "name")].
Proof.
  assert (ParsedPath.ext
            (Sample.parse (Sample.relative Sample.rootDir "/test/project/src/my-file.name.ts"))
          ≠ EmptyString) as Hext by (vm_compute; discriminate).
  assert (Forall (λ sw : string * string,
                    is_name_separator sw.1 = true ∧ is_name_word sw.2 = true)
            [("-", "file"); (".", "name")]) as Hmore.
  { repeat constructor. }
  split; [exact Hext|]. split; [reflexivity|]. split; [reflexivity|].
  split; [reflexivity|]. split; [exact Hmore|].
  exact (generateAlias_camelCase Sample.relative Sample.parse Sample.basename
           "/test/project/src/my-file.name.ts" Sample.rootDir "my"
           [("-", "file"); (".", "name")] Hext eq_refl eq_refl eq_refl Hmore).
Defined.

Lemma discoverPaths_records_witness :
  ∃ discovered,
    Sample.discover (Ok Sample.files) (Ok Sample.directories) = Ok discovered
    ∧ discovered ≡ₚ
        ((λ p, {| DiscoveredPath.alias := Sample.alias_of p;
                  DiscoveredPath.path := p;
                  DiscoveredPath.relativePath := Sample.relative Sample.rootDir p;
                  DiscoveredPath.type := file;
                  DiscoveredPath.depth :=
                    Z.of_nat (count_char Sample.sep (Sample.relative Sample.rootDir p)) |})
           <$> Sample.files)
        ++ ((λ p, {| DiscoveredPath.alias := Sample.alias_of p;
                     DiscoveredPath.path := p;
                     DiscoveredPath.relativePath := Sample.relative Sample.rootDir p;
                     DiscoveredPath.type := directory;
                     DiscoveredPath.depth :=
                       Z.of_nat (count_char Sample.sep (Sample.relative Sample.rootDir p)) |})
              <$> Sample.directories).
Proof.
  exact (discoverPaths_records Sample.sep Sample.relative Sample.parse Sample.basename
           Sample.localeCompare Sample.rootDir ["**/*.ts"; "**/*.tsx"] ["**/*.d.ts"] 3
           (λ _ _ _, Ok Sample.files) (λ _ _, Ok Sample.directories)
           Sample.files Sample.directories eq_refl eq_refl).
Defined.

Lemma generateMappings_from_prefers_files_witness :
  Sample.utils_dir ∈ Sample.utils_group
  ∧ ∃ result before winner after,
      generateMappings_from Sample.utils_group = Ok result
      ∧ Sample.utils_group = before ++ winner :: after
      ∧ DiscoveredPath.alias winner = "utils"
      ∧ PathMapperResult.mappings result !! "@utils"
        = Some (DiscoveredPath.relativePath winner)
      ∧ (∀ x, x ∈ Sample.utils_group → DiscoveredPath.alias x = "utils" →
              DiscoveredPath.type x = file → DiscoveredPath.type winner = file)
      ∧ (∀ x, x ∈ before → DiscoveredPath.alias x = "utils" →
              DiscoveredPath.type x = DiscoveredPath.type winner →
              (String.length (DiscoveredPath.relativePath winner)
               < String.length (DiscoveredPath.relativePath x))%nat)
      ∧ (∀ x, x ∈ after → DiscoveredPath.alias x = "utils" →
              DiscoveredPath.type x = DiscoveredPath.type winner →
              (String.length (DiscoveredPath.relativePath winner)
               ≤ String.length (DiscoveredPath.relativePath x))%nat).
Proof.
  assert (Sample.utils_dir ∈ Sample.utils_group) as Hin by (constructor 2; constructor 1).
  split; [exact Hin|].
  exact (generateMappings_from_prefers_files Sample.utils_group Sample.utils_dir Hin).
Defined.

Lemma validateExistingMappings_valid_iff_witness :
  pathExists Sample.access (config_path Sample.rootDir Sample.path_join None) = true
  ∧ existing_paths Z Sample.truthy
      (Sample.with_paths {[ "@invalid" := VStr "src/nonexistent" ]})
    = Ok (VObj false {[ "@invalid" := VStr "src/nonexistent" ]})
  ∧ (ValidationResult.isValid
       (Sample.validate (Ok (Sample.with_paths {[ "@invalid" := VStr "src/nonexistent" ]}))
          None) = true
     ↔ (∀ alias mapping,
          own_props Z (VObj false {[ "@invalid" := VStr "src/nonexistent" ]}) !! alias
          = Some mapping →
          passes Sample.rootDir Z Sample.path_join (λ p, bool_decide (p ∈ Sample.on_disk))
            mapping)
       ∧ (own_props Z (VObj false {[ "@invalid" := VStr "src/nonexistent" ]}) = ∅
          ∨ ∃ discovered,
              Sample.discover (Ok Sample.files) (Ok Sample.directories) = Ok discovered)).
Proof.
  split; [reflexivity|]. split; [reflexivity|].
  exact (validateExistingMappings_valid_iff Sample.sep Sample.relative Sample.parse
           Sample.basename Sample.localeCompare Sample.rootDir
           ["**/*.ts"; "**/*.tsx"] ["**/*.d.ts"] 3
           (λ _ _ _, Ok Sample.files) (λ _ _, Ok Sample.directories)
           Z Sample.truthy Sample.path_join Sample.path_join Sample.access
           (λ p, bool_decide (p ∈ Sample.on_disk))
           (λ _, Ok (Sample.with_paths {[ "@invalid" := VStr "src/nonexistent" ]}))
           None
           (Sample.with_paths {[ "@invalid" := VStr "src/nonexistent" ]})
           (VObj false {[ "@invalid" := VStr "src/nonexistent" ]})
           eq_refl eq_refl eq_refl).
Defined.

Lemma updateTsConfig_without_file_witness :
  pathExists Sample.access
    (config_path Sample.rootDir Sample.path_join (Some "/elsewhere/tsconfig.json")) = false
  ∧ Sample.update (Ok VNull) Sample.table (Some "/elsewhere/tsconfig.json") true
    = Ok ("/elsewhere/tsconfig.json",
          VObj false
            {[ "compilerOptions" :=
                 VObj false
                   (<["paths" := of_mapping Z Sample.table]>
                      (list_to_map
                         [ ("target", VStr "ES2020");
                           ("module", VStr "commonjs");
                           ("strict", VBool true);
                           ("esModuleInterop", VBool true);
                           ("skipLibCheck", VBool true);
                           ("forceConsistentCasingInFileNames", VBool true) ])) ]}).
Proof.
  split; [reflexivity|].
  exact (updateTsConfig_without_file Sample.rootDir Z Sample.truthy Sample.path_join
           Sample.access (λ _, Ok VNull) (λ _ _, Ok ()) Sample.table
           (Some "/elsewhere/tsconfig.json") true eq_refl).
Defined.

Lemma apply_mappings_keeps_other_settings_witness :
  config_document Z Sample.truthy (Sample.with_paths Sample.old_table) = true
  ∧ ∃ D1 options options1,
      apply_mappings Z Sample.truthy (Sample.with_paths Sample.old_table) Sample.table true
      = Ok D1
      ∧ get_member Z (Sample.with_paths Sample.old_table) "compilerOptions" = Ok options
      ∧ get_member Z D1 "compilerOptions" = Ok options1
      ∧ (∀ k, k ≠ "compilerOptions" →
              own_props Z D1 !! k = own_props Z (Sample.with_paths Sample.old_table) !! k)
      ∧ (∀ k, k ≠ "paths" → own_props Z options1 !! k = own_props Z options !! k).
Proof.
  split; [reflexivity|].
  exact (apply_mappings_keeps_other_settings Z Sample.truthy
           (Sample.with_paths Sample.old_table) Sample.table true eq_refl).
Defined.

Lemma apply_mappings_merge_table_witness :
  config_document Z Sample.truthy (Sample.with_paths Sample.old_table) = true
  ∧ ∃ D1 paths paths1,
      apply_mappings Z Sample.truthy (Sample.with_paths Sample.old_table) Sample.table true
      = Ok D1
      ∧ existing_paths Z Sample.truthy (Sample.with_paths Sample.old_table) = Ok paths
      ∧ existing_paths Z Sample.truthy D1 = Ok paths1
      ∧ own_props Z paths1 = (VStr <$> Sample.table) ∪ own_props Z paths
      ∧ (∀ key target, Sample.table !! key = Some target →
                       own_props Z paths1 !! key = Some (VStr target))
      ∧ (∀ key, Sample.table !! key = None →
                own_props Z paths1 !! key = own_props Z paths !! key).
Proof.
  split; [reflexivity|].
  exact (apply_mappings_merge_table Z Sample.truthy
           (Sample.with_paths Sample.old_table) Sample.table true eq_refl).
Defined.

Lemma generateMappings_entries_witness :
  Sample.generate (Ok Sample.files) (Ok Sample.directories) = Ok Sample.result
  ∧ PathMapperResult.mappings Sample.result !! "@utils" = Some "src/utils"
  ∧ ∃ tsFiles directories p c rest,
      Ok Sample.files = Ok tsFiles
      ∧ Ok Sample.directories = Ok directories
      ∧ (p ∈ tsFiles ∨ p ∈ directories)
      ∧ "@utils" = "@" +:+ Sample.alias_of p
      ∧ "@utils" = String "@" (String c rest)
      ∧ is_letter c = true
      ∧ "src/utils" = Sample.relative Sample.rootDir p.
Proof.
  assert (PathMapperResult.mappings Sample.result !! "@utils" = Some "src/utils") as Hlookup
    by (vm_compute; reflexivity).
  split; [exact Sample_generate|]. split; [exact Hlookup|].
  exact (generateMappings_entries Sample.sep Sample.relative Sample.parse Sample.basename
           Sample.localeCompare Sample.rootDir ["**/*.ts"; "**/*.tsx"] ["**/*.d.ts"] 3
           (λ _ _ _, Ok Sample.files) (λ _ _, Ok Sample.directories)
           Sample.result "@utils" "src/utils" Sample_generate Hlookup).
Defined.


Lemma getDirectoryStructure_swallows_witness :
  (∃ items item e,
     Sample.readdir "/test/project" = Ok items ∧ item ∈ items
     ∧ Sample.isDirectory_denied (Sample.path_join "/test/project" item) = Throw e)
  ∧ Sample.isDirectory_denied (Sample.path_join "/test/project" "src") = Ok true
  ∧ getDirectoryStructure Sample.path_join Sample.readdir Sample.isDirectory_denied
      "/test/project" (Some 3) (Some 0) = Ok [].
Proof.
  assert (∃ items item e,
            Sample.readdir "/test/project" = Ok items ∧ item ∈ items
            ∧ Sample.isDirectory_denied (Sample.path_join "/test/project" item) = Throw e)
    as Hdenied.
  { exists ["src"; "tsconfig.json"], "tsconfig.json", "Error: EACCES: permission denied".
    split; [reflexivity|]. split; [constructor 2; constructor 1|reflexivity]. }
  split; [exact Hdenied|]. split; [reflexivity|].
  exact (getDirectoryStructure_swallows Sample.path_join Sample.readdir
           Sample.isDirectory_denied "/test/project" 3 0 (or_intror Hdenied)).
Defined.

Lemma getTypeScriptFiles_matches_witness :
  (∀ pattern, pattern ∈ ["**/*.ts"; "**/*.tsx"] →
     Sample.glob (Sample.path_join "/test/project" pattern)
       ((λ pattern, Sample.path_join "/test/project" pattern) <$> ["**/*.d.ts"])
     = Ok (Sample.matches pattern))
  ∧ ∃ files,
      getTypeScriptFiles Sample.path_join Sample.glob "/test/project"
        (Some ["**/*.ts"; "**/*.tsx"]) (Some ["**/*.d.ts"]) = Ok files
      ∧ NoDup files
      ∧ ∀ f, f ∈ files ↔
             ∃ pattern, pattern ∈ ["**/*.ts"; "**/*.tsx"] ∧ f ∈ Sample.matches pattern.
Proof.
  assert (∀ pattern, pattern ∈ ["**/*.ts"; "**/*.tsx"] →
            Sample.glob (Sample.path_join "/test/project" pattern)
              ((λ pattern, Sample.path_join "/test/project" pattern) <$> ["**/*.d.ts"])
            = Ok (Sample.matches pattern)) as Hglob.
  { intros pattern Hin. apply elem_of_cons in Hin as [->|Hin]; [reflexivity|].
    apply list_elem_of_singleton in Hin as ->. reflexivity. }
  split; [exact Hglob|].
  exact (getTypeScriptFiles_matches Sample.path_join Sample.glob "/test/project"
           ["**/*.ts"; "**/*.tsx"] ["**/*.d.ts"] Sample.matches Hglob).
Defined.


Lemma generatePathMappings_entries_witness :
  Sample.library_generate = Ok Sample.library_table
  ∧ Sample.library_table !! "@src" = Some "src"
  ∧ ∃ p c rest,
      (matched "/home" Sample.path_join Sample.glob (Some Sample.options) p
       ∨ within_limit "/home" Sample.path_join Sample.readdir Sample.isDirectory
           (Some Sample.options) p)
      ∧ "@src" = "@" +:+ generateAlias Sample.relative Sample.parse Sample.basename p
                           (scanned_root "/home" (Some Sample.options))
      ∧ "@src" = String "@" (String c rest)
      ∧ is_letter c = true
      ∧ "src" = Sample.relative (scanned_root "/home" (Some Sample.options)) p.
Proof.
  assert (Sample.library_table !! "@src" = Some "src") as Hlookup
    by (vm_compute; reflexivity).
  split; [exact Sample_library_generate|]. split; [exact Hlookup|].
  exact (generatePathMappings_entries "/home" Sample.sep Sample.relative Sample.parse
           Sample.basename Sample.localeCompare Sample.path_join Sample.glob
           Sample.readdir Sample.isDirectory (Some Sample.options)
           Sample.library_table "@src" "src" Sample_library_generate Hlookup).
Defined.

Lemma validateExistingMappings_unreadable_witness :
  pathExists Sample.access (config_path Sample.rootDir Sample.path_join None) = true
  ∧ Sample.validate (Throw "SyntaxError: Unexpected end of JSON input") None
    = {| ValidationResult.isValid := false;
         ValidationResult.issues :=
           [ {| ValidationIssue.type := error;
                ValidationIssue.message :=
                  "Failed to validate mappings: Error: Failed to read tsconfig.json: "
                    +:+ "SyntaxError: Unexpected end of JSON input";
                ValidationIssue.path := Some "/test/project/tsconfig.json";
                ValidationIssue.suggestion := None |} ] |}.
Proof.
  split; [reflexivity|].
  exact (validateExistingMappings_unreadable Sample.sep Sample.relative Sample.parse
           Sample.basename Sample.localeCompare Sample.rootDir
           ["**/*.ts"; "**/*.tsx"] ["**/*.d.ts"] 3
           (λ _ _ _, Ok Sample.files) (λ _ _, Ok Sample.directories)
           Z Sample.truthy Sample.path_join Sample.path_join Sample.access
           (λ p, bool_decide (p ∈ Sample.on_disk))
           (λ _, Throw "SyntaxError: Unexpected end of JSON input")
           None "SyntaxError: Unexpected end of JSON input" eq_refl eq_refl).
Defined.
